(** * Sudoku engine of [src/services/sudokuService.ts]

    A shallow embedding of the game logic (placement validation, solution
    generation by randomised backtracking, puzzle carving, conflict
    detection, solved-state check) and the proofs of its specification. *)

From Stdlib Require Import Ascii.
From stdpp Require Import base numbers option list gmap strings pretty.

Local Open Scope nat_scope.

(** * Part I: the code *)

(** ** Data model *)

(** A cell is [number | null]; numbers are modelled as integers. *)
Definition cell : Type := option Z.

(** [Board] is an array of row arrays. *)
Abbreviation Board := (list (list cell)).

(** [board[r][c]]: [None] is JavaScript's [undefined] of an index that is
    out of range, [Some None] is [null], [Some (Some n)] is the number [n].
    (A missing row makes the source throw; on the 9x9 grids of the
    specification neither happens.) *)
Definition cellAt (b : Board) (r c : nat) : option cell :=
  b !! r ≫= (.!! c).

(** [board[r][c] = v] *)
Definition setCell (b : Board) (r c : nat) (v : cell) : Board :=
  alter (<[c := v]>) r b.

(** The grid invariant: nine rows of nine cells. *)
Definition wfBoard (b : Board) : Prop :=
  length b = 9 ∧ Forall (λ row, length row = 9) b.

(** Every number on the board is one of 1..9. *)
Definition valuesInRange (b : Board) : Prop :=
  ∀ r c v, cellAt b r c = Some (Some v) → (1 ≤ v ≤ 9)%Z.

(** ** Loops with an early return *)

(** [for (x = lo; x < lo + n; x++) if (p x) return ...] : does some
    iteration take the early return? *)
Definition anyIn (lo n : nat) (p : nat → bool) : bool :=
  existsb p (seq lo n).

(** A loop whose body may return a value: the first value returned. *)
Fixpoint firstSome {A B} (f : A → option B) (l : list A) : option B :=
  match l with
  | [] => None
  | x :: l' => match f x with Some y => Some y | None => firstSome f l' end
  end.

(** ** isValidPlacement *)

Definition isValidPlacement (board : Board) (row col : nat) (num : Z) : bool :=
  if anyIn 0 9 (λ x, bool_decide (cellAt board row x = Some (Some num)))
  then false
  else if anyIn 0 9 (λ x, bool_decide (cellAt board x col = Some (Some num)))
  then false
  else
    let startRow := row - row mod 3 in
    let startCol := col - col mod 3 in
    if anyIn 0 3 (λ i, anyIn 0 3 (λ j,
         bool_decide (cellAt board (i + startRow) (j + startCol) = Some (Some num))))
    then false
    else true.

(** ** findEmptyCell *)

Definition findEmptyCell (board : Board) : option (nat * nat) :=
  firstSome (λ i,
    firstSome (λ j,
      if bool_decide (cellAt board i j = Some None) then Some (i, j) else None)
      (seq 0 9))
    (seq 0 9).

(** ** isCellInConflict *)

Definition isCellInConflict (board : Board) (row col : nat) : bool :=
  let value := cellAt board row col in
  if bool_decide (value = Some None) then false
  else if anyIn 0 9 (λ c, negb (c =? col) && bool_decide (cellAt board row c = value))
  then true
  else if anyIn 0 9 (λ r, negb (r =? row) && bool_decide (cellAt board r col = value))
  then true
  else
    let boxStartRow := row / 3 * 3 in
    let boxStartCol := col / 3 * 3 in
    if anyIn boxStartRow 3 (λ r, anyIn boxStartCol 3 (λ c,
         negb (r =? row) && negb (c =? col) && bool_decide (cellAt board r c = value)))
    then true
    else false.

(** ** checkSolution *)

Definition checkSolution (board : Board) : bool :=
  if anyIn 0 9 (λ i, anyIn 0 9 (λ j,
       bool_decide (cellAt board i j = Some None) || isCellInConflict board i j))
  then false
  else true.

(** ** The random source *)

(** [Math.random()] is modelled by an oracle: [draw k] decides the outcome
    of the [k]-th call, and the number of calls made so far is threaded
    through the code as state. [Math.floor(Math.random() * n)] is then
    [draw k mod n], which ranges over all of [0 .. n-1] as the oracle
    varies. *)
Definition randomBelow (draw : nat → nat) (k n : nat) : nat := draw k mod n.
Global Arguments randomBelow : simpl never.

(** [[l[i], l[j]] = [l[j], l[i]]] *)
Definition swap {A} (l : list A) (i j : nat) : list A :=
  match l !! i, l !! j with
  | Some x, Some y => <[j := x]> (<[i := y]> l)
  | _, _ => l
  end.

(** [for (let i = numbers.length - 1; i > 0; i--) { j = ...; swap }] *)
Fixpoint shuffleFrom (draw : nat → nat) (i : nat) (numbers : list Z) (k : nat)
  : list Z * nat :=
  match i with
  | 0 => (numbers, k)
  | S i' =>
      let j := randomBelow draw k (i + 1) in
      shuffleFrom draw i' (swap numbers i j) (S k)
  end.

Definition shuffle (draw : nat → nat) (numbers : list Z) (k : nat) : list Z * nat :=
  shuffleFrom draw (length numbers - 1) numbers k.

Definition oneToNine : list Z := [1; 2; 3; 4; 5; 6; 7; 8; 9]%Z.

(** ** generateSolution *)

(** The result of a call: the returned boolean, the board as the call
    leaves it (the source mutates it in place) and the random state. *)
Definition Outcome : Type := bool * Board * nat.

(** [for (const num of numbers) { ... }]: [rec] is the recursive call. *)
Fixpoint tryNumbers (rec : Board → nat → option Outcome) (row col : nat)
    (numbers : list Z) (board : Board) (k : nat) : option Outcome :=
  match numbers with
  | [] => Some (false, board, k)
  | num :: rest =>
      if isValidPlacement board row col num then
        match rec (setCell board row col (Some num)) k with
        | None => None
        | Some (true, board', k') => Some (true, board', k')
        | Some (false, board', k') =>
            tryNumbers rec row col rest (setCell board' row col None) k'
        end
      else tryNumbers rec row col rest board k
  end.

(** [fuel] bounds the depth of the recursion; [None] is "out of fuel". *)
Fixpoint generateSolution (draw : nat → nat) (fuel : nat) (board : Board) (k : nat)
  : option Outcome :=
  match fuel with
  | 0 => None
  | S fuel' =>
      match findEmptyCell board with
      | None => Some (true, board, k)
      | Some (row, col) =>
          let '(numbers, k1) := shuffle draw oneToNine k in
          tryNumbers (generateSolution draw fuel') row col numbers board k1
      end
  end.

(** ** createPuzzle *)

(** The enum [Difficulty] of the module [../types]
    ([src/components/DifficultySelector.tsx], lines 132-136). *)
Inductive Difficulty := Easy | Medium | Hard.

Definition removalsOf (difficulty : Difficulty) : nat :=
  match difficulty with
  | Easy => 35
  | Medium => 45
  | Hard => 55
  end.

(** [JSON.parse(JSON.stringify(board))] on the values: a board rebuilt
    cell by cell. *)
Definition jsonCopy (board : Board) : Board :=
  (λ row : list cell, (λ c : cell, c) <$> row) <$> board.

(** [while (attempts > 0) { ... }]; [fuel] bounds the number of iterations
    and [None] is "out of fuel". Each iteration draws twice. *)
Fixpoint carve (draw : nat → nat) (fuel : nat) (puzzle : Board) (attempts k : nat)
  : option (Board * nat) :=
  match attempts with
  | 0 => Some (puzzle, k)
  | S attempts' =>
      match fuel with
      | 0 => None
      | S fuel' =>
          let row := randomBelow draw k 9 in
          let col := randomBelow draw (S k) 9 in
          if bool_decide (cellAt puzzle row col ≠ Some None)
          then carve draw fuel' (setCell puzzle row col None) attempts' (S (S k))
          else carve draw fuel' puzzle attempts (S (S k))
      end
  end.

Definition createPuzzle (draw : nat → nat) (fuel : nat) (solvedBoard : Board)
    (difficulty : Difficulty) (k : nat) : option (Board * nat) :=
  let puzzle := jsonCopy solvedBoard in
  let removals := removalsOf difficulty in
  carve draw fuel puzzle removals k.

(** ** generateSudoku *)

Definition generateSudoku (draw : nat → nat) (fuel : nat) (difficulty : Difficulty)
    (k : nat) : option (Board * Board * nat) :=
  let solution : Board := replicate 9 (replicate 9 None) in
  '(_, solution, k1) ← generateSolution draw fuel solution k;
  '(puzzle, k2) ← createPuzzle draw fuel (jsonCopy solution) difficulty k1;
  Some (puzzle, solution, k2).

(** ** findAllConflicts *)

(** The template literal [`${r}-${c}`]. *)
Definition key (r c : Z) : string := pretty r +:+ "-" +:+ pretty c.

(** [l.map((x, i) => p(x) ? i : -1).filter(i => i !== -1)] *)
Definition indicesWhere {A} (p : A → bool) (l : list A) : list Z :=
  filter (λ i, i ≠ (-1)%Z) (imap (λ i x, if p x then Z.of_nat i else (-1)%Z) l).

(** [if (indices.length > 1) indices.forEach(i => conflicts.add(k(i)))] *)
Definition addIfSeveral {A} (k : A → string) (indices : list A)
    (conflicts : gset string) : gset string :=
  if 1 <? length indices
  then foldl (λ s i, {[k i]} ∪ s) conflicts indices
  else conflicts.

Definition holdsNum (num : Z) (val : cell) : bool := bool_decide (val = Some num).

(** The three scans for one number. ([board[r]] of a missing row makes the
    source throw; the model reads it as an empty row.) *)
Definition checkRows (board : Board) (num : Z) (conflicts : gset string)
  : gset string :=
  foldl (λ conflicts r,
     let indices := indicesWhere (holdsNum num) (default [] (board !! r)) in
     addIfSeveral (λ c, key (Z.of_nat r) c) indices conflicts)
    conflicts (seq 0 9).

Definition checkColumns (board : Board) (num : Z) (conflicts : gset string)
  : gset string :=
  foldl (λ conflicts c,
     let indices :=
       indicesWhere (λ row : list cell, bool_decide (row !! c = Some (Some num))) board in
     addIfSeveral (λ r, key r (Z.of_nat c)) indices conflicts)
    conflicts (seq 0 9).

(** The cells pushed by the two offset loops of box [(br, bc)]. *)
Definition boxIndices (board : Board) (num : Z) (br bc : nat) : list (nat * nat) :=
  r_off ← seq 0 3;
  c_off ← seq 0 3;
  let r := br * 3 + r_off in
  let c := bc * 3 + c_off in
  if bool_decide (cellAt board r c = Some (Some num)) then [(r, c)] else [].

Definition checkBoxes (board : Board) (num : Z) (conflicts : gset string)
  : gset string :=
  foldl (λ conflicts br,
     foldl (λ conflicts bc,
        addIfSeveral (λ '(r, c), key (Z.of_nat r) (Z.of_nat c))
          (boxIndices board num br bc) conflicts)
       conflicts (seq 0 3))
    conflicts (seq 0 3).

Definition findAllConflicts (board : Board) : gset string :=
  foldl (λ conflicts num,
     checkBoxes board num (checkColumns board num (checkRows board num conflicts)))
    ∅ oneToNine.

(** ** Rows on a heap: who sees the carving *)

(** For the question of whether [createPuzzle] writes into its argument,
    the row arrays live on a heap and a board is the list of the addresses
    of its rows, so that two boards can share rows. (No function of the
    engine writes to an outer array, which is therefore kept as a value.) *)
Abbreviation Heap := (gmap nat (list cell)).

Definition readBoard (h : Heap) (b : list nat) : option Board :=
  mapM (λ l, h !! l) b.

Definition cellAtH (h : Heap) (b : list nat) (r c : nat) : option cell :=
  l ← b !! r; row ← h !! l; row !! c.

Definition setCellH (h : Heap) (b : list nat) (r c : nat) (v : cell) : Heap :=
  match b !! r with
  | Some l => alter (<[c := v]>) l h
  | None => h
  end.

(** A new array gets an address that is not in use. *)
Fixpoint allocRows (h : Heap) (rows : Board) : list nat * Heap :=
  match rows with
  | [] => ([], h)
  | row :: rest =>
      let l := fresh (dom h) in
      let '(ls, h') := allocRows (<[l := row]> h) rest in
      (l :: ls, h')
  end.

(** [JSON.parse(JSON.stringify(board))]: serialise what the heap holds,
    then build new arrays from it. *)
Definition jsonCopyH (h : Heap) (b : list nat) : option (list nat * Heap) :=
  rows ← readBoard h b;
  Some (allocRows h (jsonCopy rows)).

Fixpoint carveH (draw : nat → nat) (fuel : nat) (h : Heap) (puzzle : list nat)
    (attempts k : nat) : option (Heap * nat) :=
  match attempts with
  | 0 => Some (h, k)
  | S attempts' =>
      match fuel with
      | 0 => None
      | S fuel' =>
          let row := randomBelow draw k 9 in
          let col := randomBelow draw (S k) 9 in
          if bool_decide (cellAtH h puzzle row col ≠ Some None)
          then carveH draw fuel' (setCellH h puzzle row col None) puzzle attempts' (S (S k))
          else carveH draw fuel' h puzzle attempts (S (S k))
      end
  end.

Definition createPuzzleH (draw : nat → nat) (fuel : nat) (h : Heap)
    (solvedBoard : list nat) (difficulty : Difficulty) (k : nat)
  : option (list nat * Heap * nat) :=
  '(puzzle, h1) ← jsonCopyH h solvedBoard;
  let removals := removalsOf difficulty in
  '(h2, k') ← carveH draw fuel h1 puzzle removals k;
  Some (puzzle, h2, k').

(** ** isCellRelated *)

(** The interface [CellPosition] of the module [../types]
    ([src/components/DifficultySelector.tsx], lines 138-141). *)
Module CellPosition.
Record t := mk { row : nat; col : nat }.
End CellPosition.

Global Instance CellPosition_eq_dec : EqDecision CellPosition.t.
Proof. solve_decision. Defined.

(** The arguments are positions or [null]; [Math.floor(x / 3)] on an index
    is the quotient. *)
Definition isCellRelated (cellA cellB : option CellPosition.t) : bool :=
  match cellA, cellB with
  | Some cellA, Some cellB =>
      let sameRow := CellPosition.row cellA =? CellPosition.row cellB in
      let sameCol := CellPosition.col cellA =? CellPosition.col cellB in
      let sameBox :=
        (CellPosition.row cellA / 3 =? CellPosition.row cellB / 3) &&
        (CellPosition.col cellA / 3 =? CellPosition.col cellB / 3) in
      (sameRow || sameCol || sameBox) && negb (sameRow && sameCol)
  | _, _ => false
  end.

(** ** formatBoardForPrompt *)

Definition newline : string := String "010"%char EmptyString.

(** [xs.join(sep)] on strings. *)
Definition join (sep : string) (xs : list string) : string := String.concat sep xs.

(** What [join] makes of a cell: ['_'] for [null], the decimal digits of a
    number. *)
Definition cellText (c : cell) : string :=
  match c with
  | None => "_"
  | Some v => pretty v
  end.

Definition formatBoardForPrompt (board : Board) : string :=
  join newline ((λ row : list cell, join " " (cellText <$> row)) <$> board).

(** ** The game board component ([src/unnamed/part_000]) *)

Definition createEmptyBoard : Board := replicate 9 (replicate 9 None).

(** *** calculateCompletedUnits *)

(** The three sets of indices it returns. *)
Module Completed.
Record t := mk { rows : gset nat; cols : gset nat; boxes : gset nat }.
End Completed.

(** A [Set] of what an array access can give: [None] is [undefined],
    [Some None] is [null]. [set.size === 9 && !set.has(null)] *)
Definition nineAndNoNull (s : gset (option cell)) : bool :=
  bool_decide (size s = 9) && negb (bool_decide (Some None ∈ s)).

(** [new Set(board[i])]; an [undefined] argument gives the empty set. *)
Definition rowSet (board : Board) (i : nat) : gset (option cell) :=
  list_to_set (Some <$> default [] (board !! i)).

(** [new Set(board.map(r => r[i]))] *)
Definition colSet (board : Board) (i : nat) : gset (option cell) :=
  list_to_set ((λ r : list cell, r !! i) <$> board).

(** The set the two offset loops of a box fill with [box.add(...)]. *)
Definition boxSet (board : Board) (boxRow boxCol : nat) : gset (option cell) :=
  foldl (λ box r,
     foldl (λ box c, {[cellAt board (boxRow * 3 + r) (boxCol * 3 + c)]} ∪ box)
       box (seq 0 3))
    ∅ (seq 0 3).

Definition calculateCompletedUnits (board : Board) : Completed.t :=
  let rows :=
    foldl (λ acc i, if nineAndNoNull (rowSet board i) then {[i]} ∪ acc else acc)
      ∅ (seq 0 9) in
  let cols :=
    foldl (λ acc i, if nineAndNoNull (colSet board i) then {[i]} ∪ acc else acc)
      ∅ (seq 0 9) in
  let boxes :=
    foldl (λ acc boxRow,
       foldl (λ acc boxCol,
          let boxIndex := boxRow * 3 + boxCol in
          if nineAndNoNull (boxSet board boxRow boxCol)
          then {[boxIndex]} ∪ acc else acc)
         acc (seq 0 3))
      ∅ (seq 0 3) in
  Completed.mk rows cols boxes.

(** *** numberCounts *)

(** The counter object: a count is a number, and [None] stands for the
    [NaN] that [counts[k]++] stores under a key that was not there. *)
Definition increment (counts : gmap Z (option nat)) (k : Z) : gmap Z (option nat) :=
  <[k := match counts !! k with
         | Some (Some n) => Some (S n)
         | _ => None
         end]> counts.

Definition zeroCounts : gmap Z (option nat) :=
  list_to_map ((λ k : Z, (k, Some 0)) <$> [1; 2; 3; 4; 5; 6; 7; 8; 9]%Z).

(** [if (cell) counts[cell]++]: [null] and [0] are falsy. *)
Definition numberCounts (board : Board) : gmap Z (option nat) :=
  foldl (λ counts (row : list cell),
     foldl (λ counts (c : cell),
        match c with
        | Some v => if bool_decide (v ≠ 0%Z) then increment counts v else counts
        | None => counts
        end) counts row)
    zeroCounts board.

(** *** formatTime *)

(** [s.padStart(n, fill)] for a one-character [fill]. *)
Definition padStart (n : nat) (fill : ascii) (s : string) : string :=
  String.concat "" (replicate (n - String.length s) (String fill "")) +:+ s.

(** The elapsed time is a count of seconds. *)
Definition formatTime (seconds : nat) : string :=
  let mins := seconds / 60 in
  let secs := padStart 2 "0"%char (pretty (seconds mod 60)) in
  pretty mins +:+ ":" +:+ secs.

(** *** The state of the component and its handlers *)

(** The state variables of [GameBoard] that the handlers below read or
    write and that decide what is on the board: the three boards, the
    notes, the selection, the mistakes, the conflicts, the undo history and
    its index, the notes mode and the completed units. A handler is a
    function from the state of the render it was created in to the state
    after its [set...] calls. The state variables that only drive the
    display or the clock (hint, messages, highlighted number, timer, pause,
    celebrations, dialogs) influence none of these and are left out. *)
Module Game.

Abbreviation NotesBoard := (list (list (gset Z))).

(** An entry of the history: [{ board, notes }]. *)
Module Entry.
Record t := mk { board : Board; notes : NotesBoard }.
End Entry.

Record State := mk {
  initialBoard : Board;
  solutionBoard : Board;
  board : Board;
  notes : NotesBoard;
  selectedCell : option CellPosition.t;
  mistakes : list CellPosition.t;
  conflicts : gset string;
  history : list Entry.t;
  historyIndex : Z;
  isNotesMode : bool;
  completedUnits : Completed.t
}.

(** [notes.map(r => r.map(noteSet => new Set(noteSet)))] *)
Definition copyNotes (notes : NotesBoard) : NotesBoard :=
  (λ r : list (gset Z), (λ noteSet : gset Z, noteSet) <$> r) <$> notes.

(** [xs.slice(0, e)]: a negative end counts from the end of the array. *)
Definition sliceTo {A} (xs : list A) (e : Z) : list A :=
  if bool_decide (0 ≤ e)%Z then take (Z.to_nat e) xs
  else take (Z.to_nat (Z.of_nat (length xs) + e)) xs.

(** The history and the index that [updateHistory] sets. *)
Definition updateHistory (s : State) (newBoard : Board) (newNotes : NotesBoard)
  : list Entry.t * Z :=
  let newHistory :=
    sliceTo (history s) (historyIndex s + 1) ++ [Entry.mk newBoard newNotes] in
  (newHistory, (Z.of_nat (length newHistory) - 1)%Z).

Definition handleCellClick (row col : nat) (s : State) : State :=
  mk (initialBoard s) (solutionBoard s) (board s) (notes s)
     (Some (CellPosition.mk row col)) (mistakes s) (conflicts s)
     (history s) (historyIndex s) (isNotesMode s) (completedUnits s).

(** [setIsNotesMode(!isNotesMode)] *)
Definition toggleNotesMode (s : State) : State :=
  mk (initialBoard s) (solutionBoard s) (board s) (notes s)
     (selectedCell s) (mistakes s) (conflicts s)
     (history s) (historyIndex s) (negb (isNotesMode s)) (completedUnits s).

(** [has(num) ? delete(num) : add(num)] on a set of notes. *)
Definition toggleNote (num : Z) (noteSet : gset Z) : gset Z :=
  if bool_decide (num ∈ noteSet) then noteSet ∖ {[num]} else {[num]} ∪ noteSet.

Definition handleNumpadClick (num : Z) (s : State) : State :=
  match selectedCell s with
  | None => s
  | Some sel =>
      let row := CellPosition.row sel in
      let col := CellPosition.col sel in
      if bool_decide (cellAt (initialBoard s) row col ≠ Some None) then s
      else
        let newBoard := jsonCopy (board s) in
        let newNotes := copyNotes (notes s) in
        let '(newBoard, newNotes) :=
          if isNotesMode s then
            (setCell newBoard row col None,
             alter (alter (toggleNote num) col) row newNotes)
          else
            (setCell newBoard row col
               (if bool_decide (cellAt newBoard row col = Some (Some num))
                then None else Some num),
             alter (<[col := ∅]>) row newNotes) in
        let newCompleted := calculateCompletedUnits newBoard in
        let '(newHistory, newIndex) := updateHistory s newBoard newNotes in
        mk (initialBoard s) (solutionBoard s) newBoard newNotes
           (selectedCell s) [] (findAllConflicts newBoard)
           newHistory newIndex (isNotesMode s) newCompleted
  end.

Definition handleErase (s : State) : State :=
  match selectedCell s with
  | None => s
  | Some sel =>
      let row := CellPosition.row sel in
      let col := CellPosition.col sel in
      if bool_decide (cellAt (initialBoard s) row col ≠ Some None) then s
      else
        let newBoard := setCell (jsonCopy (board s)) row col None in
        let newNotes := alter (<[col := ∅]>) row (copyNotes (notes s)) in
        let '(newHistory, newIndex) := updateHistory s newBoard newNotes in
        mk (initialBoard s) (solutionBoard s) newBoard newNotes
           (selectedCell s) [] (findAllConflicts newBoard)
           newHistory newIndex (isNotesMode s) (calculateCompletedUnits newBoard)
  end.

(** [history[i]] for a number [i]. *)
Definition entryAt (history : list Entry.t) (i : Z) : option Entry.t :=
  if bool_decide (0 ≤ i)%Z then history !! Z.to_nat i else None.

(** Shared by undo and redo: show the entry at [newIndex]. (Reading a
    field of a missing entry makes the source throw; the model leaves the
    state alone.) *)
Definition showEntry (newIndex : Z) (s : State) : State :=
  match entryAt (history s) newIndex with
  | Some e =>
      mk (initialBoard s) (solutionBoard s) (Entry.board e) (Entry.notes e)
         (selectedCell s) [] (findAllConflicts (Entry.board e))
         (history s) newIndex (isNotesMode s)
         (calculateCompletedUnits (Entry.board e))
  | None => s
  end.

Definition handleUndo (s : State) : State :=
  if bool_decide (historyIndex s > 0)%Z
  then showEntry (historyIndex s - 1) s
  else s.

Definition handleRedo (s : State) : State :=
  if bool_decide (historyIndex s < Z.of_nat (length (history s)) - 1)%Z
  then showEntry (historyIndex s + 1) s
  else s.

(** The cells [handleMistakeCheck] collects, in the order of its two
    [forEach] loops. *)
Definition wrongCells (s : State) : list CellPosition.t :=
  concat (imap (λ r (row : list cell),
    concat (imap (λ c (x : cell),
      if bool_decide (x ≠ None) &&
         bool_decide (cellAt (initialBoard s) r c = Some None) &&
         bool_decide (Some x ≠ cellAt (solutionBoard s) r c)
      then [CellPosition.mk r c] else []) row)) (board s)).

Definition handleMistakeCheck (s : State) : State :=
  mk (initialBoard s) (solutionBoard s) (board s) (notes s)
     (selectedCell s) (wrongCells s) (conflicts s)
     (history s) (historyIndex s) (isNotesMode s) (completedUnits s).

Definition handleClearMistakes (s : State) : State :=
  let newBoard :=
    foldl (λ newBoard (m : CellPosition.t),
       if bool_decide (cellAt (initialBoard s) (CellPosition.row m) (CellPosition.col m)
                       = Some None)
       then setCell newBoard (CellPosition.row m) (CellPosition.col m) None
       else newBoard)
      (jsonCopy (board s)) (mistakes s) in
  let '(newHistory, newIndex) := updateHistory s newBoard (notes s) in
  mk (initialBoard s) (solutionBoard s) newBoard (notes s)
     (selectedCell s) [] (findAllConflicts newBoard)
     newHistory newIndex (isNotesMode s) (calculateCompletedUnits newBoard).

(** [initializeGame]: the state it sets, and the random state after its
    last draw (the tip of the day). *)
Definition initializeGame (draw : nat → nat) (fuel : nat) (difficulty : Difficulty)
    (k : nat) : option (State * nat) :=
  '(puzzle, solution, k') ← generateSudoku draw fuel difficulty k;
  let initialNotes : NotesBoard := replicate 9 (replicate 9 ∅) in
  Some (mk (jsonCopy puzzle) solution puzzle initialNotes None [] ∅
           [Entry.mk puzzle initialNotes] 0 false (Completed.mk ∅ ∅ ∅),
        S k').

End Game.

(** * Part II: the vocabulary of the specification *)

(** ** Units and peers, as the specification words them *)

Definition sameBox (r c r' c' : nat) : Prop :=
  r / 3 = r' / 3 ∧ c / 3 = c' / 3.

(** [(r', c')] lies in the row, the column or the box of [(r, c)]. *)
Definition sameUnit (r c r' c' : nat) : Prop :=
  r = r' ∨ c = c' ∨ sameBox r c r' c'.

(** [v] occurs in a unit of [(row, col)], the cell itself included. *)
Definition occursInUnits (b : Board) (row col : nat) (v : Z) : Prop :=
  ∃ r c, r < 9 ∧ c < 9 ∧ sameUnit row col r c ∧ cellAt b r c = Some (Some v).

(** [v] occurs in a unit of [(row, col)] at a cell other than [(row, col)]. *)
Definition occursElsewhere (b : Board) (row col : nat) (v : Z) : Prop :=
  ∃ r c, r < 9 ∧ c < 9 ∧ (r, c) ≠ (row, col) ∧ sameUnit row col r c ∧
         cellAt b r c = Some (Some v).

(** ** Validity, as the specification words it *)

(** Every cell of the 9x9 range holds a number. *)
Definition full (b : Board) : Prop :=
  ∀ r c, r < 9 → c < 9 → ∃ v, cellAt b r c = Some (Some v).

(** No number occurs twice in a row, a column or a box. *)
Definition consistent (b : Board) : Prop :=
  ∀ r c v, r < 9 → c < 9 → cellAt b r c = Some (Some v) → ¬ occursElsewhere b r c v.

(** [sol] keeps every number of [b]. *)
Definition extends (b sol : Board) : Prop :=
  ∀ r c v, cellAt b r c = Some (Some v) → cellAt sol r c = Some (Some v).

(** A partial grid the generator may start from. *)
Definition goodBoard (b : Board) : Prop :=
  wfBoard b ∧ consistent b ∧ valuesInRange b.

(** A complete valid grid. *)
Definition validSolution (b : Board) : Prop :=
  goodBoard b ∧ full b.

(** The cell [(r, c)] holds a number that another cell of its row, its
    column or its box holds too. *)
Definition inConflict (b : Board) (r c : nat) : Prop :=
  ∃ v, cellAt b r c = Some (Some v) ∧ occursElsewhere b r c v.

(** The 81 positions, and the 27 units as lists of positions. *)
Definition allCells : list (nat * nat) :=
  r ← seq 0 9; c ← seq 0 9; [(r, c)].

Definition rowOf (r : nat) : list (nat * nat) := (λ c, (r, c)) <$> seq 0 9.
Definition colOf (c : nat) : list (nat * nat) := (λ r, (r, c)) <$> seq 0 9.
Definition boxOf (br bc : nat) : list (nat * nat) :=
  i ← seq 0 3; j ← seq 0 3; [(br * 3 + i, bc * 3 + j)].

Definition units : list (list (nat * nat)) :=
  (rowOf <$> seq 0 9) ++ (colOf <$> seq 0 9) ++
  (br ← seq 0 3; bc ← seq 0 3; [boxOf br bc]).

(** How many cells of the list [u] hold the number [v]. *)
Definition occurrences (b : Board) (v : Z) (u : list (nat * nat)) : nat :=
  length (filter (λ p, cellAt b p.1 p.2 = Some (Some v)) u).

(** Every unit holds each of 1..9 exactly once. *)
Definition eachOnce (b : Board) : Prop :=
  ∀ u v, u ∈ units → (1 ≤ v ≤ 9)%Z → occurrences b v u = 1.

(** The number of non-empty cells. *)
Definition filledAt (b : Board) (r c : nat) : bool :=
  match cellAt b r c with
  | Some (Some _) => true
  | _ => false
  end.

Definition countFilled (b : Board) : nat :=
  length (filter (λ p, filledAt b p.1 p.2) allCells).

(** Being in conflict, in terms of units: some unit that contains [(r, c)]
    holds the number of [(r, c)] two or more times. *)
Definition dupInUnit (b : Board) (r c : nat) : Prop :=
  ∃ v u, cellAt b r c = Some (Some v) ∧ u ∈ units ∧ (r, c) ∈ u ∧
         2 ≤ occurrences b v u.

(** What makes a list of positions a unit: nine distinct in-range
    positions that pairwise share a row, a column or a box. *)
Definition unitOk (u : list (nat * nat)) : Prop :=
  NoDup u ∧ length u = 9 ∧
  Forall (λ p, p.1 < 9 ∧ p.2 < 9) u ∧
  Forall (λ p, Forall (λ q, sameUnit p.1 p.2 q.1 q.2) u) u.

Global Instance sameUnit_dec r c r' c' : Decision (sameUnit r c r' c').
Proof. unfold sameUnit, sameBox. apply _. Defined.

Global Instance unitOk_dec u : Decision (unitOk u).
Proof. unfold unitOk. apply _. Defined.

(** The key under which [findAllConflicts] files the cell [(r, c)]. *)
Definition keyOf (r c : nat) : string := key (Z.of_nat r) (Z.of_nat c).

(** The round trip of the specification: every empty cell of the puzzle
    takes the number the solution holds there. *)
Definition fillFrom (puzzle solution : Board) : Board :=
  zip_with (zip_with (λ x y : cell, match x with None => y | Some _ => x end))
    puzzle solution.

(** The carving loop ends only if the random source keeps producing
    cells that are still filled. A source is fair from state [k] when,
    read two draws at a time from [k] on, it names every cell again
    and again. *)
Definition fairFrom (draw : nat → nat) (k : nat) : Prop :=
  ∀ n r c, r < 9 → c < 9 →
    ∃ m, n ≤ m ∧ randomBelow draw (k + 2 * m) 9 = r ∧
         randomBelow draw (S (k + 2 * m)) 9 = c.

Definition fair (draw : nat → nat) : Prop := ∀ k, fairFrom draw k.

(** Checks that decide [goodBoard] on a concrete board. *)
Definition cellsInRange (b : Board) : bool :=
  forallb (forallb (λ x : cell,
    match x with
    | Some v => (1 <=? v)%Z && (v <=? 9)%Z
    | None => true
    end)) b.

Definition noConflict (b : Board) : bool :=
  negb (anyIn 0 9 (λ r, anyIn 0 9 (λ c, isCellInConflict b r c))).

(** ** Vocabulary for the game component *)

(** What the cells of a list of positions hold. *)
Definition cellsOf (b : Board) (u : list (nat * nat)) : list (option cell) :=
  (λ p, cellAt b p.1 p.2) <$> u.

(** Every cell of [u] holds a number, and no two cells of [u] hold the
    same one. *)
Definition unitComplete (b : Board) (u : list (nat * nat)) : Prop :=
  ∀ p, p ∈ u →
    ∃ v, cellAt b p.1 p.2 = Some (Some v) ∧
         ∀ q, q ∈ u → q ≠ p → cellAt b q.1 q.2 ≠ Some (Some v).

(** [b] shows every clue of [init]. *)
Definition keepsClues (init b : Board) : Prop :=
  ∀ r c v, cellAt init r c = Some (Some v) → cellAt b r c = Some (Some v).

(** What every state of a running game satisfies: the history index
    points at an entry, that entry is what is on screen, every board of the
    history shows the clues, and the conflicts are those of the board. *)
Definition gameInv (s : Game.State) : Prop :=
  (0 ≤ Game.historyIndex s < Z.of_nat (length (Game.history s)))%Z ∧
  Game.entryAt (Game.history s) (Game.historyIndex s) =
    Some (Game.Entry.mk (Game.board s) (Game.notes s)) ∧
  (∀ e, e ∈ Game.history s → keepsClues (Game.initialBoard s) (Game.Entry.board e)) ∧
  Game.conflicts s = findAllConflicts (Game.board s).

(** The notes are a 9x9 array. *)
Definition wfNotes (notes : Game.NotesBoard) : Prop :=
  length notes = 9 ∧ Forall (λ r, length r = 9) notes.

(** A position of the 9x9 grid. *)
Definition onGridCell (m : CellPosition.t) : Prop :=
  CellPosition.row m < 9 ∧ CellPosition.col m < 9.

(** The shape of the state: the boards and the notes, on screen and in the
    history, are 9x9,
    the numbers on them are within 1..9, and the selected cell and the
    listed mistakes are positions of the grid. *)
Definition wfGame (s : Game.State) : Prop :=
  wfBoard (Game.initialBoard s) ∧
  wfBoard (Game.solutionBoard s) ∧
  wfBoard (Game.board s) ∧ valuesInRange (Game.board s) ∧
  wfNotes (Game.notes s) ∧
  (∀ e, e ∈ Game.history s →
     wfBoard (Game.Entry.board e) ∧ valuesInRange (Game.Entry.board e) ∧
     wfNotes (Game.Entry.notes e)) ∧
  (∀ m, m ∈ Game.mistakes s → onGridCell m) ∧
  (∀ sel, Game.selectedCell s = Some sel → onGridCell sel).

(** What the player can do: the buttons and cells wired to the handlers. *)
Inductive Event :=
  | CellClick (row col : nat)
  | NumpadClick (num : Z)
  | Erase
  | Undo
  | Redo
  | NotesModeClick
  | MistakeCheck
  | ClearMistakes.

Definition handle (e : Event) (s : Game.State) : Game.State :=
  match e with
  | CellClick row col => Game.handleCellClick row col s
  | NumpadClick num => Game.handleNumpadClick num s
  | Erase => Game.handleErase s
  | Undo => Game.handleUndo s
  | Redo => Game.handleRedo s
  | NotesModeClick => Game.toggleNotesMode s
  | MistakeCheck => Game.handleMistakeCheck s
  | ClearMistakes => Game.handleClearMistakes s
  end.

(** The state after a sequence of events. *)
Definition play (events : list Event) (s : Game.State) : Game.State :=
  foldl (λ s e, handle e s) s events.

(** The events on which the source calls [updateHistory]: a number click or
    an erase while a cell that is not a clue is selected (the two handlers
    return before it otherwise), and clear-mistakes. *)
Definition recordsEntry (e : Event) (s : Game.State) : Prop :=
  match e with
  | NumpadClick _ | Erase =>
      ∃ sel, Game.selectedCell s = Some sel ∧
             cellAt (Game.initialBoard s) (CellPosition.row sel) (CellPosition.col sel)
             = Some None
  | ClearMistakes => True
  | _ => False
  end.

(** The array elements the handlers read or write in a state, each of
    which must exist: the clicked cell of the board ([handleCellClick]);
    the history entry before the current one when undo passes its test, and
    the one after it when redo passes its test; the selected cell in the
    initial board, the board and the notes ([handleNumpadClick],
    [handleErase]); every listed mistake in the initial board and the board
    ([handleClearMistakes]); and, for every cell of the board, the same
    cell of the initial board and of the solution
    ([handleMistakeCheck]). *)
Definition indexesInRange (s : Game.State) : Prop :=
  (∀ row col, row < 9 → col < 9 → is_Some (cellAt (Game.board s) row col)) ∧
  ((Game.historyIndex s > 0)%Z →
   is_Some (Game.entryAt (Game.history s) (Game.historyIndex s - 1))) ∧
  ((Game.historyIndex s < Z.of_nat (length (Game.history s)) - 1)%Z →
   is_Some (Game.entryAt (Game.history s) (Game.historyIndex s + 1))) ∧
  (∀ sel, Game.selectedCell s = Some sel →
     is_Some (cellAt (Game.initialBoard s) (CellPosition.row sel) (CellPosition.col sel)) ∧
     is_Some (cellAt (Game.board s) (CellPosition.row sel) (CellPosition.col sel)) ∧
     is_Some (Game.notes s !! CellPosition.row sel ≫= (.!! CellPosition.col sel))) ∧
  (∀ m, m ∈ Game.mistakes s →
     is_Some (cellAt (Game.initialBoard s) (CellPosition.row m) (CellPosition.col m)) ∧
     is_Some (cellAt (Game.board s) (CellPosition.row m) (CellPosition.col m))) ∧
  (∀ r c, is_Some (cellAt (Game.board s) r c) →
     is_Some (cellAt (Game.initialBoard s) r c) ∧
     is_Some (cellAt (Game.solutionBoard s) r c)).

(** The events the rendered component can raise: a click on one of the 81
    cells, on one of the nine number buttons, or on a control. *)
Definition onGrid (e : Event) : Prop :=
  match e with
  | CellClick row col => row < 9 ∧ col < 9
  | NumpadClick num => (1 ≤ num ≤ 9)%Z
  | _ => True
  end.

(** The character of a decimal digit. *)
Definition digit (d : nat) : ascii := ascii_of_nat (48 + d).

(** The character that stands for a cell in the text of a board: an
    underscore for an empty cell, the digit of its number otherwise. *)
Definition cellChar (c : cell) : ascii :=
  match c with
  | None => "_"%char
  | Some v => digit (Z.to_nat v)
  end.

(** * Part III: boards and random sources to run the code on *)

(** A board that is empty but for a 5 in its top left corner. *)
Definition emptyRow : list cell := replicate 9 None.
Definition emptyBoard : Board := replicate 9 emptyRow.
Definition cornerBoard : Board := setCell emptyBoard 0 0 (Some 5%Z).

(** A board with two 5s in its first row, at columns 0 and 3. *)
Definition pairBoard : Board := setCell cornerBoard 0 3 (Some 5%Z).

(** A solved grid, used to instantiate the theorems. *)
Definition solvedExample : Board :=
  (λ row : list Z, (λ v : Z, Some v) <$> row) <$>
  (
  [ [2; 3; 4; 5; 6; 7; 8; 9; 1];
    [5; 6; 7; 8; 9; 1; 2; 3; 4];
    [8; 9; 1; 2; 3; 4; 5; 6; 7];
    [3; 2; 5; 4; 7; 6; 9; 1; 8];
    [4; 7; 6; 9; 1; 8; 3; 2; 5];
    [9; 1; 8; 3; 2; 5; 4; 7; 6];
    [6; 4; 2; 7; 5; 3; 1; 8; 9];
    [7; 5; 3; 1; 8; 9; 6; 4; 2];
    [1; 8; 9; 6; 4; 2; 7; 5; 3] ]%Z : list (list Z)).

(** A board that breaks the unit invariant and has one empty cell: the
    solved example with its first cell cleared and a second 3 written into
    its last row. *)
Definition clashBoard : Board :=
  setCell (setCell solvedExample 0 0 None) 8 7 (Some 3%Z).

(** A board without duplicates that cannot be completed: the last cell of
    the first row sees all nine numbers. *)
Definition stuckBoard : Board :=
  setCell
    (<[0 := ((λ v : Z, Some v) <$> [1; 2; 3; 4; 5; 6; 7; 8]%Z) ++ [None]]> emptyBoard)
    1 8 (Some 9%Z).

(** A fair source: blocks of three draws [row; col; 0] that enumerate the
    cells, every cell at even and at odd positions. *)
Definition fairDraw (j : nat) : nat :=
  let e := j / 3 / 2 in
  match j mod 3 with
  | 0 => e / 9
  | 1 => e
  | _ => 0
  end.

(** A heap that holds the solved example, and the addresses of its rows. *)
Definition exampleHeap : list nat * Heap := allocRows ∅ solvedExample.

(** A game in progress: the solved example with its first cell cleared
    as the puzzle, nothing entered yet, the empty cell selected. *)
Definition examplePuzzle : Board := setCell solvedExample 0 0 None.

Definition exampleNotes : Game.NotesBoard := replicate 9 (replicate 9 ∅).

Definition exampleGame : Game.State :=
  Game.mk examplePuzzle solvedExample examplePuzzle exampleNotes
    (Some (CellPosition.mk 0 0)) [] (findAllConflicts examplePuzzle)
    [Game.Entry.mk examplePuzzle exampleNotes] 0 false
    (calculateCompletedUnits examplePuzzle).

(** * Part IV: proofs *)

(** ** Basic facts *)

Lemma anyIn_true lo n p :
  anyIn lo n p = true ↔ ∃ x, lo ≤ x < lo + n ∧ p x = true.
Proof.
  unfold anyIn. rewrite existsb_exists.
  split; intros (x & Hx & Hp); exists x; split; auto; apply in_seq; auto.
Qed.

Lemma anyIn_false lo n p :
  anyIn lo n p = false ↔ ∀ x, lo ≤ x < lo + n → p x = false.
Proof.
  rewrite <- not_true_iff_false, anyIn_true. split.
  - intros H x Hx. apply not_true_iff_false. intros Hp. apply H. eauto.
  - intros H (x & Hx & Hp). rewrite (H x Hx) in Hp. discriminate.
Qed.

Lemma wfBoard_cellAt b r c :
  wfBoard b → r < 9 → c < 9 → ∃ x, cellAt b r c = Some x.
Proof.
  intros [Hlen Hrows] Hr Hc. unfold cellAt.
  destruct (lookup_lt_is_Some_2 b r) as [row Hrow]; [lia|].
  rewrite Hrow. simpl.
  rewrite Forall_forall in Hrows.
  assert (length row = 9) as Hl by (apply Hrows; eapply list_elem_of_lookup_2; eauto).
  destruct (lookup_lt_is_Some_2 row c) as [x Hx]; [lia|]. eauto.
Qed.

Lemma box_start_sub n : n - n mod 3 = n / 3 * 3.
Proof. pose proof (Nat.div_mod_eq n 3). lia. Qed.

Lemma sameBox_range r c r' c' :
  sameBox r c r' c' ↔
  (r / 3 * 3 ≤ r' < r / 3 * 3 + 3) ∧ (c / 3 * 3 ≤ c' < c / 3 * 3 + 3).
Proof.
  unfold sameBox.
  pose proof (Nat.div_mod_eq r' 3). pose proof (Nat.mod_upper_bound r' 3).
  pose proof (Nat.div_mod_eq c' 3). pose proof (Nat.mod_upper_bound c' 3).
  lia.
Qed.

(** ** What the three scans of [isValidPlacement] see *)

Lemma isValidPlacement_false b row col v :
  row < 9 → col < 9 →
  isValidPlacement b row col v = false ↔ occursInUnits b row col v.
Proof.
  intros Hrow Hcol. unfold isValidPlacement, occursInUnits.
  rewrite !box_start_sub. split.
  - destruct (anyIn 0 9 _) eqn:Er.
    { intros _. apply anyIn_true in Er as (x & Hx & Hp).
      apply bool_decide_eq_true in Hp.
      exists row, x. unfold sameUnit. repeat split; auto; lia. }
    destruct (anyIn 0 9 (λ x, bool_decide (cellAt b x col = _))) eqn:Ec.
    { intros _. apply anyIn_true in Ec as (x & Hx & Hp).
      apply bool_decide_eq_true in Hp.
      exists x, col. unfold sameUnit. repeat split; auto; lia. }
    destruct (anyIn 0 3 _) eqn:Eb; [|discriminate].
    intros _. apply anyIn_true in Eb as (i & Hi & Hp).
    apply anyIn_true in Hp as (j & Hj & Hp).
    apply bool_decide_eq_true in Hp.
    exists (i + row / 3 * 3), (j + col / 3 * 3).
    assert (sameBox row col (i + row / 3 * 3) (j + col / 3 * 3))
      by (apply sameBox_range; lia).
    pose proof (Nat.div_mod_eq row 3). pose proof (Nat.div_mod_eq col 3).
    unfold sameUnit. repeat split; auto; lia.
  - intros (r & c & Hr & Hc & Hu & Hv).
    destruct (anyIn 0 9 _) eqn:Er; [done|].
    destruct (anyIn 0 9 (λ x, bool_decide (cellAt b x col = _))) eqn:Ec; [done|].
    destruct (anyIn 0 3 _) eqn:Eb; [done|]. exfalso.
    destruct Hu as [->|[->|Hbox]].
    + rewrite anyIn_false in Er. specialize (Er c).
      rewrite bool_decide_eq_false in Er. apply Er; [lia|done].
    + rewrite anyIn_false in Ec. specialize (Ec r).
      rewrite bool_decide_eq_false in Ec. apply Ec; [lia|done].
    + apply sameBox_range in Hbox.
      rewrite anyIn_false in Eb. specialize (Eb (r - row / 3 * 3)).
      rewrite anyIn_false in Eb. specialize (Eb ltac:(lia) (c - col / 3 * 3)).
      rewrite bool_decide_eq_false in Eb. apply Eb; [lia|].
      replace (r - row / 3 * 3 + row / 3 * 3) with r by lia.
      replace (c - col / 3 * 3 + col / 3 * 3) with c by lia. done.
Qed.

(** ** What the three scans of [isCellInConflict] see *)

Lemma isCellInConflict_true b row col :
  wfBoard b → row < 9 → col < 9 →
  isCellInConflict b row col = true ↔
  ∃ v, cellAt b row col = Some (Some v) ∧ occursElsewhere b row col v.
Proof.
  intros Hwf Hrow Hcol.
  destruct (wfBoard_cellAt b row col Hwf Hrow Hcol) as [x Hx].
  unfold isCellInConflict, occursElsewhere. cbv zeta. rewrite Hx.
  destruct x as [v|].
  2:{ rewrite bool_decide_eq_true_2 by done.
      split; [discriminate|]. intros (v & Hv & _). discriminate. }
  rewrite bool_decide_eq_false_2 by discriminate. split.
  - intros H. exists v. split; [done|]. revert H.
    destruct (anyIn 0 9 _) eqn:Er.
    { intros _. apply anyIn_true in Er as (c & Hc & Hp).
      apply andb_true_iff in Hp as [Hne Hp].
      apply negb_true_iff, Nat.eqb_neq in Hne. apply bool_decide_eq_true in Hp.
      exists row, c. unfold sameUnit. repeat split; auto; try lia. congruence. }
    destruct (anyIn 0 9 (λ r, negb (r =? row) && _)) eqn:Ec.
    { intros _. apply anyIn_true in Ec as (r & Hr & Hp).
      apply andb_true_iff in Hp as [Hne Hp].
      apply negb_true_iff, Nat.eqb_neq in Hne. apply bool_decide_eq_true in Hp.
      exists r, col. unfold sameUnit. repeat split; auto; try lia. congruence. }
    destruct (anyIn _ 3 _) eqn:Eb; [|discriminate].
    intros _. apply anyIn_true in Eb as (r & Hr & Hp).
    apply anyIn_true in Hp as (c & Hc & Hp).
    apply andb_true_iff in Hp as [Hne Hp]. apply andb_true_iff in Hne as [Hne1 Hne2].
    apply negb_true_iff, Nat.eqb_neq in Hne1. apply bool_decide_eq_true in Hp.
    exists r, c.
    assert (sameBox row col r c) by (apply sameBox_range; lia).
    pose proof (Nat.div_mod_eq row 3). pose proof (Nat.div_mod_eq col 3).
    unfold sameUnit. repeat split; auto; try lia. congruence.
  - intros (v' & Hv' & r & c & Hr & Hc & Hne & Hu & Hv).
    assert (v' = v) as -> by congruence.
    destruct (anyIn 0 9 _) eqn:Er; [done|].
    destruct (anyIn 0 9 (λ r, negb (r =? row) && _)) eqn:Ec; [done|].
    destruct (anyIn _ 3 _) eqn:Eb; [done|]. exfalso.
    rewrite anyIn_false in Er. rewrite anyIn_false in Ec. rewrite anyIn_false in Eb.
    destruct (decide (r = row)) as [->|Hnr].
    { specialize (Er c ltac:(lia)).
      assert (c ≠ col) as Hnc by congruence.
      apply Nat.eqb_neq in Hnc. rewrite Hnc in Er. simpl in Er.
      rewrite bool_decide_eq_false in Er. done. }
    destruct (decide (c = col)) as [->|Hnc].
    { specialize (Ec r ltac:(lia)).
      apply Nat.eqb_neq in Hnr. rewrite Hnr in Ec. simpl in Ec.
      rewrite bool_decide_eq_false in Ec. done. }
    destruct Hu as [?|[?|Hbox]]; [congruence..|].
    apply sameBox_range in Hbox.
    specialize (Eb r ltac:(lia)). rewrite anyIn_false in Eb.
    specialize (Eb c ltac:(lia)).
    apply Nat.eqb_neq in Hnr, Hnc. rewrite Hnr, Hnc in Eb. simpl in Eb.
    rewrite bool_decide_eq_false in Eb. done.
Qed.

Lemma isCellInConflict_empty b row col :
  cellAt b row col = Some None → isCellInConflict b row col = false.
Proof.
  intros H. unfold isCellInConflict. cbv zeta. rewrite H.
  by rewrite bool_decide_eq_true_2.
Qed.

(** ** [checkSolution] cell by cell *)

Lemma checkSolution_true b :
  checkSolution b = true ↔
  ∀ r c, r < 9 → c < 9 →
         cellAt b r c ≠ Some None ∧ isCellInConflict b r c = false.
Proof.
  unfold checkSolution. split.
  - destruct (anyIn 0 9 _) eqn:E; [discriminate|]. intros _ r c Hr Hc.
    rewrite anyIn_false in E. specialize (E r ltac:(lia)).
    rewrite anyIn_false in E. specialize (E c ltac:(lia)).
    apply orb_false_iff in E as [E1 E2].
    apply bool_decide_eq_false in E1. done.
  - intros H. destruct (anyIn 0 9 _) eqn:E; [|done]. exfalso.
    apply anyIn_true in E as (r & Hr & E). apply anyIn_true in E as (c & Hc & E).
    destruct (H r c) as [H1 H2]; [lia..|].
    rewrite H2, orb_false_r in E. apply bool_decide_eq_true in E. done.
Qed.

(** ** Concrete boards *)

Lemma wfBoard_emptyBoard : wfBoard emptyBoard.
Proof. split; [reflexivity | repeat constructor]. Qed.

Lemma wfBoard_cornerBoard : wfBoard cornerBoard.
Proof. split; [reflexivity | repeat constructor]. Qed.

Lemma wfBoard_solvedExample : wfBoard solvedExample.
Proof. split; [reflexivity | repeat constructor]. Qed.

(** Case analysis on an index below nine. *)
Ltac cases_below r n :=
  lazymatch n with
  | 0 => exfalso; lia
  | S ?m => let r' := fresh "i" in destruct r as [|r']; [| cases_below r' m]
  end.

Lemma cornerBoard_cells r c v :
  r < 9 → c < 9 → cellAt cornerBoard r c = Some (Some v) → r = 0 ∧ c = 0.
Proof.
  intros Hr Hc. cases_below r 9; cases_below c 9; vm_compute; intros; done.
Qed.

(** ** C1: isValidPlacement *)

(** C1, as stated, fails: on the board whose only number is a 5 at (0, 0),
    no other cell holds a 5, yet [isValidPlacement] at (0, 0) with the
    value 5 returns false: the scan does not skip the target cell. *)
Lemma isValidPlacement_counts_own_cell :
  wfBoard cornerBoard ∧
  cellAt cornerBoard 0 0 = Some (Some 5%Z) ∧
  ¬ occursElsewhere cornerBoard 0 0 5 ∧
  isValidPlacement cornerBoard 0 0 5 = false.
Proof.
  split; [apply wfBoard_cornerBoard|]. split; [reflexivity|].
  split; [|reflexivity].
  intros (r & c & Hr & Hc & Hne & _ & Hv).
  destruct (cornerBoard_cells r c 5 Hr Hc Hv) as [-> ->]. done.
Qed.

(** C1, amended: for in-range (row, col), [isValidPlacement] returns false
    if and only if the value occurs at some cell of the row, the column or
    the box of (row, col), the cell (row, col) itself included; when
    (row, col) does not hold the value (as for the empty cells the
    generator asks about) this is the same as the value occurring at
    another cell of these units. *)
Theorem isValidPlacement_spec (b : Board) (row col : nat) (v : Z) :
  row < 9 → col < 9 →
  (isValidPlacement b row col v = false ↔ occursInUnits b row col v) ∧
  (cellAt b row col ≠ Some (Some v) →
   (isValidPlacement b row col v = false ↔ occursElsewhere b row col v)).
Proof.
  intros Hrow Hcol. split; [by apply isValidPlacement_false|].
  intros Hown. rewrite isValidPlacement_false by done.
  unfold occursInUnits, occursElsewhere.
  split; intros (r & c & Hr & Hc & H); exists r, c.
  - destruct H as [Hu Hv]. repeat split; auto. congruence.
  - destruct H as (_ & Hu & Hv). auto.
Qed.

Lemma isValidPlacement_spec_witness :
  (isValidPlacement cornerBoard 0 3 5 = false ↔ occursInUnits cornerBoard 0 3 5) ∧
  (cellAt cornerBoard 0 3 ≠ Some (Some 5%Z) →
   (isValidPlacement cornerBoard 0 3 5 = false ↔ occursElsewhere cornerBoard 0 3 5)).
Proof. apply (isValidPlacement_spec cornerBoard 0 3 5); lia. Defined.

(** ** C9: isCellInConflict *)

(** C9: on a 9x9 grid and for in-range (row, col), [isCellInConflict]
    returns true if and only if the cell holds a number that also occurs at
    another cell of its row, column or box; on an empty cell it returns
    false. The box scan skips the cells of the target's row and column, and
    the row and column scans make up for them. *)
Theorem isCellInConflict_spec (b : Board) (row col : nat) :
  wfBoard b → row < 9 → col < 9 →
  (isCellInConflict b row col = true ↔
   ∃ v, cellAt b row col = Some (Some v) ∧ occursElsewhere b row col v) ∧
  (cellAt b row col = Some None → isCellInConflict b row col = false).
Proof.
  intros Hwf Hrow Hcol. split.
  - by apply isCellInConflict_true.
  - apply isCellInConflict_empty.
Qed.

Lemma isCellInConflict_spec_witness :
  (isCellInConflict cornerBoard 0 0 = true ↔
   ∃ v, cellAt cornerBoard 0 0 = Some (Some v) ∧ occursElsewhere cornerBoard 0 0 v) ∧
  (cellAt cornerBoard 0 0 = Some None → isCellInConflict cornerBoard 0 0 = false).
Proof.
  apply (isCellInConflict_spec cornerBoard 0 0).
  - split; [reflexivity | repeat constructor].
  - lia.
  - lia.
Defined.

(** ** C4: checkSolution *)

Lemma checkSolution_iff b :
  wfBoard b →
  checkSolution b = true ↔
  ∀ r c, r < 9 → c < 9 →
         ∃ v, cellAt b r c = Some (Some v) ∧ ¬ occursElsewhere b r c v.
Proof.
  intros Hwf. rewrite checkSolution_true. split; intros H r c Hr Hc.
  - destruct (H r c Hr Hc) as [Hne Hcf].
    destruct (wfBoard_cellAt b r c Hwf Hr Hc) as [[v|] Hx]; [|done].
    exists v. split; [done|]. intros Hocc.
    apply not_true_iff_false in Hcf. apply Hcf.
    apply isCellInConflict_true; eauto.
  - destruct (H r c Hr Hc) as (v & Hv & Hno). split; [congruence|].
    apply not_true_iff_false. intros Hcf.
    apply isCellInConflict_true in Hcf as (v' & Hv' & Hocc); auto.
    assert (v' = v) as -> by congruence. done.
Qed.

(** C4: on a 9x9 grid, [checkSolution] returns true if and only if every
    cell holds a number and no cell's number occurs at another cell of its
    row, column or box; a grid with an empty cell is rejected whatever the
    other cells hold. *)
Theorem checkSolution_spec (b : Board) :
  wfBoard b →
  (checkSolution b = true ↔
   ∀ r c, r < 9 → c < 9 →
          ∃ v, cellAt b r c = Some (Some v) ∧ ¬ occursElsewhere b r c v) ∧
  ((∃ r c, r < 9 ∧ c < 9 ∧ cellAt b r c = Some None) → checkSolution b = false).
Proof.
  intros Hwf. split; [by apply checkSolution_iff|].
  intros (r & c & Hr & Hc & Hnull).
  apply not_true_iff_false. intros Hok.
  rewrite checkSolution_true in Hok. destruct (Hok r c Hr Hc) as [Hne _]. done.
Qed.

Lemma checkSolution_spec_witness :
  (checkSolution solvedExample = true ↔
   ∀ r c, r < 9 → c < 9 →
          ∃ v, cellAt solvedExample r c = Some (Some v) ∧
               ¬ occursElsewhere solvedExample r c v) ∧
  ((∃ r c, r < 9 ∧ c < 9 ∧ cellAt solvedExample r c = Some None) →
   checkSolution solvedExample = false).
Proof.
  apply (checkSolution_spec solvedExample).
  split; [reflexivity | repeat constructor].
Defined.

(** ** Reading and writing cells *)

Lemma cellAt_setCell b r c v r' c' :
  cellAt (setCell b r c v) r' c' =
  if bool_decide (r = r' ∧ c = c') then (λ _, v) <$> cellAt b r c
  else cellAt b r' c'.
Proof.
  unfold cellAt, setCell. destruct (decide (r = r')) as [<-|Hr].
  - rewrite list_lookup_alter_eq. destruct (b !! r) as [row|] eqn:Hrow; simpl.
    + destruct (decide (c = c')) as [<-|Hc].
      * rewrite bool_decide_eq_true_2 by done.
        rewrite list_lookup_insert. case_decide as Hlt.
        -- destruct Hlt as [_ Hlt]. apply lookup_lt_is_Some_2 in Hlt as [x Hx].
           by rewrite Hx.
        -- rewrite lookup_ge_None_2; [done|]. lia.
      * rewrite bool_decide_eq_false_2 by (by intros [_ ?]).
        by rewrite list_lookup_insert_ne.
    + by case_bool_decide.
  - rewrite list_lookup_alter_ne by done.
    by rewrite bool_decide_eq_false_2 by (by intros [? _]).
Qed.

Lemma cellAt_setCell_eq b r c v x :
  cellAt b r c = Some x → cellAt (setCell b r c v) r c = Some v.
Proof.
  intros H. rewrite cellAt_setCell, bool_decide_eq_true_2 by done. by rewrite H.
Qed.

Lemma cellAt_setCell_ne b r c v r' c' :
  (r', c') ≠ (r, c) → cellAt (setCell b r c v) r' c' = cellAt b r' c'.
Proof.
  intros H. rewrite cellAt_setCell, bool_decide_eq_false_2; [done|].
  intros [-> ->]. done.
Qed.

Lemma wfBoard_setCell b r c v : wfBoard b → wfBoard (setCell b r c v).
Proof.
  intros [Hlen Hrows]. unfold setCell. split.
  - by rewrite length_alter.
  - apply Forall_alter; [done|]. intros row _ Hl. by rewrite length_insert.
Qed.

(** Writing back what a cell held undoes a write. *)
Lemma setCell_restore b r c v x :
  cellAt b r c = Some x → setCell (setCell b r c v) r c x = b.
Proof.
  unfold cellAt, setCell. intros H.
  destruct (b !! r) as [row|] eqn:Hrow; simpl in H; [|done].
  apply list_eq. intros i. destruct (decide (i = r)) as [->|Hne].
  - rewrite !list_lookup_alter_eq, Hrow. simpl. f_equal.
    rewrite list_insert_insert_eq. by apply list_insert_id.
  - by rewrite !list_lookup_alter_ne.
Qed.

Lemma jsonCopy_id b : jsonCopy b = b.
Proof.
  unfold jsonCopy. rewrite <- (list_fmap_id b) at 2.
  apply list_fmap_ext. intros _ row _. apply list_fmap_id.
Qed.

(** ** The 81 positions *)

Lemma elem_of_allCells r c : (r, c) ∈ allCells ↔ r < 9 ∧ c < 9.
Proof.
  unfold allCells. rewrite list_elem_of_bind. split.
  - intros (r' & H & Hr). apply elem_of_seq in Hr.
    apply list_elem_of_bind in H as (c' & H & Hc). apply elem_of_seq in Hc.
    apply list_elem_of_singleton in H. simplify_eq. lia.
  - intros [Hr Hc]. exists r. split; [|apply elem_of_seq; lia].
    apply list_elem_of_bind. exists c. split; [|apply elem_of_seq; lia].
    by apply list_elem_of_singleton.
Qed.

Lemma NoDup_allCells : NoDup allCells.
Proof. compute_done. Qed.

(** ** Counting cells *)

Lemma filter_ext_elem {A} (P Q : A → Prop)
    `{!∀ x, Decision (P x)} `{!∀ x, Decision (Q x)} (l : list A) :
  (∀ y, y ∈ l → (P y ↔ Q y)) → filter P l = filter Q l.
Proof.
  induction l as [|a l IH]; intros Hall; [done|].
  rewrite !filter_cons. rewrite IH by (intros; apply Hall; by right).
  destruct (decide (P a)) as [HP|HP], (decide (Q a)) as [HQ|HQ]; try done.
  - exfalso. apply HQ, Hall; [left|done].
  - exfalso. apply HP, Hall; [left|done].
Qed.

(** Changing the status of one element of a duplicate-free list changes
    the count by one. *)
Lemma filter_length_change {A} (P Q : A → Prop)
    `{!∀ x, Decision (P x)} `{!∀ x, Decision (Q x)} (l : list A) (x : A) :
  NoDup l → x ∈ l → P x → ¬ Q x → (∀ y, y ≠ x → (P y ↔ Q y)) →
  length (filter P l) = S (length (filter Q l)).
Proof.
  intros Hnd Hx HP HQ Hother. induction Hnd as [|a l Ha Hnd IH].
  { by apply elem_of_nil in Hx. }
  rewrite !filter_cons. apply elem_of_cons in Hx as [<-|Hx].
  - rewrite decide_True, decide_False by done. simpl. f_equal. f_equal.
    apply filter_ext_elem. intros y Hy. apply Hother. intros ->. done.
  - assert (a ≠ x) as Hne by (intros ->; done).
    specialize (Hother a Hne).
    destruct (decide (P a)), (decide (Q a)); simpl; try (by rewrite IH); tauto.
Qed.

Lemma filter_all {A} (P : A → Prop) `{!∀ x, Decision (P x)} (l : list A) :
  (∀ y, y ∈ l → P y) → filter P l = l.
Proof.
  induction l as [|a l IH]; intros Hall; [done|].
  rewrite filter_cons_True by (apply Hall; left).
  f_equal. apply IH. intros y Hy. apply Hall. by right.
Qed.

Lemma countFilled_le b : countFilled b ≤ 81.
Proof.
  unfold countFilled.
  etrans; [apply length_filter|]. done.
Qed.

Lemma countFilled_place b r c v :
  r < 9 → c < 9 → cellAt b r c = Some None →
  countFilled (setCell b r c (Some v)) = S (countFilled b).
Proof.
  intros Hr Hc Hnull. unfold countFilled.
  apply (filter_length_change _ _ _ (r, c)).
  - apply NoDup_allCells.
  - by apply elem_of_allCells.
  - unfold filledAt. simpl. by erewrite cellAt_setCell_eq.
  - unfold filledAt. simpl. rewrite Hnull. by intros [].
  - intros [r' c'] Hne. unfold filledAt. simpl. by rewrite cellAt_setCell_ne.
Qed.

Lemma countFilled_clear b r c v :
  r < 9 → c < 9 → cellAt b r c = Some (Some v) →
  countFilled b = S (countFilled (setCell b r c None)).
Proof.
  intros Hr Hc Hv. unfold countFilled.
  apply (filter_length_change _ _ _ (r, c)).
  - apply NoDup_allCells.
  - by apply elem_of_allCells.
  - unfold filledAt. simpl. by rewrite Hv.
  - unfold filledAt. simpl. erewrite cellAt_setCell_eq by done. by intros [].
  - intros [r' c'] Hne. unfold filledAt. simpl. by rewrite cellAt_setCell_ne.
Qed.

Lemma countFilled_full b : full b → countFilled b = 81.
Proof.
  intros Hfull. unfold countFilled.
  rewrite filter_all; [done|].
  intros [r c] Hin. apply elem_of_allCells in Hin as [Hr Hc]. simpl.
  unfold filledAt. destruct (Hfull r c Hr Hc) as [v ->]. done.
Qed.

(** ** findEmptyCell *)

Lemma firstSome_Some {A B} (f : A → option B) l y :
  firstSome f l = Some y → ∃ x, x ∈ l ∧ f x = Some y.
Proof.
  induction l as [|a l IH]; simpl; [done|].
  destruct (f a) as [z|] eqn:Hfa.
  - intros [= ->]. exists a. split; [left|done].
  - intros Hrest. destruct (IH Hrest) as (x & Hx & Hfx).
    exists x. split; [by right|done].
Qed.

Lemma firstSome_None {A B} (f : A → option B) l :
  firstSome f l = None → ∀ x, x ∈ l → f x = None.
Proof.
  induction l as [|a l IH]; simpl; intros Hnone x Hx.
  { by apply elem_of_nil in Hx. }
  destruct (f a) eqn:Hfa; [done|].
  apply elem_of_cons in Hx as [->|Hx]; auto.
Qed.

Lemma findEmptyCell_Some b r c :
  findEmptyCell b = Some (r, c) → r < 9 ∧ c < 9 ∧ cellAt b r c = Some None.
Proof.
  unfold findEmptyCell. intros Hfind.
  apply firstSome_Some in Hfind as (i & Hi & Hfind).
  apply firstSome_Some in Hfind as (j & Hj & Hfind).
  apply elem_of_seq in Hi, Hj.
  case_bool_decide; simplify_eq. repeat split; [lia..|done].
Qed.

Lemma findEmptyCell_None b :
  findEmptyCell b = None → ∀ r c, r < 9 → c < 9 → cellAt b r c ≠ Some None.
Proof.
  unfold findEmptyCell. intros Hfind r c Hr Hc Hnull.
  assert (r ∈ seq 0 9) as Hir by (apply elem_of_seq; lia).
  assert (c ∈ seq 0 9) as Hic by (apply elem_of_seq; lia).
  pose proof (firstSome_None _ _ Hfind r Hir) as Hrow.
  pose proof (firstSome_None _ _ Hrow c Hic) as Hcell.
  cbv beta in Hcell. rewrite bool_decide_eq_true_2 in Hcell by done.
  discriminate Hcell.
Qed.

Lemma findEmptyCell_None_full b :
  wfBoard b → findEmptyCell b = None → full b.
Proof.
  intros Hwf Hfind r c Hr Hc.
  destruct (wfBoard_cellAt b r c Hwf Hr Hc) as [[v|] Hx]; [eauto|].
  by apply findEmptyCell_None in Hx.
Qed.

(** ** The shuffle yields a permutation *)

Lemma swap_Permutation {A} (l : list A) i j : swap l i j ≡ₚ l.
Proof.
  unfold swap.
  destruct (l !! i) as [a|] eqn:Hi; [|done].
  destruct (l !! j) as [b|] eqn:Hj; [|done].
  apply Permutation_inj. split; [by rewrite !length_insert|].
  exists (λ x, if decide (x = j) then i else if decide (x = i) then j else x).
  split.
  - intros x y. repeat case_decide; congruence.
  - intros x. pose proof (lookup_lt_Some _ _ _ Hi). pose proof (lookup_lt_Some _ _ _ Hj).
    destruct (decide (x = j)) as [->|Hxj].
    + rewrite list_lookup_insert_eq by (by rewrite length_insert). done.
    + rewrite list_lookup_insert_ne by done.
      destruct (decide (x = i)) as [->|Hxi].
      * rewrite list_lookup_insert_eq by done. done.
      * by rewrite list_lookup_insert_ne.
Qed.

Lemma shuffleFrom_Permutation draw i numbers k :
  (shuffleFrom draw i numbers k).1 ≡ₚ numbers.
Proof.
  revert numbers k. induction i as [|i IH]; intros numbers k; simpl; [done|].
  rewrite IH. apply swap_Permutation.
Qed.

Lemma shuffle_Permutation draw numbers k :
  (shuffle draw numbers k).1 ≡ₚ numbers.
Proof. apply shuffleFrom_Permutation. Qed.

Lemma elem_of_oneToNine v : v ∈ oneToNine ↔ (1 ≤ v ≤ 9)%Z.
Proof.
  unfold oneToNine. rewrite !elem_of_cons, elem_of_nil. lia.
Qed.

(** ** Placing a number keeps a board good *)

Lemma sameUnit_sym r c r' c' : sameUnit r c r' c' → sameUnit r' c' r c.
Proof. unfold sameUnit, sameBox. intuition congruence. Qed.

Lemma isValidPlacement_true_no_occurrence b row col num :
  row < 9 → col < 9 → isValidPlacement b row col num = true →
  ∀ r c, r < 9 → c < 9 → sameUnit row col r c → cellAt b r c ≠ Some (Some num).
Proof.
  intros Hrow Hcol Hvalid r c Hr Hc Hu Hv.
  apply not_false_iff_true in Hvalid. apply Hvalid.
  apply isValidPlacement_false; [done..|]. exists r, c. auto.
Qed.

Lemma goodBoard_place b row col num :
  goodBoard b → row < 9 → col < 9 → cellAt b row col = Some None →
  isValidPlacement b row col num = true → (1 ≤ num ≤ 9)%Z →
  goodBoard (setCell b row col (Some num)).
Proof.
  intros (Hwf & Hcons & Hrange) Hrow Hcol Hnull Hvalid Hnum.
  pose proof (isValidPlacement_true_no_occurrence b row col num Hrow Hcol Hvalid)
    as Hfree.
  split; [by apply wfBoard_setCell|]. split.
  - intros r c v Hr Hc Hv (r' & c' & Hr' & Hc' & Hne & Hu & Hv').
    destruct (decide ((r, c) = (row, col))) as [[= -> ->]|Hrc].
    + erewrite cellAt_setCell_eq in Hv by done. simplify_eq.
      rewrite cellAt_setCell_ne in Hv' by done.
      by apply (Hfree r' c').
    + rewrite cellAt_setCell_ne in Hv by done.
      destruct (decide ((r', c') = (row, col))) as [[= -> ->]|Hrc'].
      * erewrite cellAt_setCell_eq in Hv' by done. simplify_eq.
        apply (Hfree r c); auto using sameUnit_sym.
      * rewrite cellAt_setCell_ne in Hv' by done.
        apply (Hcons r c v); auto. exists r', c'. auto.
  - intros r c v Hv.
    destruct (decide ((r, c) = (row, col))) as [[= -> ->]|Hrc].
    + erewrite cellAt_setCell_eq in Hv by done. by simplify_eq.
    + rewrite cellAt_setCell_ne in Hv by done. eauto.
Qed.

Lemma extends_refl b : extends b b.
Proof. by intros r c v. Qed.

Lemma extends_trans b1 b2 b3 : extends b1 b2 → extends b2 b3 → extends b1 b3.
Proof. intros H12 H23 r c v Hv. auto. Qed.

Lemma extends_setCell b row col v :
  cellAt b row col = Some None → extends b (setCell b row col v).
Proof.
  intros Hnull r c w Hw.
  rewrite cellAt_setCell_ne; [done|]. intros [= -> ->]. congruence.
Qed.

Lemma extends_place b sol row col v :
  extends b sol → cellAt sol row col = Some (Some v) →
  extends (setCell b row col (Some v)) sol.
Proof.
  intros Hext Hsol r c w Hw.
  rewrite cellAt_setCell in Hw. case_bool_decide as Hrc.
  - destruct Hrc as [-> ->]. destruct (cellAt b r c); simplify_eq/=. done.
  - auto.
Qed.

(** The number a valid completion holds at an empty cell passes the
    placement test. *)
Lemma solution_value_is_valid b sol row col v :
  validSolution sol → extends b sol → row < 9 → col < 9 →
  cellAt b row col = Some None → cellAt sol row col = Some (Some v) →
  isValidPlacement b row col v = true.
Proof.
  intros ((_ & Hcons & _) & _) Hext Hrow Hcol Hnull Hv.
  apply not_false_iff_true. intros Hfalse.
  apply isValidPlacement_false in Hfalse as (r & c & Hr & Hc & Hu & Hb); [|done..].
  apply (Hcons row col v Hrow Hcol Hv).
  exists r, c. repeat split; auto. intros [= -> ->]. congruence.
Qed.

(** ** The backtracking search *)

Section Generator.
Context (draw : nat → nat).

Lemma generateSolution_S fuel b k :
  generateSolution draw (S fuel) b k =
  match findEmptyCell b with
  | None => Some (true, b, k)
  | Some (row, col) =>
      tryNumbers (generateSolution draw fuel) row col
        (shuffle draw oneToNine k).1 b (shuffle draw oneToNine k).2
  end.
Proof.
  simpl. destruct (findEmptyCell b) as [[row col]|]; [|done].
  by destruct (shuffle draw oneToNine k).
Qed.

(** A call that fails has undone all its writes. *)
Lemma tryNumbers_false rec row col nums :
  (∀ b k b' k', rec b k = Some (false, b', k') → b' = b) →
  ∀ b k b' k',
    cellAt b row col = Some None →
    tryNumbers rec row col nums b k = Some (false, b', k') → b' = b.
Proof.
  intros Hrec. induction nums as [|num rest IH]; intros b k b' k' Hnull; simpl.
  { by intros [= <- <-]. }
  destruct (isValidPlacement b row col num); [|by apply IH].
  destruct (rec _ k) as [[[[] b1] k1]|] eqn:Hcall; [done| |done].
  apply Hrec in Hcall as ->. erewrite setCell_restore by done. by apply IH.
Qed.

Lemma generateSolution_false fuel b k b' k' :
  generateSolution draw fuel b k = Some (false, b', k') → b' = b.
Proof.
  revert b k b' k'. induction fuel as [|fuel IH]; intros b k b' k'; [done|].
  rewrite generateSolution_S.
  destruct (findEmptyCell b) as [[row col]|] eqn:Hfind; [|done].
  apply findEmptyCell_Some in Hfind as (_ & _ & Hnull).
  destruct (shuffle draw oneToNine k) as [numbers k1]. cbn [fst snd].
  by apply tryNumbers_false.
Qed.

(** Termination: the recursion is no deeper than the number of cells
    that are not filled. *)
Lemma tryNumbers_terminates rec row col bound :
  row < 9 → col < 9 →
  (∀ b k b' k', rec b k = Some (false, b', k') → b' = b) →
  (∀ b k, 81 - countFilled b < bound → is_Some (rec b k)) →
  ∀ nums b k,
    cellAt b row col = Some None → 81 - countFilled b ≤ bound →
    is_Some (tryNumbers rec row col nums b k).
Proof.
  intros Hrow Hcol Hfalse Hrec.
  induction nums as [|num rest IH]; intros b k Hnull Hbound; simpl; [done|].
  destruct (isValidPlacement b row col num); [|by apply IH].
  pose proof (countFilled_place b row col num Hrow Hcol Hnull) as Hcount.
  pose proof (countFilled_le (setCell b row col (Some num))) as Hle.
  destruct (Hrec (setCell b row col (Some num)) k) as [[[[] b1] k1] Hcall];
    [lia| |]; rewrite Hcall; [done|].
  apply Hfalse in Hcall as ->. erewrite setCell_restore by done. by apply IH.
Qed.

Lemma generateSolution_terminates fuel b k :
  81 - countFilled b < fuel → is_Some (generateSolution draw fuel b k).
Proof.
  revert b k. induction fuel as [|fuel IH]; intros b k Hfuel; [lia|].
  rewrite generateSolution_S.
  destruct (findEmptyCell b) as [[row col]|] eqn:Hfind; [|done].
  apply findEmptyCell_Some in Hfind as (Hrow & Hcol & Hnull).
  destruct (shuffle draw oneToNine k) as [numbers k1]. cbn [fst snd].
  apply (tryNumbers_terminates _ _ _ fuel); auto; [|lia].
  intros. by eapply generateSolution_false.
Qed.

(** Completeness: a failing call proves that the board has no valid
    completion. *)
Lemma tryNumbers_complete rec row col :
  row < 9 → col < 9 →
  (∀ b k b' k', rec b k = Some (false, b', k') → b' = b) →
  (∀ b k b' k', rec b k = Some (false, b', k') →
                ∀ sol, validSolution sol → ¬ extends b sol) →
  ∀ nums b k b' k',
    cellAt b row col = Some None →
    tryNumbers rec row col nums b k = Some (false, b', k') →
    ∀ sol v, validSolution sol → extends b sol →
             cellAt sol row col = Some (Some v) → v ∉ nums.
Proof.
  intros Hrow Hcol Hfalse Hrec.
  induction nums as [|num rest IH]; intros b k b' k' Hnull; simpl.
  { intros _ sol v _ _ _. apply not_elem_of_nil. }
  destruct (isValidPlacement b row col num) eqn:Hvalid.
  - destruct (rec _ k) as [[[[] b1] k1]|] eqn:Hcall; [done| |done].
    intros Hrest sol v Hsol Hext Hv.
    pose proof (Hfalse _ _ _ _ Hcall) as ->.
    erewrite setCell_restore in Hrest by done.
    apply not_elem_of_cons. split; [|by eapply IH].
    intros ->. apply (Hrec _ _ _ _ Hcall sol Hsol). by apply extends_place.
  - intros Hrest sol v Hsol Hext Hv.
    apply not_elem_of_cons. split; [|by eapply IH].
    intros ->.
    rewrite (solution_value_is_valid b sol row col num) in Hvalid by done.
    done.
Qed.

Lemma generateSolution_complete fuel b k b' k' :
  generateSolution draw fuel b k = Some (false, b', k') →
  ∀ sol, validSolution sol → ¬ extends b sol.
Proof.
  revert b k b' k'. induction fuel as [|fuel IH]; intros b k b' k'; [done|].
  rewrite generateSolution_S.
  destruct (findEmptyCell b) as [[row col]|] eqn:Hfind; [|done].
  apply findEmptyCell_Some in Hfind as (Hrow & Hcol & Hnull).
  pose proof (shuffle_Permutation draw oneToNine k) as Hperm.
  destruct (shuffle draw oneToNine k) as [numbers k1]. cbn [fst snd] in *.
  intros Hloop sol Hsol Hext.
  destruct Hsol as [Hgood Hfull].
  destruct (Hfull row col Hrow Hcol) as [v Hv].
  eapply (tryNumbers_complete _ row col Hrow Hcol) with (sol := sol) (v := v);
    [| |done|done|done|done|done|].
  - intros. by eapply generateSolution_false.
  - intros ? ? ? ? Hcall. by eapply IH.
  - rewrite Hperm. apply elem_of_oneToNine.
    destruct Hgood as (_ & _ & Hrange). by eapply Hrange.
Qed.

(** Soundness: a successful call leaves a valid complete grid that keeps
    the numbers it started from. *)
Lemma tryNumbers_sound rec row col :
  row < 9 → col < 9 →
  (∀ b k b' k', rec b k = Some (false, b', k') → b' = b) →
  (∀ b k b' k', rec b k = Some (true, b', k') → goodBoard b →
                validSolution b' ∧ extends b b') →
  ∀ nums b k b' k',
    (∀ num, num ∈ nums → (1 ≤ num ≤ 9)%Z) →
    goodBoard b → cellAt b row col = Some None →
    tryNumbers rec row col nums b k = Some (true, b', k') →
    validSolution b' ∧ extends b b'.
Proof.
  intros Hrow Hcol Hfalse Hrec.
  induction nums as [|num rest IH]; intros b k b' k' Hnums Hgood Hnull; simpl.
  { done. }
  assert (∀ n, n ∈ rest → (1 ≤ n ≤ 9)%Z) as Hrest
    by (intros; apply Hnums; by right).
  destruct (isValidPlacement b row col num) eqn:Hvalid; [|by apply IH].
  destruct (rec _ k) as [[[[] b1] k1]|] eqn:Hcall; [| |done].
  - intros [= <- <-].
    apply Hrec in Hcall as [Hsol Hext].
    + split; [done|]. eapply extends_trans; [|done]. by apply extends_setCell.
    + apply goodBoard_place; auto. apply Hnums. left.
  - apply Hfalse in Hcall as ->. erewrite setCell_restore by done. by apply IH.
Qed.

Lemma generateSolution_sound fuel b k b' k' :
  generateSolution draw fuel b k = Some (true, b', k') → goodBoard b →
  validSolution b' ∧ extends b b'.
Proof.
  revert b k b' k'. induction fuel as [|fuel IH]; intros b k b' k'; [done|].
  rewrite generateSolution_S.
  destruct (findEmptyCell b) as [[row col]|] eqn:Hfind.
  - apply findEmptyCell_Some in Hfind as (Hrow & Hcol & Hnull).
    pose proof (shuffle_Permutation draw oneToNine k) as Hperm.
    destruct (shuffle draw oneToNine k) as [numbers k1]. cbn [fst snd] in *.
    intros Hloop Hgood.
    eapply (tryNumbers_sound _ row col Hrow Hcol); [| | |done|done|done].
    + intros. by eapply generateSolution_false.
    + intros ? ? ? ? Hcall. by eapply IH.
    + intros num Hnum. rewrite Hperm in Hnum. by apply elem_of_oneToNine.
  - intros [= <- <-] Hgood. split; [|apply extends_refl].
    split; [done|]. apply findEmptyCell_None_full; [|done]. by destruct Hgood.
Qed.

End Generator.

(** ** Deciding validity of a concrete board *)

Lemma cellsInRange_sound b : cellsInRange b = true → valuesInRange b.
Proof.
  unfold cellsInRange, valuesInRange, cellAt. intros Hall r c v Hv.
  rewrite forallb_forall in Hall.
  destruct (b !! r) as [row|] eqn:Hrow; simpl in Hv; [|done].
  apply list_elem_of_lookup_2, list_elem_of_In, Hall in Hrow.
  rewrite forallb_forall in Hrow.
  apply list_elem_of_lookup_2, list_elem_of_In, Hrow in Hv.
  simpl in Hv. lia.
Qed.

Lemma noConflict_sound b : wfBoard b → noConflict b = true → consistent b.
Proof.
  unfold noConflict. intros Hwf Hno r c v Hr Hc Hv Hocc.
  apply negb_true_iff in Hno. rewrite anyIn_false in Hno.
  specialize (Hno r ltac:(lia)). rewrite anyIn_false in Hno.
  specialize (Hno c ltac:(lia)). apply not_true_iff_false in Hno. apply Hno.
  apply isCellInConflict_true; eauto.
Qed.

Lemma goodBoard_check b :
  wfBoard b → cellsInRange b = true → noConflict b = true → goodBoard b.
Proof.
  intros Hwf Hrange Hno.
  split; [done|]. split; [by apply noConflict_sound | by apply cellsInRange_sound].
Qed.

Lemma goodBoard_emptyBoard : goodBoard emptyBoard.
Proof. apply goodBoard_check; [apply wfBoard_emptyBoard|done..]. Qed.

Lemma validSolution_solvedExample : validSolution solvedExample.
Proof.
  split.
  - apply goodBoard_check; [apply wfBoard_solvedExample|done..].
  - intros r c Hr Hc.
    assert (checkSolution solvedExample = true) as Hcheck by done.
    rewrite checkSolution_true in Hcheck. destruct (Hcheck r c Hr Hc) as [Hne _].
    destruct (wfBoard_cellAt _ r c wfBoard_solvedExample Hr Hc) as [[v|] Hx]; [eauto|done].
Qed.

Lemma extends_emptyBoard sol : extends emptyBoard sol.
Proof.
  intros r c v Hv. exfalso. unfold cellAt, emptyBoard, emptyRow in Hv.
  apply bind_Some in Hv as (row & Hrow & Hv).
  apply lookup_replicate in Hrow as [-> _].
  apply lookup_replicate in Hv as [? _]. done.
Qed.

(** ** Units of a valid complete grid *)

Lemma units_ok : Forall unitOk units.
Proof. compute_done. Qed.

Lemma filter_length_one {A} (P : A → Prop) `{!∀ x, Decision (P x)} (l : list A) x :
  NoDup l → x ∈ l → P x → (∀ y, y ∈ l → P y → y = x) → length (filter P l) = 1.
Proof.
  intros Hnd Hx HP Huniq.
  assert (filter P l ≡ₚ [x]) as ->; [|done].
  apply NoDup_Permutation; [by apply NoDup_filter | apply NoDup_singleton |].
  intros y. rewrite list_elem_of_filter, list_elem_of_singleton. split.
  - intros [HPy Hy]. auto.
  - intros ->. auto.
Qed.

Lemma unit_each_once b u v :
  validSolution b → unitOk u → (1 ≤ v ≤ 9)%Z → occurrences b v u = 1.
Proof.
  intros ((Hwf & Hcons & Hrange) & Hfull) (Hnd & Hlen & Hin & Hpair) Hv.
  rewrite Forall_forall in Hin. rewrite Forall_forall in Hpair.
  set (val := λ p : nat * nat, default 0%Z (cellAt b p.1 p.2 ≫= id)).
  assert (∀ p, p ∈ u → cellAt b p.1 p.2 = Some (Some (val p))) as Hval.
  { intros p Hp. destruct (Hin p Hp) as [Hr Hc].
    destruct (Hfull _ _ Hr Hc) as [w Hw]. unfold val. by rewrite Hw. }
  assert (∀ p q, p ∈ u → q ∈ u → val p = val q → p = q) as Hinj.
  { intros [r c] [r' c'] Hp Hq Heq.
    destruct (decide ((r, c) = (r', c'))) as [|Hne]; [done|]. exfalso.
    destruct (Hin _ Hp) as [Hr Hc]. destruct (Hin _ Hq) as [Hr' Hc'].
    simpl in *.
    apply (Hcons r c (val (r, c)) Hr Hc (Hval _ Hp)).
    exists r', c'. repeat split; auto.
    - pose proof (Hpair _ Hp) as Hrow. rewrite Forall_forall in Hrow.
      apply (Hrow _ Hq).
    - rewrite Heq. apply (Hval _ Hq). }
  assert (val <$> u ≡ₚ oneToNine) as Hperm.
  { apply submseteq_length_Permutation; [|by rewrite length_fmap, Hlen].
    apply NoDup_submseteq.
    - by apply NoDup_fmap_2_strong.
    - intros w Hw. apply list_elem_of_fmap in Hw as (p & -> & Hp).
      apply elem_of_oneToNine. by eapply Hrange, Hval. }
  assert (v ∈ val <$> u) as Hocc by (rewrite Hperm; by apply elem_of_oneToNine).
  apply list_elem_of_fmap in Hocc as (p & -> & Hp).
  unfold occurrences. apply (filter_length_one _ _ p); auto.
  intros q Hq Hqv. apply Hinj; auto.
  rewrite (Hval _ Hq) in Hqv. congruence.
Qed.

Lemma validSolution_eachOnce b : validSolution b → eachOnce b.
Proof.
  intros Hsol u v Hu Hv. apply unit_each_once; [done| |done].
  pose proof units_ok as Hall. rewrite Forall_forall in Hall. by apply Hall.
Qed.

(** ** C2: what a successful generateSolution leaves *)

(** C2, as stated, fails: started on a board that already holds a
    duplicate (two 3s in the last row) the search fills the one empty cell
    and returns true, and the last row of the result still holds 3 twice. *)
Lemma generateSolution_keeps_clash :
  wfBoard clashBoard ∧
  generateSolution (λ _, 0) 82 clashBoard 0 =
    Some (true, setCell solvedExample 8 7 (Some 3%Z), 8) ∧
  ¬ eachOnce (setCell solvedExample 8 7 (Some 3%Z)).
Proof.
  split; [split; [reflexivity | repeat constructor]|].
  split; [by vm_compute|].
  intros Honce.
  assert (rowOf 8 ∈ units) as Hu by compute_done.
  specialize (Honce (rowOf 8) 3%Z Hu ltac:(lia)).
  vm_compute in Honce. discriminate.
Qed.

(** C2, amended: when the starting grid is a 9x9 grid whose numbers are
    within 1..9 and occur at most once per row, column and box (the empty
    grid is one), a call of generateSolution that returns true leaves a
    9x9 grid without empty cell in which every row, column and box holds
    each of 1..9 exactly once, and which keeps the numbers it started
    from. *)
Theorem generateSolution_valid (draw : nat → nat) (fuel : nat) (b : Board)
    (k : nat) (b' : Board) (k' : nat) :
  goodBoard b →
  generateSolution draw fuel b k = Some (true, b', k') →
  wfBoard b' ∧ full b' ∧ eachOnce b' ∧ extends b b'.
Proof.
  intros Hgood Hrun.
  destruct (generateSolution_sound draw fuel b k b' k' Hrun Hgood) as [Hsol Hext].
  split; [apply Hsol|]. split; [apply Hsol|].
  split; [by apply validSolution_eachOnce | done].
Qed.

Lemma generateSolution_valid_witness :
  wfBoard solvedExample ∧ full solvedExample ∧ eachOnce solvedExample ∧
  extends emptyBoard solvedExample.
Proof.
  apply (generateSolution_valid (λ _, 0) 82 emptyBoard 0 solvedExample 3128).
  - apply goodBoard_check; [split; [reflexivity | repeat constructor]|reflexivity..].
  - vm_compute. reflexivity.
Defined.

(** ** C8: the search on the empty grid *)

(** C8: whatever the random source answers, generateSolution terminates
    (a call with more fuel than there are unfilled cells returns), on the
    empty grid it returns true and leaves a full solution (a 9x9 grid
    without empty cell in which every row, column and box holds each of
    1..9 exactly once), and a call that returns false was started on a grid
    that no valid complete grid extends. *)
Theorem generateSolution_empty_succeeds (draw : nat → nat) (k : nat) :
  (∀ fuel b, 81 - countFilled b < fuel →
             is_Some (generateSolution draw fuel b k)) ∧
  (∀ fuel, 82 ≤ fuel →
           ∃ b' k', generateSolution draw fuel emptyBoard k = Some (true, b', k') ∧
                    wfBoard b' ∧ full b' ∧ eachOnce b') ∧
  (∀ fuel b b' k', generateSolution draw fuel b k = Some (false, b', k') →
                   ∀ sol, validSolution sol → ¬ extends b sol).
Proof.
  split; [|split].
  - intros fuel b Hfuel. by apply generateSolution_terminates.
  - intros fuel Hfuel.
    destruct (generateSolution_terminates draw fuel emptyBoard k)
      as [[[[] b'] k'] Hrun]; [lia| |].
    { exists b', k'. split; [done|].
      destruct (generateSolution_sound draw fuel emptyBoard k b' k' Hrun
                  goodBoard_emptyBoard) as [Hsol _].
      split; [apply Hsol|]. split; [apply Hsol|].
      by apply validSolution_eachOnce. }
    exfalso.
    apply (generateSolution_complete draw _ _ _ _ _ Hrun solvedExample).
    + apply validSolution_solvedExample.
    + apply extends_emptyBoard.
  - intros fuel b b' k' Hrun. by eapply generateSolution_complete.
Qed.

Lemma generateSolution_empty_succeeds_witness :
  is_Some (generateSolution (λ _, 0) 82 emptyBoard 0) ∧
  (∃ b' k', generateSolution (λ _, 0) 82 emptyBoard 0 = Some (true, b', k') ∧
            wfBoard b' ∧ full b' ∧ eachOnce b') ∧
  (∀ sol, validSolution sol → ¬ extends stuckBoard sol).
Proof.
  destruct (generateSolution_empty_succeeds (λ _, 0) 0) as (Hterm & Hempty & Hfalse).
  split; [|split].
  - apply Hterm. vm_compute. lia.
  - apply Hempty. lia.
  - apply (Hfalse 82 stuckBoard stuckBoard 8). vm_compute. reflexivity.
Defined.

(** ** The carving loop *)

Section Carver.
Context (draw : nat → nat).

Lemma randomBelow_lt k n : 0 < n → randomBelow draw k n < n.
Proof. intros Hn. unfold randomBelow. apply Nat.mod_upper_bound. lia. Qed.

Lemma filledAt_true b r c :
  filledAt b r c = true ↔ ∃ v, cellAt b r c = Some (Some v).
Proof.
  unfold filledAt. destruct (cellAt b r c) as [[v|]|]; split; eauto;
    try done; by intros [? ?].
Qed.

Lemma extends_clear b r c : extends (setCell b r c None) b.
Proof.
  intros r' c' v. rewrite cellAt_setCell. case_bool_decide.
  - by destruct (cellAt b r c).
  - done.
Qed.

Lemma carve_S fuel puzzle attempts k :
  carve draw (S fuel) puzzle (S attempts) k =
  if bool_decide (cellAt puzzle (randomBelow draw k 9) (randomBelow draw (S k) 9)
                  ≠ Some None)
  then carve draw fuel
         (setCell puzzle (randomBelow draw k 9) (randomBelow draw (S k) 9) None)
         attempts (S (S k))
  else carve draw fuel puzzle (S attempts) (S (S k)).
Proof. reflexivity. Qed.

(** Each clearing iteration removes one number: when the loop ends, as
    many numbers are gone as there were attempts. *)
Lemma carve_count fuel puzzle attempts k p k' :
  wfBoard puzzle →
  carve draw fuel puzzle attempts k = Some (p, k') →
  wfBoard p ∧ extends p puzzle ∧ countFilled p + attempts = countFilled puzzle.
Proof.
  revert puzzle attempts k.
  induction fuel as [|fuel IH]; intros puzzle attempts k Hwf;
    destruct attempts as [|attempts]; simpl.
  - intros [= <- <-]. split; [done|]. split; [apply extends_refl|lia].
  - done.
  - intros [= <- <-]. split; [done|]. split; [apply extends_refl|lia].
  - set (row := randomBelow draw k 9). set (col := randomBelow draw (S k) 9).
    assert (row < 9) as Hrow by (apply randomBelow_lt; lia).
    assert (col < 9) as Hcol by (apply randomBelow_lt; lia).
    case_bool_decide as Hcell.
    + intros Hrun. apply IH in Hrun as (Hwfp & Hext & Hcount);
        [|by apply wfBoard_setCell].
      destruct (wfBoard_cellAt puzzle row col Hwf Hrow Hcol) as [[v|] Hx]; [|done].
      pose proof (countFilled_clear puzzle row col v Hrow Hcol Hx).
      split; [done|]. split; [|lia].
      eapply extends_trans; [done|]. apply extends_clear.
    + intros Hrun. by apply IH in Hrun.
Qed.

Lemma countFilled_pos b :
  0 < countFilled b → ∃ r c v, r < 9 ∧ c < 9 ∧ cellAt b r c = Some (Some v).
Proof.
  unfold countFilled. intros Hpos.
  destruct (filter _ allCells) as [|[r c] l] eqn:Hfilter; [simpl in Hpos; lia|].
  assert ((r, c) ∈ filter (λ p, filledAt b p.1 p.2) allCells) as Hin
    by (rewrite Hfilter; left).
  apply list_elem_of_filter in Hin as [Hfilled Hin].
  apply elem_of_allCells in Hin as [Hr Hc].
  apply Is_true_true, filledAt_true in Hfilled as [v Hv]. eauto 6.
Qed.

(** Under a fair source the loop ends, as long as there are at least as
    many numbers on the board as there are cells left to clear. *)
Lemma carve_terminates k attempts :
  fairFrom draw k →
  ∀ puzzle n, wfBoard puzzle → attempts ≤ countFilled puzzle →
    ∃ fuel, is_Some (carve draw fuel puzzle attempts (k + 2 * n)).
Proof.
  intros Hfair. induction attempts as [|attempts IHa]; intros puzzle n Hwf Hle.
  { exists 0. done. }
  destruct (countFilled_pos puzzle) as (r & c & v & Hr & Hc & Hv); [lia|].
  destruct (Hfair n r c Hr Hc) as (m & Hnm & Hmr & Hmc).
  assert (∃ d, n + d = m) as [d Hd] by (exists (m - n); lia).
  clear Hnm. revert n Hd. induction d as [|d IHd]; intros n Hd.
  - assert (n = m) as -> by lia.
    destruct (IHa (setCell puzzle r c None) (S m)) as [fuel Hrun].
    + by apply wfBoard_setCell.
    + pose proof (countFilled_clear puzzle r c v Hr Hc Hv). lia.
    + exists (S fuel). rewrite carve_S, Hmr, Hmc.
      rewrite bool_decide_eq_true_2 by congruence.
      by replace (S (S (k + 2 * m))) with (k + 2 * S m) by lia.
  - set (row := randomBelow draw (k + 2 * n) 9).
    set (col := randomBelow draw (S (k + 2 * n)) 9).
    assert (row < 9) as Hrow by (apply randomBelow_lt; lia).
    assert (col < 9) as Hcol by (apply randomBelow_lt; lia).
    destruct (decide (cellAt puzzle row col ≠ Some None)) as [Hcell|Hcell].
    + destruct (wfBoard_cellAt puzzle row col Hwf Hrow Hcol) as [[w|] Hx]; [|done].
      destruct (IHa (setCell puzzle row col None) (S n)) as [fuel Hrun].
      * by apply wfBoard_setCell.
      * pose proof (countFilled_clear puzzle row col w Hrow Hcol Hx). lia.
      * exists (S fuel). rewrite carve_S. fold row col.
        rewrite bool_decide_eq_true_2 by done.
        by replace (S (S (k + 2 * n))) with (k + 2 * S n) by lia.
    + destruct (IHd (S n)) as [fuel Hrun]; [lia|].
      exists (S fuel). rewrite carve_S. fold row col.
      rewrite bool_decide_eq_false_2 by done.
      by replace (S (S (k + 2 * n))) with (k + 2 * S n) by lia.
Qed.

Lemma createPuzzle_result fuel solved difficulty k p k' :
  wfBoard solved → full solved →
  createPuzzle draw fuel solved difficulty k = Some (p, k') →
  wfBoard p ∧ extends p solved ∧ countFilled p = 81 - removalsOf difficulty.
Proof.
  unfold createPuzzle. rewrite jsonCopy_id. intros Hwf Hfull Hrun.
  apply carve_count in Hrun as (Hwfp & Hext & Hcount); [|done].
  rewrite (countFilled_full solved) in Hcount by done.
  split; [done|]. split; [done|]. lia.
Qed.

Lemma createPuzzle_terminates solved difficulty k :
  wfBoard solved → full solved → fairFrom draw k →
  ∃ fuel, is_Some (createPuzzle draw fuel solved difficulty k).
Proof.
  unfold createPuzzle. rewrite jsonCopy_id. intros Hwf Hfull Hfair.
  destruct (carve_terminates k (removalsOf difficulty) Hfair solved 0 Hwf)
    as [fuel Hrun].
  - rewrite (countFilled_full solved) by done. destruct difficulty; simpl; lia.
  - exists fuel. by replace (k + 2 * 0) with k in Hrun by lia.
Qed.

End Carver.

Lemma fairDraw_fair : fair fairDraw.
Proof.
  intros k n r c Hr Hc.
  set (e := 81 * (n + k) + 9 * r + c).
  set (t := 2 * e + k mod 2).
  pose proof (Nat.div_mod_eq k 2) as Hk. pose proof (Nat.mod_upper_bound k 2) as Hk2.
  exists ((3 * t - k) / 2).
  pose proof (Nat.div_mod_eq (3 * t - k) 2) as Hm.
  pose proof (Nat.mod_upper_bound (3 * t - k) 2) as Hm2.
  assert ((3 * t - k) mod 2 = 0) as Hpar.
  { replace (3 * t - k) with (2 * (3 * e + k mod 2 - k / 2)) by lia.
    by rewrite Nat.mul_comm, Nat.Div0.mod_mul. }
  assert (k + 2 * ((3 * t - k) / 2) = 3 * t) as Heq by lia.
  split; [lia|].
  unfold randomBelow, fairDraw. rewrite Heq.
  replace (S (3 * t)) with (1 + t * 3) by lia.
  replace (3 * t) with (0 + t * 3) by lia.
  rewrite !Nat.Div0.mod_add, !Nat.div_add by lia. simpl (0 mod 3). simpl (1 mod 3).
  simpl (0 / 3). simpl (1 / 3). rewrite !Nat.add_0_l.
  assert (t / 2 = e) as ->.
  { unfold t. pose proof (Nat.div_mod_eq (2 * e + k mod 2) 2).
    pose proof (Nat.mod_upper_bound (2 * e + k mod 2) 2). lia. }
  pose proof (Nat.div_mod_eq e 9). pose proof (Nat.mod_upper_bound e 9).
  pose proof (Nat.div_mod_eq (e / 9) 9). pose proof (Nat.mod_upper_bound (e / 9) 9).
  lia.
Qed.

(** ** C3: the number of clues *)

(** C3: on a full 9x9 grid, whenever createPuzzle returns it returns a
    9x9 grid that agrees with the solved grid wherever it holds a number
    and that has exactly 46 (Easy), 36 (Medium) or 26 (Hard) non-empty
    cells, that is 81 - R(D) with R = 35, 45, 55; and it does return when
    the random source is fair. *)
Theorem createPuzzle_count (draw : nat → nat) (solved : Board)
    (difficulty : Difficulty) (k : nat) :
  wfBoard solved → full solved →
  (∀ fuel p k', createPuzzle draw fuel solved difficulty k = Some (p, k') →
     wfBoard p ∧ extends p solved ∧
     countFilled p = 81 - removalsOf difficulty ∧
     countFilled p = match difficulty with Easy => 46 | Medium => 36 | Hard => 26 end) ∧
  (fairFrom draw k →
   ∃ fuel p k', createPuzzle draw fuel solved difficulty k = Some (p, k')).
Proof.
  intros Hwf Hfull. split.
  - intros fuel p k' Hrun.
    destruct (createPuzzle_result draw fuel solved difficulty k p k' Hwf Hfull Hrun)
      as (Hwfp & Hext & Hcount).
    split; [done|]. split; [done|]. split; [done|].
    rewrite Hcount. by destruct difficulty.
  - intros Hfair.
    destruct (createPuzzle_terminates draw solved difficulty k Hwf Hfull Hfair)
      as [fuel [[p k'] Hrun]].
    eauto.
Qed.

Lemma createPuzzle_count_witness :
  ∃ p k', createPuzzle fairDraw 200 solvedExample Easy 0 = Some (p, k') ∧
          wfBoard p ∧ extends p solvedExample ∧ countFilled p = 46 ∧
          ∃ fuel p2 k2, createPuzzle fairDraw fuel solvedExample Easy 0 = Some (p2, k2).
Proof.
  destruct (createPuzzle_count fairDraw solvedExample Easy 0) as [Hresult Hterm].
  - split; [reflexivity | repeat constructor].
  - apply validSolution_solvedExample.
  - destruct (createPuzzle fairDraw 200 solvedExample Easy 0) as [[p k']|] eqn:Hrun.
    + exists p, k'. split; [reflexivity|].
      destruct (Hresult 200 p k' Hrun) as (Hwf & Hext & _ & Hcount).
      split; [done|]. split; [done|]. split; [done|].
      apply Hterm, fairDraw_fair.
    + vm_compute in Hrun. discriminate Hrun.
Defined.

(** ** More fuel does not change a result *)




(** ** C7: the round trip *)

Lemma fillFrom_solution p s :
  wfBoard p → wfBoard s → extends p s → fillFrom p s = s.
Proof.
  intros [Hlenp Hrowsp] [Hlens Hrowss] Hext. unfold fillFrom.
  rewrite Forall_forall in Hrowsp. rewrite Forall_forall in Hrowss.
  apply list_eq. intros r. rewrite lookup_zip_with.
  destruct (s !! r) as [srow|] eqn:Hs.
  2:{ by destruct (p !! r). }
  pose proof (lookup_lt_Some _ _ _ Hs) as Hr.
  destruct (lookup_lt_is_Some_2 p r) as [prow Hp]; [lia|].
  rewrite Hp. simpl. f_equal.
  assert (length prow = 9)
    by (apply Hrowsp; eapply list_elem_of_lookup_2; eauto).
  assert (length srow = 9)
    by (apply Hrowss; eapply list_elem_of_lookup_2; eauto).
  apply list_eq. intros c. rewrite lookup_zip_with.
  destruct (srow !! c) as [y|] eqn:Hy.
  2:{ by destruct (prow !! c). }
  pose proof (lookup_lt_Some _ _ _ Hy) as Hc.
  destruct (lookup_lt_is_Some_2 prow c) as [x Hx]; [lia|].
  rewrite Hx. simpl. f_equal. destruct x as [v|]; [|done].
  specialize (Hext r c v). unfold cellAt in Hext.
  rewrite Hp, Hs in Hext. simpl in Hext. rewrite Hy in Hext.
  symmetry. apply (inj Some). by apply Hext.
Qed.

Lemma checkSolution_validSolution b : validSolution b → checkSolution b = true.
Proof.
  intros ((Hwf & Hcons & _) & Hfull). apply checkSolution_iff; [done|].
  intros r c Hr Hc. destruct (Hfull r c Hr Hc) as [v Hv]. eauto.
Qed.

(** What generateSudoku hands back. *)
Lemma generateSudoku_result draw fuel difficulty k p s k' :
  generateSudoku draw fuel difficulty k = Some (p, s, k') →
  validSolution s ∧ wfBoard p ∧ extends p s ∧
  countFilled p = 81 - removalsOf difficulty.
Proof.
  unfold generateSudoku. intros Hrun.
  apply bind_Some in Hrun as ([[res s1] k1] & Hgen & Hrun).
  apply bind_Some in Hrun as ([p1 k2] & Hcarve & Hrun). simplify_eq.
  rewrite jsonCopy_id in Hcarve.
  assert (validSolution s) as Hsol.
  { destruct res.
    - by apply (generateSolution_sound draw _ _ _ _ _ Hgen), goodBoard_emptyBoard.
    - exfalso.
      apply (generateSolution_complete draw _ _ _ _ _ Hgen solvedExample).
      + apply validSolution_solvedExample.
      + apply extends_emptyBoard. }
  split; [done|].
  apply createPuzzle_result in Hcarve; [done|apply Hsol..].
Qed.

(** The round trip for any run of the generator that starts from a good
    board and any carving of its result. *)
Lemma round_trip_from_good_start draw fuel b k s k1 fuel' difficulty p k2 :
  goodBoard b →
  generateSolution draw fuel b k = Some (true, s, k1) →
  createPuzzle draw fuel' (jsonCopy s) difficulty k1 = Some (p, k2) →
  countFilled p = 81 - removalsOf difficulty ∧ checkSolution (fillFrom p s) = true.
Proof.
  intros Hgood Hgen Hcarve. rewrite jsonCopy_id in Hcarve.
  destruct (generateSolution_sound draw _ _ _ _ _ Hgen Hgood) as [Hsol _].
  apply createPuzzle_result in Hcarve as (Hwf & Hext & Hcount); [|apply Hsol..].
  split; [done|].
  rewrite fillFrom_solution; [by apply checkSolution_validSolution|done|apply Hsol|done].
Qed.



(** ** Carving on the heap *)

Section HeapCarver.
Context (draw : nat → nat).

(** The board value that the addresses [b] denote in heap [h]. *)
Lemma readBoard_Some h b rows :
  readBoard h b = Some rows ↔ Forall2 (λ l row, h !! l = Some row) b rows.
Proof. unfold readBoard. apply mapM_Some. Qed.

Lemma cellAtH_readBoard h b rows r c :
  readBoard h b = Some rows → cellAtH h b r c = cellAt rows r c.
Proof.
  rewrite readBoard_Some. intros Hrep. unfold cellAtH, cellAt.
  destruct (b !! r) as [l|] eqn:Hl; simpl.
  - destruct (Forall2_lookup_l _ _ _ _ _ Hrep Hl) as (row & Hrow & Hh).
    by rewrite Hrow, Hh.
  - apply lookup_ge_None in Hl. rewrite (Forall2_length _ _ _ Hrep) in Hl.
    apply lookup_ge_None in Hl. by rewrite Hl.
Qed.

Lemma readBoard_setCellH h b rows r c v :
  NoDup b → readBoard h b = Some rows →
  readBoard (setCellH h b r c v) b = Some (setCell rows r c v).
Proof.
  rewrite !readBoard_Some. intros Hnd Hrep. unfold setCellH, setCell.
  pose proof (Forall2_length _ _ _ Hrep) as Hlen.
  destruct (b !! r) as [l|] eqn:Hl.
  - apply Forall2_same_length_lookup. split; [by rewrite length_alter|].
    intros i l' row' Hl' Hrow'.
    destruct (decide (i = r)) as [->|Hne].
    + simplify_eq. rewrite list_lookup_alter_eq in Hrow'.
      destruct (rows !! r) as [row|] eqn:Hrow; simplify_eq/=.
      rewrite lookup_alter_eq.
      by rewrite (Forall2_lookup_lr _ _ _ _ _ _ Hrep Hl Hrow).
    + rewrite list_lookup_alter_ne in Hrow' by done.
      rewrite lookup_alter_ne.
      * by apply (Forall2_lookup_lr _ _ _ _ _ _ Hrep Hl' Hrow').
      * intros ->. apply Hne. symmetry. by eapply NoDup_lookup.
  - apply lookup_ge_None in Hl. rewrite Hlen in Hl.
    replace (alter (<[c:=v]>) r rows) with rows; [done|].
    apply list_eq. intros i. destruct (decide (i = r)) as [->|Hne].
    + rewrite list_lookup_alter_eq. by rewrite (lookup_ge_None_2 rows r).
    + by rewrite list_lookup_alter_ne.
Qed.

(** New arrays: the heap only grows, the new addresses are distinct,
    not in use before, and hold the rows. *)
Lemma allocRows_spec rows h ls h' :
  allocRows h rows = (ls, h') →
  h ⊆ h' ∧ readBoard h' ls = Some rows ∧ NoDup ls ∧ ∀ l, l ∈ ls → l ∉ dom h.
Proof.
  revert h ls h'. induction rows as [|row rest IH]; intros h ls h'; simpl.
  { intros [= <- <-]. split; [done|]. split; [done|].
    split; [constructor|]. intros l Hl. by apply elem_of_nil in Hl. }
  set (l := fresh (dom h)).
  assert (l ∉ dom h) as Hfresh by apply is_fresh.
  destruct (allocRows (<[l:=row]> h) rest) as [ls0 h0] eqn:Hrest.
  intros [= <- <-].
  destruct (IH _ _ _ Hrest) as (Hsub & Hrep & Hnd & Hnew).
  assert (h0 !! l = Some row) as Hl
    by (eapply lookup_weaken; [apply lookup_insert_eq|done]).
  assert (l ∉ ls0) as Hnotin.
  { intros Hin. apply (Hnew l Hin). rewrite dom_insert_L.
    apply elem_of_union. left. by apply elem_of_singleton. }
  split; [|split; [|split]].
  - etrans; [|done]. apply insert_subseteq. by apply not_elem_of_dom.
  - apply readBoard_Some. constructor; [done|]. by apply readBoard_Some.
  - by constructor.
  - intros l' Hl'. apply elem_of_cons in Hl' as [->|Hl']; [done|].
    specialize (Hnew l' Hl'). rewrite dom_insert_L in Hnew.
    intros Hdom. apply Hnew, elem_of_union. by right.
Qed.

(** The loop writes to rows of [puzzle] only. *)
Lemma carveH_frame fuel h puzzle attempts k h' k' :
  carveH draw fuel h puzzle attempts k = Some (h', k') →
  ∀ l, l ∉ puzzle → h' !! l = h !! l.
Proof.
  revert h attempts k. induction fuel as [|fuel IH]; intros h attempts k;
    destruct attempts as [|attempts]; simpl; try done.
  - by intros [= <- <-].
  - by intros [= <- <-].
  - case_bool_decide.
    + intros Hrun l Hl. rewrite (IH _ _ _ Hrun l Hl). unfold setCellH.
      destruct (puzzle !! randomBelow draw k 9) as [l'|] eqn:Hl'; [|done].
      apply lookup_alter_ne. intros ->. apply Hl.
      by eapply list_elem_of_lookup_2.
    + apply IH.
Qed.

(** The loop on the heap does what the loop on values does. *)
Lemma carveH_carve fuel h puzzle rows attempts k h' k' :
  NoDup puzzle → readBoard h puzzle = Some rows →
  carveH draw fuel h puzzle attempts k = Some (h', k') →
  ∃ rows', readBoard h' puzzle = Some rows' ∧
           carve draw fuel rows attempts k = Some (rows', k').
Proof.
  intros Hnd. revert h rows attempts k.
  induction fuel as [|fuel IH]; intros h rows attempts k Hrep;
    destruct attempts as [|attempts]; simpl; try done.
  - intros [= <- <-]. eauto.
  - intros [= <- <-]. eauto.
  - rewrite (cellAtH_readBoard h puzzle rows) by done.
    case_bool_decide.
    + apply IH. by apply readBoard_setCellH.
    + by apply IH.
Qed.

Lemma carve_carveH fuel h puzzle rows attempts k rows' k' :
  NoDup puzzle → readBoard h puzzle = Some rows →
  carve draw fuel rows attempts k = Some (rows', k') →
  ∃ h', carveH draw fuel h puzzle attempts k = Some (h', k') ∧
        readBoard h' puzzle = Some rows'.
Proof.
  intros Hnd. revert h rows attempts k.
  induction fuel as [|fuel IH]; intros h rows attempts k Hrep;
    destruct attempts as [|attempts]; simpl; try done.
  - intros [= <- <-]. eauto.
  - intros [= <- <-]. eauto.
  - rewrite (cellAtH_readBoard h puzzle rows) by done.
    case_bool_decide.
    + apply IH. by apply readBoard_setCellH.
    + by apply IH.
Qed.

Lemma createPuzzleH_createPuzzle fuel h b rows difficulty k p h' k' :
  readBoard h b = Some rows →
  createPuzzleH draw fuel h b difficulty k = Some (p, h', k') →
  ∃ rows', readBoard h' p = Some rows' ∧
           createPuzzle draw fuel rows difficulty k = Some (rows', k').
Proof.
  unfold createPuzzleH, createPuzzle, jsonCopyH. intros Hrep Hrun.
  rewrite Hrep in Hrun. simpl in Hrun.
  destruct (allocRows h (jsonCopy rows)) as [ls h1] eqn:Halloc.
  apply allocRows_spec in Halloc as (_ & Hrep1 & Hnd & _).
  apply bind_Some in Hrun as ([h2 k2] & Hloop & Hrun). simplify_eq.
  by eapply carveH_carve.
Qed.

Lemma createPuzzleH_frame fuel h b difficulty k p h' k' :
  createPuzzleH draw fuel h b difficulty k = Some (p, h', k') →
  ∀ l, l ∈ dom h → h' !! l = h !! l.
Proof.
  unfold createPuzzleH, jsonCopyH. intros Hrun l Hl.
  apply bind_Some in Hrun as ([ls h1] & Hcopy & Hrun).
  apply bind_Some in Hcopy as (rows & Hrep & Hcopy).
  injection Hcopy as Halloc.
  apply bind_Some in Hrun as ([h2 k2] & Hloop & Hrun).
  injection Hrun as <- <- <-.
  apply allocRows_spec in Halloc as (Hsub & _ & _ & Hnew).
  rewrite (carveH_frame _ _ _ _ _ _ _ Hloop).
  - apply elem_of_dom in Hl as [row Hrow]. rewrite Hrow.
    by eapply lookup_weaken.
  - intros Hin. by apply (Hnew l Hin).
Qed.

Lemma createPuzzle_createPuzzleH fuel h b rows difficulty k rows' k' :
  readBoard h b = Some rows →
  createPuzzle draw fuel rows difficulty k = Some (rows', k') →
  ∃ p h', createPuzzleH draw fuel h b difficulty k = Some (p, h', k') ∧
          readBoard h' p = Some rows'.
Proof.
  unfold createPuzzleH, createPuzzle, jsonCopyH. intros Hrep Hrun.
  rewrite Hrep. simpl.
  destruct (allocRows h (jsonCopy rows)) as [ls h1] eqn:Halloc.
  apply allocRows_spec in Halloc as (_ & Hrep1 & Hnd & _).
  destruct (carve_carveH _ _ _ _ _ _ _ _ Hnd Hrep1 Hrun) as (h' & Hloop & Hrep').
  exists ls, h'. by rewrite Hloop.
Qed.

Lemma readBoard_frame h h' b rows :
  (∀ l, l ∈ dom h → h' !! l = h !! l) →
  readBoard h b = Some rows → readBoard h' b = Some rows.
Proof.
  rewrite !readBoard_Some. intros Hframe Hrep.
  eapply Forall2_impl; [done|]. intros l row Hl. simpl in *.
  rewrite Hframe; [done|]. apply elem_of_dom; eauto.
Qed.

End HeapCarver.

(** The heap tells a copy from an alias: the loop run on the rows of the
    argument itself, without the copy, does change the argument. *)
Lemma carveH_without_copy_changes_input :
  ∃ h' k', carveH fairDraw 200 exampleHeap.2 exampleHeap.1 35 0 = Some (h', k') ∧
           readBoard h' exampleHeap.1 ≠ Some solvedExample.
Proof.
  destruct (carveH fairDraw 200 exampleHeap.2 exampleHeap.1 35 0)
    as [[h' k']|] eqn:Hrun; [|vm_compute in Hrun; discriminate Hrun].
  exists h', k'. split; [done|]. intros Hsame.
  assert (readBoard exampleHeap.2 exampleHeap.1 = Some solvedExample) as Hrep
    by (by vm_compute).
  assert (NoDup exampleHeap.1) as Hnd by compute_done.
  destruct (carveH_carve fairDraw _ _ _ _ _ _ _ _ Hnd Hrep Hrun)
    as (rows' & Hrows' & Hpure).
  apply carve_count in Hpure as (_ & _ & Hcount); [|apply wfBoard_solvedExample].
  assert (rows' = solvedExample) as -> by congruence. lia.
Qed.

(** ** C5: createPuzzle leaves its argument alone *)

(** C5: with the rows of the boards on a heap, a call of createPuzzle that
    returns has changed no array that existed before the call: the
    argument solvedBoard reads as before, cell by cell, and the puzzle
    handed back lives in arrays of its own and holds what the loop on
    values computes; under a fair random source the call returns. *)
Theorem createPuzzle_input_unchanged (draw : nat → nat) (h : Heap)
    (solvedBoard : list nat) (difficulty : Difficulty) (k : nat) :
  (∀ fuel p h' k',
     createPuzzleH draw fuel h solvedBoard difficulty k = Some (p, h', k') →
     (∀ l, l ∈ dom h → h' !! l = h !! l) ∧
     readBoard h' solvedBoard = readBoard h solvedBoard ∧
     (∀ r c, cellAtH h' solvedBoard r c = cellAtH h solvedBoard r c) ∧
     ∃ rows rows', readBoard h solvedBoard = Some rows ∧
                   readBoard h' p = Some rows' ∧
                   createPuzzle draw fuel rows difficulty k = Some (rows', k')) ∧
  (∀ rows, readBoard h solvedBoard = Some rows → wfBoard rows → full rows →
           fairFrom draw k →
           ∃ fuel p h' k',
             createPuzzleH draw fuel h solvedBoard difficulty k = Some (p, h', k')).
Proof.
  split.
  - intros fuel p h' k' Hrun.
    pose proof (createPuzzleH_frame draw _ _ _ _ _ _ _ _ Hrun) as Hframe.
    assert (∃ rows, readBoard h solvedBoard = Some rows) as [rows Hrep].
    { unfold createPuzzleH, jsonCopyH in Hrun.
      destruct (readBoard h solvedBoard) as [rows|]; [eauto|done]. }
    pose proof (readBoard_frame h h' solvedBoard rows Hframe Hrep) as Hrep'.
    split; [done|]. split; [congruence|]. split.
    + intros r c.
      by rewrite (cellAtH_readBoard h' _ rows), (cellAtH_readBoard h _ rows).
    + destruct (createPuzzleH_createPuzzle draw _ _ _ _ _ _ _ _ _ Hrep Hrun)
        as (rows' & Hp & Hpure).
      eauto.
  - intros rows Hrep Hwf Hfull Hfair.
    destruct (createPuzzle_terminates draw rows difficulty k Hwf Hfull Hfair)
      as [fuel [[rows' k'] Hrun]].
    destruct (createPuzzle_createPuzzleH draw _ h solvedBoard _ _ _ _ _ Hrep Hrun)
      as (p & h' & Hheap & _).
    eauto.
Qed.

Lemma createPuzzle_input_unchanged_witness :
  ∃ p h' k',
    createPuzzleH fairDraw 200 exampleHeap.2 exampleHeap.1 Easy 0 = Some (p, h', k') ∧
    readBoard h' exampleHeap.1 = Some solvedExample ∧
    ∃ rows', readBoard h' p = Some rows' ∧ countFilled rows' = 46.
Proof.
  destruct (createPuzzle_input_unchanged fairDraw exampleHeap.2 exampleHeap.1 Easy 0)
    as [Hresult _].
  destruct (createPuzzleH fairDraw 200 exampleHeap.2 exampleHeap.1 Easy 0)
    as [[[p h'] k']|] eqn:Hrun.
  - exists p, h', k'. split; [reflexivity|].
    destruct (Hresult 200 p h' k' Hrun) as (_ & Hsame & _ & rows & rows' & Hrep & Hp & Hpure).
    assert (readBoard exampleHeap.2 exampleHeap.1 = Some solvedExample) as Hex
      by (by vm_compute).
    split; [congruence|]. exists rows'. split; [done|].
    assert (rows = solvedExample) as -> by congruence.
    apply createPuzzle_result in Hpure as (_ & _ & Hcount); [done|..].
    + apply wfBoard_solvedExample.
    + apply validSolution_solvedExample.
  - vm_compute in Hrun. discriminate Hrun.
Defined.

(** ** Scanning for conflicts: the building blocks *)

(** A loop that only ever adds to the set it accumulates. *)
Lemma foldl_add_elem {A} (step : gset string → A → gset string)
    (C : A → string → Prop) (l : list A) (acc : gset string) (s : string) :
  (∀ acc a s, s ∈ step acc a ↔ s ∈ acc ∨ C a s) →
  s ∈ foldl step acc l ↔ s ∈ acc ∨ ∃ a, a ∈ l ∧ C a s.
Proof.
  intros Hstep. revert acc. induction l as [|a l IH]; intros acc; simpl.
  - split; [auto|]. intros [?|(a & Ha & _)]; [done|]. by apply elem_of_nil in Ha.
  - rewrite IH, Hstep. split.
    + intros [[?|?]|(a' & Ha' & ?)]; [auto| |].
      * right. exists a. split; [left|done].
      * right. exists a'. split; [by right|done].
    + intros [?|(a' & Ha' & ?)]; [auto|].
      apply elem_of_cons in Ha' as [->|Ha']; [auto|]. right. eauto.
Qed.

Lemma addIfSeveral_elem {A} (kf : A → string) indices conflicts s :
  s ∈ addIfSeveral kf indices conflicts ↔
  s ∈ conflicts ∨ (1 < length indices ∧ ∃ i, i ∈ indices ∧ s = kf i).
Proof.
  unfold addIfSeveral. destruct (1 <? length indices) eqn:Hlen.
  - apply Nat.ltb_lt in Hlen.
    rewrite (foldl_add_elem _ (λ i s, s = kf i)).
    + split; intros [?|?]; auto. right. tauto.
    + intros acc a s'. rewrite elem_of_union, elem_of_singleton. tauto.
  - apply Nat.ltb_ge in Hlen. split; [auto|]. intros [?|[? _]]; [done|lia].
Qed.

(** More than one element passes a filter exactly when two positions
    hold elements that pass. *)
Lemma filter_length_gt1 {A} (P : A → Prop) `{!∀ x, Decision (P x)} (l : list A) :
  1 < length (filter P l) ↔
  ∃ i j x y, i ≠ j ∧ l !! i = Some x ∧ l !! j = Some y ∧ P x ∧ P y.
Proof.
  induction l as [|a l IH].
  { split; [simpl; lia|]. intros (i & j & x & y & _ & Hi & _). done. }
  rewrite filter_cons. destruct (decide (P a)) as [HPa|HPa]; simpl.
  - split.
    + intros Hlen.
      destruct (filter P l) as [|y l'] eqn:Hfilter; [simpl in Hlen; lia|].
      assert (y ∈ filter P l) as Hy by (rewrite Hfilter; left).
      apply list_elem_of_filter in Hy as [HPy Hy].
      apply list_elem_of_lookup in Hy as [j Hj].
      exists 0, (S j), a, y. auto.
    + intros (i & j & x & y & Hne & Hi & Hj & HPx & HPy).
      assert (∃ z, z ∈ l ∧ P z) as (z & Hz & HPz).
      { destruct i as [|i]; [destruct j as [|j]; [done|]|].
        - exists y. split; [by eapply list_elem_of_lookup_2|done].
        - exists x. split; [by eapply list_elem_of_lookup_2|done]. }
      assert (z ∈ filter P l) as Hin by (by apply list_elem_of_filter).
      destruct (filter P l); [by apply elem_of_nil in Hin|simpl; lia].
  - rewrite IH. split.
    + intros (i & j & x & y & Hne & Hi & Hj & HPx & HPy).
      exists (S i), (S j), x, y. auto.
    + intros (i & j & x & y & Hne & Hi & Hj & HPx & HPy).
      destruct i as [|i]; [by simplify_eq/=|].
      destruct j as [|j]; [by simplify_eq/=|].
      exists i, j, x, y. auto.
Qed.

Lemma filter_length_gt1_NoDup {A} (P : A → Prop) `{!∀ x, Decision (P x)}
    (l : list A) :
  NoDup l →
  1 < length (filter P l) ↔ ∃ x y, x ≠ y ∧ x ∈ l ∧ y ∈ l ∧ P x ∧ P y.
Proof.
  intros Hnd. rewrite filter_length_gt1. split.
  - intros (i & j & x & y & Hne & Hi & Hj & HPx & HPy).
    exists x, y. repeat split; eauto using list_elem_of_lookup_2.
    intros ->. apply Hne. by eapply NoDup_lookup.
  - intros (x & y & Hne & Hx & Hy & HPx & HPy).
    apply list_elem_of_lookup in Hx as [i Hi]. apply list_elem_of_lookup in Hy as [j Hj].
    exists i, j, x, y. repeat split; auto. intros ->. congruence.
Qed.

Lemma indicesWhere_elem {A} (p : A → bool) (l : list A) (z : Z) :
  z ∈ indicesWhere p l ↔ ∃ i x, l !! i = Some x ∧ p x = true ∧ z = Z.of_nat i.
Proof.
  unfold indicesWhere. rewrite list_elem_of_filter, elem_of_lookup_imap. split.
  - intros (Hz & i & x & -> & Hi). exists i, x.
    destruct (p x); [done|]. done.
  - intros (i & x & Hi & Hp & ->). split; [lia|].
    exists i, x. by rewrite Hp.
Qed.

Lemma indicesWhere_length {A} (p : A → bool) (l : list A) :
  1 < length (indicesWhere p l) ↔
  ∃ i j x y, i ≠ j ∧ l !! i = Some x ∧ l !! j = Some y ∧ p x = true ∧ p y = true.
Proof.
  unfold indicesWhere. rewrite filter_length_gt1. split.
  - intros (i & j & zi & zj & Hne & Hi & Hj & Hzi & Hzj).
    rewrite list_lookup_imap in Hi. rewrite list_lookup_imap in Hj.
    destruct (l !! i) as [x|] eqn:Hx; [|done].
    destruct (l !! j) as [y|] eqn:Hy; [|done].
    simpl in Hi, Hj. exists i, j, x, y.
    destruct (p x); [|by simplify_eq]. destruct (p y); [|by simplify_eq]. auto.
  - intros (i & j & x & y & Hne & Hi & Hj & Hpx & Hpy).
    exists i, j, (Z.of_nat i), (Z.of_nat j).
    rewrite !list_lookup_imap, Hi, Hj. simpl. rewrite Hpx, Hpy.
    repeat split; auto; lia.
Qed.

Lemma filter_bind {A B} (P : B → Prop) `{!∀ x, Decision (P x)}
    (f : A → list B) (l : list A) :
  filter P (l ≫= f) = l ≫= (λ x, filter P (f x)).
Proof.
  induction l as [|a l IH]; [done|].
  by rewrite !bind_cons, filter_app, IH.
Qed.

Lemma boxIndices_filter b num br bc :
  boxIndices b num br bc =
  filter (λ p, cellAt b p.1 p.2 = Some (Some num)) (boxOf br bc).
Proof.
  unfold boxIndices, boxOf. rewrite filter_bind.
  apply list_bind_ext; [|done]. intros i. rewrite filter_bind.
  apply list_bind_ext; [|done]. intros j. cbv zeta.
  rewrite filter_cons, filter_nil. simpl.
  case_bool_decide; by case_decide.
Qed.

Lemma elem_of_boxOf br bc r c :
  br < 3 → bc < 3 →
  (r, c) ∈ boxOf br bc ↔ r < 9 ∧ c < 9 ∧ r / 3 = br ∧ c / 3 = bc.
Proof.
  intros Hbr Hbc. unfold boxOf. rewrite list_elem_of_bind. split.
  - intros (i & Hin & Hi). apply elem_of_seq in Hi.
    apply list_elem_of_bind in Hin as (j & Hin & Hj). apply elem_of_seq in Hj.
    apply list_elem_of_singleton in Hin. simplify_eq.
    pose proof (Nat.div_mod_eq (br * 3 + i) 3).
    pose proof (Nat.mod_upper_bound (br * 3 + i) 3).
    pose proof (Nat.div_mod_eq (bc * 3 + j) 3).
    pose proof (Nat.mod_upper_bound (bc * 3 + j) 3). lia.
  - intros (Hr & Hc & <- & <-).
    pose proof (Nat.div_mod_eq r 3). pose proof (Nat.mod_upper_bound r 3).
    pose proof (Nat.div_mod_eq c 3). pose proof (Nat.mod_upper_bound c 3).
    exists (r mod 3). split; [|apply elem_of_seq; lia].
    apply list_elem_of_bind. exists (c mod 3). split; [|apply elem_of_seq; lia].
    apply list_elem_of_singleton. f_equal; lia.
Qed.

Lemma NoDup_boxOf br bc : br < 3 → bc < 3 → NoDup (boxOf br bc).
Proof.
  intros Hbr Hbc. cases_below br 3; cases_below bc 3; compute_done.
Qed.

(** ** Scanning for conflicts: rows, columns, boxes *)

Lemma cellAt_Some b r c x :
  cellAt b r c = Some x ↔ ∃ row, b !! r = Some row ∧ row !! c = Some x.
Proof. unfold cellAt. apply bind_Some. Qed.

Lemma cellAt_Some_range b r c x :
  wfBoard b → cellAt b r c = Some x → r < 9 ∧ c < 9.
Proof.
  intros [Hlen Hrows] Hx. apply cellAt_Some in Hx as (row & Hrow & Hx).
  rewrite Forall_forall in Hrows.
  assert (length row = 9) as Hl by (apply Hrows; by eapply list_elem_of_lookup_2).
  apply lookup_lt_Some in Hrow, Hx. lia.
Qed.

(** The indices a scan adds: those of a list with several hits. *)
Lemma indices_conflict {A} (p : A → bool) (l : list A) (z : Z) :
  1 < length (indicesWhere p l) ∧ z ∈ indicesWhere p l ↔
  ∃ i j x y, z = Z.of_nat i ∧ j ≠ i ∧ l !! i = Some x ∧ l !! j = Some y ∧
             p x = true ∧ p y = true.
Proof.
  rewrite indicesWhere_length, indicesWhere_elem. split.
  - intros [(i & j & x & y & Hne & Hi & Hj & Hpx & Hpy) (n & w & Hn & Hpw & ->)].
    destruct (decide (i = n)) as [->|Hin].
    + exists n, j, w, y. auto 10.
    + exists n, i, w, x. auto 10.
  - intros (i & j & x & y & -> & Hne & Hi & Hj & Hpx & Hpy). split.
    + exists i, j, x, y. auto 10.
    + exists i, x. auto.
Qed.

Lemma checkRows_elem b num acc s :
  wfBoard b →
  s ∈ checkRows b num acc ↔
  s ∈ acc ∨ ∃ r c c', c' ≠ c ∧ cellAt b r c = Some (Some num) ∧
                     cellAt b r c' = Some (Some num) ∧ s = keyOf r c.
Proof.
  intros Hwf. unfold checkRows.
  rewrite (foldl_add_elem _ (λ r s,
    ∃ z, (1 < length (indicesWhere (holdsNum num) (default [] (b !! r))) ∧
          z ∈ indicesWhere (holdsNum num) (default [] (b !! r))) ∧
         s = key (Z.of_nat r) z)).
  2:{ intros acc' r s'. cbv zeta. rewrite addIfSeveral_elem. split.
      - intros [?|(Hlen & z & Hz & ->)]; eauto 6.
      - intros [?|(z & [Hlen Hz] & ->)]; eauto 6. }
  apply or_iff_compat_l. split.
  - intros (r & Hr & z & Hz & ->). apply elem_of_seq in Hr.
    destruct (lookup_lt_is_Some_2 b r) as [row Hrow]; [destruct Hwf; lia|].
    rewrite Hrow in Hz. simpl in Hz.
    apply indices_conflict in Hz as (c & c' & x & y & -> & Hne & Hc & Hc' & Hx & Hy).
    apply bool_decide_eq_true in Hx, Hy. subst x y.
    exists r, c, c'. split; [done|]. rewrite !cellAt_Some.
    split; [eauto|]. split; [eauto|done].
  - intros (r & c & c' & Hne & Hc & Hc' & ->).
    destruct (cellAt_Some_range b r c _ Hwf Hc) as [Hr _].
    apply cellAt_Some in Hc as (row & Hrow & Hc).
    apply cellAt_Some in Hc' as (row' & Hrow' & Hc'). simplify_eq.
    exists r. split; [apply elem_of_seq; lia|].
    exists (Z.of_nat c). split; [|done]. rewrite Hrow. simpl.
    apply indices_conflict. exists c, c', (Some num), (Some num).
    unfold holdsNum. rewrite !bool_decide_eq_true_2 by done. auto 10.
Qed.

Lemma checkColumns_elem b num acc s :
  wfBoard b →
  s ∈ checkColumns b num acc ↔
  s ∈ acc ∨ ∃ r c r', r' ≠ r ∧ cellAt b r c = Some (Some num) ∧
                     cellAt b r' c = Some (Some num) ∧ s = keyOf r c.
Proof.
  intros Hwf. unfold checkColumns.
  rewrite (foldl_add_elem _ (λ c s,
    ∃ z, (1 < length (indicesWhere
                        (λ row : list cell, bool_decide (row !! c = Some (Some num))) b) ∧
          z ∈ indicesWhere
                (λ row : list cell, bool_decide (row !! c = Some (Some num))) b) ∧
         s = key z (Z.of_nat c))).
  2:{ intros acc' c s'. cbv zeta. rewrite addIfSeveral_elem. split.
      - intros [?|(Hlen & z & Hz & ->)]; eauto 6.
      - intros [?|(z & [Hlen Hz] & ->)]; eauto 6. }
  apply or_iff_compat_l. split.
  - intros (c & Hc & z & Hz & ->).
    apply indices_conflict in Hz as (r & r' & x & y & -> & Hne & Hr & Hr' & Hx & Hy).
    apply bool_decide_eq_true in Hx, Hy.
    exists r, c, r'. split; [done|]. rewrite !cellAt_Some.
    split; [eauto|]. split; [eauto|done].
  - intros (r & c & r' & Hne & Hr & Hr' & ->).
    destruct (cellAt_Some_range b r c _ Hwf Hr) as [_ Hc].
    apply cellAt_Some in Hr as (row & Hrow & Hr).
    apply cellAt_Some in Hr' as (row' & Hrow' & Hr').
    exists c. split; [apply elem_of_seq; lia|].
    exists (Z.of_nat r). split; [|done].
    apply indices_conflict. exists r, r', row, row'.
    rewrite !bool_decide_eq_true_2 by done. auto 10.
Qed.

Lemma checkBoxes_elem b num acc s :
  s ∈ checkBoxes b num acc ↔
  s ∈ acc ∨ ∃ r c r' c', r < 9 ∧ c < 9 ∧ r' < 9 ∧ c' < 9 ∧ (r', c') ≠ (r, c) ∧
                        sameBox r c r' c' ∧ cellAt b r c = Some (Some num) ∧
                        cellAt b r' c' = Some (Some num) ∧ s = keyOf r c.
Proof.
  unfold checkBoxes.
  set (C := λ (br bc : nat) (s : string),
    1 < length (boxIndices b num br bc) ∧
    ∃ p, p ∈ boxIndices b num br bc ∧ s = keyOf p.1 p.2).
  rewrite (foldl_add_elem _ (λ br s, ∃ bc, bc ∈ seq 0 3 ∧ C br bc s)).
  2:{ intros acc' br s'. rewrite (foldl_add_elem _ (C br)); [done|].
      intros acc'' bc s''. rewrite addIfSeveral_elem. unfold C.
      apply or_iff_compat_l. apply and_iff_compat_l.
      split; intros ([r c] & Hp & ->); by exists (r, c). }
  apply or_iff_compat_l. split.
  - intros (br & Hbr & bc & Hbc & Hlen & [r c] & Hp & ->).
    apply elem_of_seq in Hbr, Hbc.
    rewrite boxIndices_filter in Hlen, Hp.
    apply filter_length_gt1_NoDup in Hlen
      as ([r1 c1] & [r2 c2] & Hne & H1 & H2 & Hv1 & Hv2);
      [|apply NoDup_boxOf; lia].
    apply list_elem_of_filter in Hp as [Hv Hp]. simpl in *.
    apply elem_of_boxOf in Hp as (Hr & Hc & Hbr' & Hbc'); [|lia..].
    apply elem_of_boxOf in H1 as (Hr1 & Hc1 & Hbr1 & Hbc1); [|lia..].
    apply elem_of_boxOf in H2 as (Hr2 & Hc2 & Hbr2 & Hbc2); [|lia..].
    destruct (decide ((r1, c1) = (r, c))) as [Heq|Hne1].
    + exists r, c, r2, c2. unfold sameBox.
      repeat split; auto; try congruence.
    + exists r, c, r1, c1. unfold sameBox.
      repeat split; auto; congruence.
  - intros (r & c & r' & c' & Hr & Hc & Hr' & Hc' & Hne & [Hbr Hbc] & Hv & Hv' & ->).
    assert (r / 3 < 3 ∧ c / 3 < 3) as [? ?].
    { pose proof (Nat.div_mod_eq r 3). pose proof (Nat.div_mod_eq c 3). lia. }
    exists (r / 3). split; [apply elem_of_seq; lia|].
    exists (c / 3). split; [apply elem_of_seq; lia|].
    unfold C. rewrite boxIndices_filter. split.
    + apply filter_length_gt1_NoDup; [by apply NoDup_boxOf|].
      exists (r, c), (r', c'). repeat split; auto.
      * by apply elem_of_boxOf.
      * by apply elem_of_boxOf.
    + exists (r, c). split; [|done].
      apply list_elem_of_filter. split; [done|]. by apply elem_of_boxOf.
Qed.

(** What the whole scan collects. *)
Lemma findAllConflicts_elem b s :
  wfBoard b →
  s ∈ findAllConflicts b ↔
  ∃ num r c, (1 ≤ num ≤ 9)%Z ∧ r < 9 ∧ c < 9 ∧ s = keyOf r c ∧
             cellAt b r c = Some (Some num) ∧ occursElsewhere b r c num.
Proof.
  intros Hwf. unfold findAllConflicts.
  rewrite (foldl_add_elem _ (λ num s,
    ∃ r c, r < 9 ∧ c < 9 ∧ s = keyOf r c ∧
           cellAt b r c = Some (Some num) ∧ occursElsewhere b r c num)).
  - rewrite elem_of_empty. split.
    + intros [[]|(num & Hnum & r & c & H)]. apply elem_of_oneToNine in Hnum. eauto 10.
    + intros (num & r & c & Hnum & H). right. exists num.
      split; [by apply elem_of_oneToNine|]. eauto 10.
  - intros acc num s'.
    rewrite checkBoxes_elem, checkColumns_elem, checkRows_elem by done.
    unfold occursElsewhere, sameUnit. split.
    + intros [[[?|Hrow]|Hcol]|Hbox]; [by left|right..].
      * destruct Hrow as (r & c & c' & Hne & Hv & Hv' & ->).
        destruct (cellAt_Some_range b r c _ Hwf Hv) as [Hr Hc].
        destruct (cellAt_Some_range b r c' _ Hwf Hv') as [_ Hc'].
        exists r, c. repeat split; auto. exists r, c'.
        repeat split; auto; congruence.
      * destruct Hcol as (r & c & r' & Hne & Hv & Hv' & ->).
        destruct (cellAt_Some_range b r c _ Hwf Hv) as [Hr Hc].
        destruct (cellAt_Some_range b r' c _ Hwf Hv') as [Hr' _].
        exists r, c. repeat split; auto. exists r', c.
        repeat split; auto; congruence.
      * destruct Hbox as (r & c & r' & c' & Hr & Hc & Hr' & Hc' & Hne & Hb & Hv & Hv' & ->).
        exists r, c. repeat split; auto. exists r', c'. repeat split; auto.
    + intros [?|(r & c & Hr & Hc & -> & Hv & r' & c' & Hr' & Hc' & Hne & Hu & Hv')];
        [by repeat left|].
      destruct Hu as [<-|[<-|Hbox]].
      * left. left. right. exists r, c, c'. repeat split; auto; congruence.
      * left. right. exists r, c, r'. repeat split; auto; congruence.
      * right. exists r, c, r', c'. repeat split; auto; apply Hbox.
Qed.

(** ** Conflicts and units *)

Lemma rowOf_in_units r : r < 9 → rowOf r ∈ units.
Proof.
  intros Hr. unfold units. apply elem_of_app. left.
  apply list_elem_of_fmap. exists r. split; [done|]. apply elem_of_seq. lia.
Qed.

Lemma colOf_in_units c : c < 9 → colOf c ∈ units.
Proof.
  intros Hc. unfold units. apply elem_of_app. right. apply elem_of_app. left.
  apply list_elem_of_fmap. exists c. split; [done|]. apply elem_of_seq. lia.
Qed.

Lemma boxOf_in_units br bc : br < 3 → bc < 3 → boxOf br bc ∈ units.
Proof.
  intros Hbr Hbc. unfold units. apply elem_of_app. right. apply elem_of_app. right.
  apply list_elem_of_bind. exists br. split; [|apply elem_of_seq; lia].
  apply list_elem_of_bind. exists bc. split; [|apply elem_of_seq; lia].
  by apply list_elem_of_singleton.
Qed.

Lemma elem_of_rowOf r r' c : (r', c) ∈ rowOf r ↔ r' = r ∧ c < 9.
Proof.
  unfold rowOf. rewrite list_elem_of_fmap. split.
  - intros (x & [= -> ->] & Hx). apply elem_of_seq in Hx. lia.
  - intros [-> Hc]. exists c. split; [done|]. apply elem_of_seq. lia.
Qed.

Lemma elem_of_colOf c r c' : (r, c') ∈ colOf c ↔ c' = c ∧ r < 9.
Proof.
  unfold colOf. rewrite list_elem_of_fmap. split.
  - intros (x & [= -> ->] & Hx). apply elem_of_seq in Hx. lia.
  - intros [-> Hr]. exists r. split; [done|]. apply elem_of_seq. lia.
Qed.

Lemma unitOk_of_units u : u ∈ units → unitOk u.
Proof.
  intros Hu. pose proof units_ok as Hall. rewrite Forall_forall in Hall. auto.
Qed.

Lemma occurrences_ge2 b v u :
  NoDup u →
  2 ≤ occurrences b v u ↔
  ∃ p q, p ≠ q ∧ p ∈ u ∧ q ∈ u ∧ cellAt b p.1 p.2 = Some (Some v) ∧
         cellAt b q.1 q.2 = Some (Some v).
Proof.
  intros Hnd. unfold occurrences.
  by rewrite <- (filter_length_gt1_NoDup _ u Hnd).
Qed.

(** The two readings of "is in conflict" agree. *)
Lemma inConflict_dupInUnit b r c :
  r < 9 → c < 9 → inConflict b r c ↔ dupInUnit b r c.
Proof.
  intros Hr Hc. unfold inConflict, dupInUnit, occursElsewhere. split.
  - intros (v & Hv & r' & c' & Hr' & Hc' & Hne & Hu & Hv').
    assert (r / 3 < 3 ∧ c / 3 < 3) as [? ?].
    { pose proof (Nat.div_mod_eq r 3). pose proof (Nat.div_mod_eq c 3). lia. }
    exists v.
    assert (∃ u, u ∈ units ∧ (r, c) ∈ u ∧ (r', c') ∈ u) as (u & Hin & H1 & H2).
    { destruct Hu as [<-|[<-|[Hbr Hbc]]].
      - exists (rowOf r). split; [by apply rowOf_in_units|].
        by rewrite !elem_of_rowOf.
      - exists (colOf c). split; [by apply colOf_in_units|].
        by rewrite !elem_of_colOf.
      - exists (boxOf (r / 3) (c / 3)). split; [by apply boxOf_in_units|].
        by rewrite !elem_of_boxOf. }
    exists u. split; [done|]. split; [done|]. split; [done|].
    apply occurrences_ge2; [by apply unitOk_of_units|].
    exists (r, c), (r', c'). repeat split; auto.
  - intros (v & u & Hv & Hin & Hrc & Hocc).
    destruct (unitOk_of_units u Hin) as (Hnd & _ & Hrange & Hpair).
    rewrite Forall_forall in Hrange. rewrite Forall_forall in Hpair.
    apply occurrences_ge2 in Hocc as (p & q & Hne & Hp & Hq & Hvp & Hvq); [|done].
    exists v. split; [done|].
    assert (∃ x, x ∈ u ∧ x ≠ (r, c) ∧ cellAt b x.1 x.2 = Some (Some v))
      as ([r' c'] & Hx & Hxne & Hvx).
    { destruct (decide (p = (r, c))) as [->|Hpne]; [exists q|exists p]; auto. }
    destruct (Hrange _ Hx) as [Hr' Hc']. simpl in *.
    exists r', c'. repeat split; auto.
    pose proof (Hpair _ Hrc) as Hrow. rewrite Forall_forall in Hrow.
    apply (Hrow _ Hx).
Qed.

Lemma keyOf_inj_cells :
  Forall (λ p, Forall (λ q, keyOf p.1 p.2 = keyOf q.1 q.2 → p = q) allCells) allCells.
Proof. compute_done. Qed.

Lemma keyOf_inj r c r' c' :
  r < 9 → c < 9 → r' < 9 → c' < 9 → keyOf r c = keyOf r' c' → r = r' ∧ c = c'.
Proof.
  intros Hr Hc Hr' Hc' Hkey.
  pose proof keyOf_inj_cells as Hall. rewrite Forall_forall in Hall.
  specialize (Hall (r, c) ltac:(by apply elem_of_allCells)).
  rewrite Forall_forall in Hall.
  specialize (Hall (r', c') ltac:(by apply elem_of_allCells) Hkey).
  by simplify_eq.
Qed.

Lemma findAllConflicts_inConflict b s :
  wfBoard b → valuesInRange b →
  s ∈ findAllConflicts b ↔ ∃ r c, r < 9 ∧ c < 9 ∧ s = keyOf r c ∧ inConflict b r c.
Proof.
  intros Hwf Hrange. rewrite findAllConflicts_elem by done. unfold inConflict. split.
  - intros (num & r & c & _ & Hr & Hc & -> & Hv & Hocc). eauto 10.
  - intros (r & c & Hr & Hc & -> & v & Hv & Hocc).
    exists v, r, c. repeat split; auto; by eapply Hrange.
Qed.

(** ** C6: findAllConflicts *)

(** C6: on a 9x9 grid whose numbers are within 1..9, findAllConflicts
    returns exactly the keys "r-c" of the positions whose number occurs two
    or more times in a row, column or box containing the position: every
    member of the result is the key of such a position, the key of an
    in-range position is in the result if and only if the position is such
    a position, and different in-range positions have different keys; the
    result is empty on a grid without duplicates, and two cells of one unit
    that hold the same number are both in the result. *)
Theorem findAllConflicts_spec (b : Board) :
  wfBoard b → valuesInRange b →
  (∀ s, s ∈ findAllConflicts b ↔
        ∃ r c, r < 9 ∧ c < 9 ∧ s = keyOf r c ∧ dupInUnit b r c) ∧
  (∀ r c, r < 9 → c < 9 → (keyOf r c ∈ findAllConflicts b ↔ dupInUnit b r c)) ∧
  (∀ r c r' c', r < 9 → c < 9 → r' < 9 → c' < 9 →
                keyOf r c = keyOf r' c' → r = r' ∧ c = c') ∧
  (consistent b → findAllConflicts b = ∅) ∧
  (∀ r c r' c' v,
     r < 9 → c < 9 → r' < 9 → c' < 9 → (r', c') ≠ (r, c) →
     sameUnit r c r' c' →
     cellAt b r c = Some (Some v) → cellAt b r' c' = Some (Some v) →
     keyOf r c ∈ findAllConflicts b ∧ keyOf r' c' ∈ findAllConflicts b).
Proof.
  intros Hwf Hrange. split; [|split; [|split; [|split]]].
  - intros s. rewrite findAllConflicts_inConflict by done. split.
    + intros (r & c & Hr & Hc & -> & Hconf).
      exists r, c. by rewrite <- inConflict_dupInUnit.
    + intros (r & c & Hr & Hc & -> & Hdup).
      exists r, c. by rewrite inConflict_dupInUnit.
  - intros r c Hr Hc. rewrite findAllConflicts_inConflict by done.
    rewrite <- (inConflict_dupInUnit b r c Hr Hc). split.
    + intros (r' & c' & Hr' & Hc' & Hkey & Hconf).
      apply keyOf_inj in Hkey as [-> ->]; done.
    + intros Hconf. exists r, c. auto.
  - intros r c r' c' Hr Hc Hr' Hc' Hkey. by apply keyOf_inj.
  - intros Hcons. apply set_eq. intros s. rewrite elem_of_empty.
    rewrite findAllConflicts_inConflict by done. split; [|done].
    intros (r & c & Hr & Hc & _ & v & Hv & Hocc). by apply (Hcons r c v).
  - intros r c r' c' v Hr Hc Hr' Hc' Hne Hu Hv Hv'.
    rewrite !findAllConflicts_inConflict by done. split.
    + exists r, c. repeat split; auto. exists v. split; [done|].
      exists r', c'. auto.
    + exists r', c'. repeat split; auto. exists v. split; [done|].
      exists r, c. repeat split; auto using sameUnit_sym; congruence.
Qed.

Lemma findAllConflicts_spec_witness :
  (∀ s, s ∈ findAllConflicts pairBoard ↔
        ∃ r c, r < 9 ∧ c < 9 ∧ s = keyOf r c ∧ dupInUnit pairBoard r c) ∧
  (keyOf 0 3 ∈ findAllConflicts pairBoard ↔ dupInUnit pairBoard 0 3) ∧
  (keyOf 0 1 ∈ findAllConflicts pairBoard ↔ dupInUnit pairBoard 0 1) ∧
  (consistent pairBoard → findAllConflicts pairBoard = ∅) ∧
  (keyOf 0 0 ∈ findAllConflicts pairBoard ∧ keyOf 0 3 ∈ findAllConflicts pairBoard).
Proof.
  destruct (findAllConflicts_spec pairBoard)
    as (Hexact & Hcell & _ & Hnone & Hboth).
  - split; [reflexivity | repeat constructor].
  - apply cellsInRange_sound. reflexivity.
  - split; [exact Hexact|].
    split; [apply Hcell; lia|]. split; [apply Hcell; lia|].
    split; [exact Hnone|].
    apply (Hboth 0 0 0 3 5%Z); try lia; try reflexivity.
    + intros [= ?].
    + by left.
Defined.

(** ** C10: the two conflict tests agree *)

(** C10: on a 9x9 grid whose numbers are within 1..9 and for in-range
    (r, c), the key "r-c" is in findAllConflicts(grid) if and only if
    isCellInConflict(grid, r, c) returns true. *)
Theorem conflict_tests_agree (b : Board) (r c : nat) :
  wfBoard b → valuesInRange b → r < 9 → c < 9 →
  keyOf r c ∈ findAllConflicts b ↔ isCellInConflict b r c = true.
Proof.
  intros Hwf Hrange Hr Hc.
  rewrite findAllConflicts_inConflict, isCellInConflict_true by done.
  split.
  - intros (r' & c' & Hr' & Hc' & Hkey & Hconf).
    apply keyOf_inj in Hkey as [-> ->]; done.
  - intros Hconf. exists r, c. auto.
Qed.

Lemma conflict_tests_agree_witness :
  keyOf 0 3 ∈ findAllConflicts pairBoard ↔ isCellInConflict pairBoard 0 3 = true.
Proof.
  apply (conflict_tests_agree pairBoard 0 3).
  - split; [reflexivity | repeat constructor].
  - apply cellsInRange_sound. reflexivity.
  - lia.
  - lia.
Defined.

(** * Part V: the rest of the code *)

(** ** isCellRelated *)

Lemma isCellRelated_true a b :
  isCellRelated (Some a) (Some b) = true ↔
  a ≠ b ∧ sameUnit (CellPosition.row a) (CellPosition.col a)
                   (CellPosition.row b) (CellPosition.col b).
Proof.
  destruct a as [r c], b as [r' c']. unfold isCellRelated, sameUnit, sameBox.
  cbn [CellPosition.row CellPosition.col]. cbv zeta.
  rewrite andb_true_iff, negb_true_iff, andb_false_iff, !orb_true_iff,
    andb_true_iff, !Nat.eqb_eq, !Nat.eqb_neq.
  split.
  - intros [Hu Hne]. split; [|tauto]. intros [= -> ->]. lia.
  - intros [Hne Hu]. split; [tauto|].
    destruct (decide (r = r')) as [->|]; [|by left].
    right. intros ->. done.
Qed.

(** X1: isCellRelated answers true exactly for two different cells that
    share a row, a column or a 3x3 box; it is symmetric, never relates a
    cell to itself, and answers false when either argument is null. *)
Theorem isCellRelated_peers :
  (∀ a b, isCellRelated (Some a) (Some b) = true ↔
          a ≠ b ∧ sameUnit (CellPosition.row a) (CellPosition.col a)
                           (CellPosition.row b) (CellPosition.col b)) ∧
  (∀ x y, isCellRelated x y = isCellRelated y x) ∧
  (∀ x, isCellRelated x x = false) ∧
  (∀ x, isCellRelated None x = false ∧ isCellRelated x None = false).
Proof.
  split; [apply isCellRelated_true|]. split; [|split].
  - intros [a|] [b|]; try done.
    destruct (isCellRelated (Some a) (Some b)) eqn:Hab.
    + symmetry. apply isCellRelated_true in Hab as [Hne Hu].
      apply isCellRelated_true. split; [done|by apply sameUnit_sym].
    + symmetry. apply not_true_iff_false. intros Hba.
      apply not_true_iff_false in Hab. apply Hab.
      apply isCellRelated_true in Hba as [Hne Hu].
      apply isCellRelated_true. split; [done|by apply sameUnit_sym].
  - intros [a|]; [|done]. apply not_true_iff_false.
    intros Hrel. by apply isCellRelated_true in Hrel as [Hne _].
  - intros [a|]; done.
Qed.

(** X2: every cell of the grid is related to exactly twenty cells of the
    grid. *)
Theorem isCellRelated_twenty (r c : nat) :
  r < 9 → c < 9 →
  length (filter (λ p, isCellRelated (Some (CellPosition.mk r c))
                                     (Some (CellPosition.mk p.1 p.2)) = true)
            allCells) = 20.
Proof.
  intros Hr Hc. cases_below r 9; cases_below c 9; by vm_compute.
Qed.

Lemma isCellRelated_twenty_witness :
  length (filter (λ p, isCellRelated (Some (CellPosition.mk 4 4))
                                     (Some (CellPosition.mk p.1 p.2)) = true)
            allCells) = 20.
Proof. apply (isCellRelated_twenty 4 4); lia. Defined.

(** X3: on a 9x9 grid with numbers in 1..9, the key of an in-range cell is
    in findAllConflicts exactly when some cell of the grid that
    isCellRelated relates to it holds the same number. *)
Theorem conflict_iff_related_equal (b : Board) (r c : nat) :
  wfBoard b → valuesInRange b → r < 9 → c < 9 →
  keyOf r c ∈ findAllConflicts b ↔
  ∃ r' c' v, r' < 9 ∧ c' < 9 ∧
    isCellRelated (Some (CellPosition.mk r c)) (Some (CellPosition.mk r' c')) = true ∧
    cellAt b r c = Some (Some v) ∧ cellAt b r' c' = Some (Some v).
Proof.
  intros Hwf Hrange Hr Hc. rewrite findAllConflicts_inConflict by done.
  unfold inConflict, occursElsewhere. split.
  - intros (r0 & c0 & Hr0 & Hc0 & Hkey & v & Hv & r' & c' & Hr' & Hc' & Hne & Hu & Hv').
    apply keyOf_inj in Hkey as [-> ->]; [|done..].
    exists r', c', v. repeat split; auto.
    apply isCellRelated_true. split; [|done]. intros [= -> ->]. done.
  - intros (r' & c' & v & Hr' & Hc' & Hrel & Hv & Hv').
    apply isCellRelated_true in Hrel as [Hne Hu]. simpl in Hu.
    exists r, c. repeat split; auto. exists v. split; [done|].
    exists r', c'. repeat split; auto. intros [= -> ->]. done.
Qed.

Lemma conflict_iff_related_equal_witness :
  keyOf 0 0 ∈ findAllConflicts pairBoard ↔
  ∃ r' c' v, r' < 9 ∧ c' < 9 ∧
    isCellRelated (Some (CellPosition.mk 0 0)) (Some (CellPosition.mk r' c')) = true ∧
    cellAt pairBoard 0 0 = Some (Some v) ∧ cellAt pairBoard r' c' = Some (Some v).
Proof.
  apply (conflict_iff_related_equal pairBoard 0 0).
  - split; [reflexivity | repeat constructor].
  - apply cellsInRange_sound. reflexivity.
  - lia.
  - lia.
Defined.

(** ** calculateCompletedUnits *)

Lemma size_list_to_set_le `{Countable A} (l : list A) :
  size (list_to_set l : gset A) ≤ length l.
Proof.
  induction l as [|x l IH].
  { rewrite list_to_set_nil, size_empty. done. }
  rewrite list_to_set_cons. simpl.
  destruct (decide (x ∈ (list_to_set l : gset A))) as [Hin|Hin].
  - rewrite (subseteq_union_1_L {[x]} (list_to_set l)); [lia|].
    by apply singleton_subseteq_l.
  - rewrite size_union by (by apply disjoint_singleton_l).
    rewrite size_singleton. lia.
Qed.

Lemma size_list_to_set_NoDup `{Countable A} (l : list A) :
  size (list_to_set l : gset A) = length l ↔ NoDup l.
Proof.
  split; [|apply size_list_to_set].
  induction l as [|x l IH]; [constructor|].
  rewrite list_to_set_cons. simpl. intros Hsize.
  pose proof (size_list_to_set_le l) as Hle.
  destruct (decide (x ∈ (list_to_set l : gset A))) as [Hin|Hin].
  - rewrite (subseteq_union_1_L {[x]} (list_to_set l)) in Hsize; [lia|].
    by apply singleton_subseteq_l.
  - rewrite size_union in Hsize by (by apply disjoint_singleton_l).
    rewrite size_singleton in Hsize.
    constructor; [by rewrite elem_of_list_to_set in Hin|]. apply IH. lia.
Qed.

Lemma NoDup_fmap_inj_on {A B} (f : A → B) (l : list A) :
  NoDup (f <$> l) → ∀ x y, x ∈ l → y ∈ l → f x = f y → x = y.
Proof.
  induction l as [|a l IH]; simpl; intros Hnd x y Hx Hy Heq.
  { by apply elem_of_nil in Hx. }
  apply NoDup_cons in Hnd as [Ha Hnd].
  apply elem_of_cons in Hx as [->|Hx]; apply elem_of_cons in Hy as [->|Hy]; auto.
  - exfalso. apply Ha. rewrite Heq. by apply list_elem_of_fmap_2.
  - exfalso. apply Ha. rewrite <- Heq. by apply list_elem_of_fmap_2.
Qed.

Lemma foldl_collect_elem (p : nat → bool) (f : nat → nat) (l : list nat)
    (acc : gset nat) (x : nat) :
  x ∈ foldl (λ acc i, if p i then {[f i]} ∪ acc else acc) acc l ↔
  x ∈ acc ∨ ∃ i, i ∈ l ∧ p i = true ∧ x = f i.
Proof.
  revert acc. induction l as [|a l IH]; intros acc; simpl.
  - split; [auto|]. intros [?|(i & Hi & _)]; [done|]. by apply elem_of_nil in Hi.
  - rewrite IH. split.
    + intros [Hacc|(i & Hi & Hp & ->)].
      * destruct (p a) eqn:Hpa; [|by left].
        apply elem_of_union in Hacc as [Hx|?]; [|by left].
        apply elem_of_singleton in Hx as ->. right. exists a.
        split; [left|done].
      * right. exists i. split; [by right|done].
    + intros [Hacc|(i & Hi & Hp & ->)].
      * left. destruct (p a); [|done]. apply elem_of_union. by right.
      * apply elem_of_cons in Hi as [->|Hi].
        -- left. rewrite Hp. apply elem_of_union. left. by apply elem_of_singleton.
        -- right. eauto.
Qed.

(** The three sets of the source are the sets of what the cells of the
    unit hold. *)
Lemma rowSet_cellsOf b i :
  wfBoard b → i < 9 → rowSet b i = list_to_set (cellsOf b (rowOf i)).
Proof.
  intros [Hlen Hrows] Hi. unfold rowSet, cellsOf, rowOf.
  destruct (lookup_lt_is_Some_2 b i) as [row Hrow]; [lia|].
  rewrite Forall_forall in Hrows.
  assert (length row = 9) as Hl by (apply Hrows; by eapply list_elem_of_lookup_2).
  rewrite Hrow. change (default [] (Some row)) with row.
  f_equal. rewrite <- list_fmap_compose.
  apply list_eq. intros j. rewrite !list_lookup_fmap.
  destruct (decide (j < 9)) as [Hj|Hj].
  - rewrite lookup_seq_lt by done. simpl. unfold cellAt. rewrite Hrow. simpl.
    destruct (lookup_lt_is_Some_2 row j) as [x Hx]; [lia|]. by rewrite Hx.
  - rewrite lookup_seq_ge by lia. by rewrite lookup_ge_None_2 by lia.
Qed.

Lemma colSet_cellsOf b i :
  wfBoard b → colSet b i = list_to_set (cellsOf b (colOf i)).
Proof.
  intros [Hlen Hrows]. unfold colSet, cellsOf, colOf.
  f_equal. rewrite <- list_fmap_compose.
  apply list_eq. intros j. rewrite !list_lookup_fmap.
  destruct (decide (j < 9)) as [Hj|Hj].
  - rewrite lookup_seq_lt by done. simpl. unfold cellAt.
    destruct (lookup_lt_is_Some_2 b j) as [row Hrow]; [lia|]. by rewrite Hrow.
  - rewrite lookup_seq_ge by lia. by rewrite lookup_ge_None_2 by lia.
Qed.

Lemma boxSet_cellsOf b br bc :
  boxSet b br bc = list_to_set (cellsOf b (boxOf br bc)).
Proof.
  unfold boxSet, cellsOf, boxOf. simpl. apply set_eq. intros x.
  rewrite !elem_of_union, !elem_of_singleton, elem_of_empty. tauto.
Qed.

Lemma cellsOf_length b u : length (cellsOf b u) = length u.
Proof. unfold cellsOf. by rewrite length_fmap. Qed.

Lemma nineAndNoNull_unit b u :
  wfBoard b → unitOk u →
  nineAndNoNull (list_to_set (cellsOf b u)) = true ↔ unitComplete b u.
Proof.
  intros Hwf (Hnd & Hlen & Hin & _). rewrite Forall_forall in Hin.
  unfold nineAndNoNull.
  rewrite andb_true_iff, negb_true_iff, bool_decide_eq_true, bool_decide_eq_false.
  rewrite elem_of_list_to_set.
  rewrite <- Hlen, <- (cellsOf_length b u), size_list_to_set_NoDup.
  unfold unitComplete, cellsOf. split.
  - intros [Hdistinct Hnonull] p Hp.
    destruct (Hin p Hp) as [Hr Hc].
    destruct (wfBoard_cellAt b _ _ Hwf Hr Hc) as [[v|] Hx].
    + exists v. split; [done|]. intros q Hq Hne Hv. apply Hne.
      apply (NoDup_fmap_inj_on _ _ Hdistinct); auto. by rewrite Hv, Hx.
    + exfalso. apply Hnonull. apply list_elem_of_fmap. exists p. auto.
  - intros Hcomplete. split.
    + apply NoDup_fmap_2_strong; [|done]. intros p q Hp Hq Heq.
      destruct (decide (q = p)) as [|Hne]; [done|]. exfalso.
      destruct (Hcomplete p Hp) as (v & Hv & Hother).
      apply (Hother q Hq Hne). by rewrite <- Heq.
    + intros Hnull. apply list_elem_of_fmap in Hnull as (p & Hx & Hp).
      destruct (Hcomplete p Hp) as (v & Hv & _). rewrite Hv in Hx. done.
Qed.

Lemma rows_complete b i :
  wfBoard b →
  i ∈ Completed.rows (calculateCompletedUnits b) ↔ i < 9 ∧ unitComplete b (rowOf i).
Proof.
  intros Hwf. unfold calculateCompletedUnits. cbn [Completed.rows].
  rewrite (foldl_collect_elem _ (λ i, i)), elem_of_empty. split.
  - intros [[]|(j & Hj & Hp & ->)]. apply elem_of_seq in Hj.
    split; [lia|]. rewrite rowSet_cellsOf in Hp by (done || lia).
    apply nineAndNoNull_unit in Hp; [done..|].
    apply unitOk_of_units, rowOf_in_units. lia.
  - intros [Hi Hc]. right. exists i. split; [apply elem_of_seq; lia|].
    split; [|done]. rewrite rowSet_cellsOf by done.
    apply nineAndNoNull_unit; [done| |done].
    by apply unitOk_of_units, rowOf_in_units.
Qed.

Lemma cols_complete b i :
  wfBoard b →
  i ∈ Completed.cols (calculateCompletedUnits b) ↔ i < 9 ∧ unitComplete b (colOf i).
Proof.
  intros Hwf. unfold calculateCompletedUnits. cbn [Completed.cols].
  rewrite (foldl_collect_elem _ (λ i, i)), elem_of_empty. split.
  - intros [[]|(j & Hj & Hp & ->)]. apply elem_of_seq in Hj.
    split; [lia|]. rewrite colSet_cellsOf in Hp by done.
    apply nineAndNoNull_unit in Hp; [done..|].
    apply unitOk_of_units, colOf_in_units. lia.
  - intros [Hi Hc]. right. exists i. split; [apply elem_of_seq; lia|].
    split; [|done]. rewrite colSet_cellsOf by done.
    apply nineAndNoNull_unit; [done| |done].
    by apply unitOk_of_units, colOf_in_units.
Qed.

Lemma foldl_grow_elem {A} (step : gset nat → A → gset nat)
    (C : A → nat → Prop) (l : list A) (acc : gset nat) (x : nat) :
  (∀ acc a x, x ∈ step acc a ↔ x ∈ acc ∨ C a x) →
  x ∈ foldl step acc l ↔ x ∈ acc ∨ ∃ a, a ∈ l ∧ C a x.
Proof.
  intros Hstep. revert acc. induction l as [|a l IH]; intros acc; simpl.
  - split; [auto|]. intros [?|(a & Ha & _)]; [done|]. by apply elem_of_nil in Ha.
  - rewrite IH, Hstep. split.
    + intros [[?|?]|(a' & Ha' & ?)]; [auto| |].
      * right. exists a. split; [left|done].
      * right. exists a'. split; [by right|done].
    + intros [?|(a' & Ha' & ?)]; [auto|].
      apply elem_of_cons in Ha' as [->|Ha']; [auto|]. right. eauto.
Qed.

Lemma boxes_complete b k :
  wfBoard b →
  k ∈ Completed.boxes (calculateCompletedUnits b) ↔
  k < 9 ∧ unitComplete b (boxOf (k / 3) (k mod 3)).
Proof.
  intros Hwf. unfold calculateCompletedUnits. cbn [Completed.boxes].
  rewrite (foldl_grow_elem _ (λ br x,
    ∃ bc, bc ∈ seq 0 3 ∧ nineAndNoNull (boxSet b br bc) = true ∧ x = br * 3 + bc)).
  2:{ intros acc br x. apply foldl_collect_elem. }
  rewrite elem_of_empty. split.
  - intros [[]|(br & Hbr & bc & Hbc & Hp & ->)].
    apply elem_of_seq in Hbr, Hbc.
    assert ((br * 3 + bc) / 3 = br ∧ (br * 3 + bc) mod 3 = bc) as [-> ->].
    { pose proof (Nat.div_mod_eq (br * 3 + bc) 3).
      pose proof (Nat.mod_upper_bound (br * 3 + bc) 3). lia. }
    split; [lia|]. rewrite boxSet_cellsOf in Hp.
    apply nineAndNoNull_unit in Hp; [done..|].
    apply unitOk_of_units, boxOf_in_units; lia.
  - intros [Hk Hc]. right.
    pose proof (Nat.div_mod_eq k 3). pose proof (Nat.mod_upper_bound k 3).
    exists (k / 3). split; [apply elem_of_seq; lia|].
    exists (k mod 3). split; [apply elem_of_seq; lia|]. split; [|lia].
    rewrite boxSet_cellsOf. apply nineAndNoNull_unit; [done| |done].
    apply unitOk_of_units, boxOf_in_units; lia.
Qed.

Lemma unitComplete_filled b u p :
  unitComplete b u → p ∈ u → cellAt b p.1 p.2 ≠ Some None.
Proof. intros Hc Hp. destruct (Hc p Hp) as (v & Hv & _). by rewrite Hv. Qed.

(** X4: on a 9x9 grid, calculateCompletedUnits reports row i (column i,
    box k = boxRow * 3 + boxCol) exactly when i (or k) is below nine and
    the nine cells of the unit hold nine different numbers; a unit with an
    empty cell is never reported. *)
Theorem calculateCompletedUnits_spec (b : Board) :
  wfBoard b →
  (∀ i, i ∈ Completed.rows (calculateCompletedUnits b) ↔
        i < 9 ∧ unitComplete b (rowOf i)) ∧
  (∀ i, i ∈ Completed.cols (calculateCompletedUnits b) ↔
        i < 9 ∧ unitComplete b (colOf i)) ∧
  (∀ k, k ∈ Completed.boxes (calculateCompletedUnits b) ↔
        k < 9 ∧ unitComplete b (boxOf (k / 3) (k mod 3))) ∧
  (∀ r c, r < 9 → c < 9 → cellAt b r c = Some None →
     (r ∉ Completed.rows (calculateCompletedUnits b)) ∧
     (c ∉ Completed.cols (calculateCompletedUnits b)) ∧
     (r / 3 * 3 + c / 3 ∉ Completed.boxes (calculateCompletedUnits b))).
Proof.
  intros Hwf.
  split; [intros i; by apply rows_complete|].
  split; [intros i; by apply cols_complete|].
  split; [intros k; by apply boxes_complete|].
  intros r c Hr Hc Hnull. split; [|split].
  - rewrite rows_complete by done. intros [_ Hcomplete].
    apply (unitComplete_filled b _ (r, c) Hcomplete); [|done].
    by apply elem_of_rowOf.
  - rewrite cols_complete by done. intros [_ Hcomplete].
    apply (unitComplete_filled b _ (r, c) Hcomplete); [|done].
    by apply elem_of_colOf.
  - rewrite boxes_complete by done. intros [_ Hcomplete].
    apply (unitComplete_filled b _ (r, c) Hcomplete); [|done].
    pose proof (Nat.div_mod_eq r 3). pose proof (Nat.mod_upper_bound r 3).
    pose proof (Nat.div_mod_eq c 3). pose proof (Nat.mod_upper_bound c 3).
    assert ((r / 3 * 3 + c / 3) / 3 = r / 3 ∧ (r / 3 * 3 + c / 3) mod 3 = c / 3)
      as [-> ->].
    { pose proof (Nat.div_mod_eq (r / 3 * 3 + c / 3) 3).
      pose proof (Nat.mod_upper_bound (r / 3 * 3 + c / 3) 3). lia. }
    apply elem_of_boxOf; lia.
Qed.

Lemma calculateCompletedUnits_spec_witness :
  (∀ i, i ∈ Completed.rows (calculateCompletedUnits pairBoard) ↔
        i < 9 ∧ unitComplete pairBoard (rowOf i)) ∧
  (∀ i, i ∈ Completed.cols (calculateCompletedUnits pairBoard) ↔
        i < 9 ∧ unitComplete pairBoard (colOf i)) ∧
  (∀ k, k ∈ Completed.boxes (calculateCompletedUnits pairBoard) ↔
        k < 9 ∧ unitComplete pairBoard (boxOf (k / 3) (k mod 3))) ∧
  (∀ r c, r < 9 → c < 9 → cellAt pairBoard r c = Some None →
     (r ∉ Completed.rows (calculateCompletedUnits pairBoard)) ∧
     (c ∉ Completed.cols (calculateCompletedUnits pairBoard)) ∧
     (r / 3 * 3 + c / 3 ∉ Completed.boxes (calculateCompletedUnits pairBoard))).
Proof.
  apply (calculateCompletedUnits_spec pairBoard).
  split; [reflexivity | repeat constructor].
Defined.

(** A grid is full and without duplicates exactly when each of its 27
    units is complete. *)
Lemma valid_iff_units_complete b :
  (∀ r c, r < 9 → c < 9 →
          ∃ v, cellAt b r c = Some (Some v) ∧ ¬ occursElsewhere b r c v) ↔
  (∀ u, u ∈ units → unitComplete b u).
Proof.
  split.
  - intros Hvalid u Hu [r c] Hp.
    destruct (unitOk_of_units u Hu) as (_ & _ & Hin & Hpair).
    rewrite Forall_forall in Hin. rewrite Forall_forall in Hpair.
    destruct (Hin _ Hp) as [Hr Hc]. simpl in *.
    destruct (Hvalid r c Hr Hc) as (v & Hv & Hno).
    exists v. split; [done|]. intros [r' c'] Hq Hne Hv'. apply Hno.
    destruct (Hin _ Hq) as [Hr' Hc']. simpl in *.
    exists r', c'. repeat split; auto.
    pose proof (Hpair _ Hp) as Hrow. rewrite Forall_forall in Hrow.
    apply (Hrow _ Hq).
  - intros Hunits r c Hr Hc.
    destruct (Hunits (rowOf r) (rowOf_in_units r Hr) (r, c)) as (v & Hv & _).
    { by apply elem_of_rowOf. }
    exists v. split; [done|].
    intros (r' & c' & Hr' & Hc' & Hne & Hu & Hv').
    assert (r / 3 < 3 ∧ c / 3 < 3) as [? ?].
    { pose proof (Nat.div_mod_eq r 3). pose proof (Nat.div_mod_eq c 3). lia. }
    assert (∃ u, u ∈ units ∧ (r, c) ∈ u ∧ (r', c') ∈ u) as (u & Hin & H1 & H2).
    { destruct Hu as [<-|[<-|[Hbr Hbc]]].
      - exists (rowOf r). split; [by apply rowOf_in_units|].
        by rewrite !elem_of_rowOf.
      - exists (colOf c). split; [by apply colOf_in_units|].
        by rewrite !elem_of_colOf.
      - exists (boxOf (r / 3) (c / 3)). split; [by apply boxOf_in_units|].
        by rewrite !elem_of_boxOf. }
    destruct (Hunits u Hin (r, c) H1) as (w & Hw & Hother).
    simpl in *. assert (w = v) as -> by congruence.
    by apply (Hother (r', c') H2).
Qed.

Lemma elem_of_units u :
  u ∈ units ↔
  (∃ i, i < 9 ∧ u = rowOf i) ∨ (∃ i, i < 9 ∧ u = colOf i) ∨
  (∃ k, k < 9 ∧ u = boxOf (k / 3) (k mod 3)).
Proof.
  split.
  - unfold units. rewrite !elem_of_app, !list_elem_of_fmap.
    intros [(i & -> & Hi)|[(i & -> & Hi)|Hbox]].
    + apply elem_of_seq in Hi. left. exists i. split; [lia|done].
    + apply elem_of_seq in Hi. right. left. exists i. split; [lia|done].
    + apply list_elem_of_bind in Hbox as (br & Hbox & Hbr).
      apply list_elem_of_bind in Hbox as (bc & Hbox & Hbc).
      apply list_elem_of_singleton in Hbox as ->.
      apply elem_of_seq in Hbr, Hbc. right. right. exists (br * 3 + bc).
      pose proof (Nat.div_mod_eq (br * 3 + bc) 3).
      pose proof (Nat.mod_upper_bound (br * 3 + bc) 3).
      assert ((br * 3 + bc) / 3 = br ∧ (br * 3 + bc) mod 3 = bc) as [-> ->] by lia.
      split; [lia|done].
  - intros [(i & Hi & ->)|[(i & Hi & ->)|(k & Hk & ->)]].
    + by apply rowOf_in_units.
    + by apply colOf_in_units.
    + pose proof (Nat.div_mod_eq k 3). pose proof (Nat.mod_upper_bound k 3).
      apply boxOf_in_units; lia.
Qed.

(** X5: on a 9x9 grid, checkSolution returns true exactly when
    calculateCompletedUnits reports all nine rows, all nine columns and all
    nine boxes. *)
Theorem checkSolution_iff_all_units_completed (b : Board) :
  wfBoard b →
  checkSolution b = true ↔
  ∀ i, i < 9 →
    i ∈ Completed.rows (calculateCompletedUnits b) ∧
    i ∈ Completed.cols (calculateCompletedUnits b) ∧
    i ∈ Completed.boxes (calculateCompletedUnits b).
Proof.
  intros Hwf. rewrite checkSolution_iff, valid_iff_units_complete by done. split.
  - intros Hunits i Hi.
    rewrite rows_complete, cols_complete, boxes_complete by done.
    repeat split; auto; apply Hunits, elem_of_units; eauto 6.
  - intros Hall u Hu.
    apply elem_of_units in Hu as [(i & Hi & ->)|[(i & Hi & ->)|(k & Hk & ->)]].
    + destruct (Hall i Hi) as (Hrow & _). by apply rows_complete in Hrow as [_ ?].
    + destruct (Hall i Hi) as (_ & Hcol & _). by apply cols_complete in Hcol as [_ ?].
    + destruct (Hall k Hk) as (_ & _ & Hbox). by apply boxes_complete in Hbox as [_ ?].
Qed.

Lemma checkSolution_iff_all_units_completed_witness :
  checkSolution solvedExample = true ↔
  ∀ i, i < 9 →
    i ∈ Completed.rows (calculateCompletedUnits solvedExample) ∧
    i ∈ Completed.cols (calculateCompletedUnits solvedExample) ∧
    i ∈ Completed.boxes (calculateCompletedUnits solvedExample).
Proof.
  apply (checkSolution_iff_all_units_completed solvedExample).
  split; [reflexivity | repeat constructor].
Defined.

(** ** numberCounts *)

Lemma Some_Some_eq (x y : nat) : x = y → Some (Some x) = Some (Some y).
Proof. by intros ->. Qed.

Lemma increment_lookup counts k n :
  increment counts k !! n =
  if decide (k = n)
  then Some (match counts !! k with Some (Some m) => Some (S m) | _ => None end)
  else counts !! n.
Proof.
  unfold increment. destruct (decide (k = n)) as [->|Hne].
  - by rewrite lookup_insert_eq.
  - by rewrite lookup_insert_ne.
Qed.

Lemma count_row (l : list cell) (counts : gmap Z (option nat)) (f : Z → nat) :
  (∀ v, Some v ∈ l → (1 ≤ v ≤ 9)%Z) →
  (∀ n, (1 ≤ n ≤ 9)%Z → counts !! n = Some (Some (f n))) →
  ∀ n, (1 ≤ n ≤ 9)%Z →
    foldl (λ counts (c : cell),
       match c with
       | Some v => if bool_decide (v ≠ 0%Z) then increment counts v else counts
       | None => counts
       end) counts l !! n =
    Some (Some (f n + length (filter (λ c, c = Some n) l))).
Proof.
  revert counts f. induction l as [|c l IH]; intros counts f Hrange Hcounts n Hn.
  { simpl. rewrite Hcounts by done. apply Some_Some_eq. lia. }
  assert (∀ v, Some v ∈ l → (1 ≤ v ≤ 9)%Z) as Hrange'
    by (intros; apply Hrange; by right).
  simpl. rewrite filter_cons. destruct c as [v|].
  - assert (1 ≤ v ≤ 9)%Z as Hv by (apply Hrange; left).
    rewrite bool_decide_eq_true_2 by lia.
    rewrite (IH _ (λ m, if decide (v = m) then S (f m) else f m)); [|done| |done].
    + destruct (decide (Some v = Some n)) as [[= ->]|Hne].
      * rewrite decide_True by done. apply Some_Some_eq. simpl.
        rewrite Nat.add_succ_r. reflexivity.
      * rewrite decide_False by congruence. done.
    + intros m Hm. rewrite increment_lookup. destruct (decide (v = m)) as [->|].
      * by rewrite Hcounts.
      * by apply Hcounts.
  - rewrite decide_False by done. by apply IH.
Qed.

Lemma count_board (b : Board) (counts : gmap Z (option nat)) (f : Z → nat) :
  (∀ row v, row ∈ b → Some v ∈ row → (1 ≤ v ≤ 9)%Z) →
  (∀ n, (1 ≤ n ≤ 9)%Z → counts !! n = Some (Some (f n))) →
  ∀ n, (1 ≤ n ≤ 9)%Z →
    foldl (λ counts (row : list cell),
       foldl (λ counts (c : cell),
          match c with
          | Some v => if bool_decide (v ≠ 0%Z) then increment counts v else counts
          | None => counts
          end) counts row) counts b !! n =
    Some (Some (f n + length (filter (λ c, c = Some n) (concat b)))).
Proof.
  revert counts f. induction b as [|row b IH]; intros counts f Hrange Hcounts n Hn.
  { simpl. rewrite Hcounts by done. apply Some_Some_eq. lia. }
  simpl. rewrite filter_app, length_app.
  rewrite (IH _ (λ m, f m + length (filter (λ c, c = Some m) row))); [| | |done].
  - apply Some_Some_eq. rewrite Nat.add_assoc. reflexivity.
  - intros row' v Hrow'. apply Hrange. by right.
  - intros m Hm. apply count_row; [|done..].
    intros v. apply Hrange. left.
Qed.

Lemma zeroCounts_lookup n : (1 ≤ n ≤ 9)%Z → zeroCounts !! n = Some (Some 0).
Proof.
  intros Hn.
  assert (n = 1 ∨ n = 2 ∨ n = 3 ∨ n = 4 ∨ n = 5 ∨ n = 6 ∨ n = 7 ∨ n = 8 ∨ n = 9)%Z
    as Hcases by lia.
  repeat (destruct Hcases as [->|Hcases]; [by vm_compute|]). subst. by vm_compute.
Qed.

Lemma valuesInRange_rows b row v :
  valuesInRange b → row ∈ b → Some v ∈ row → (1 ≤ v ≤ 9)%Z.
Proof.
  intros Hrange Hrow Hv.
  apply list_elem_of_lookup in Hrow as [r Hr]. apply list_elem_of_lookup in Hv as [c Hc].
  apply (Hrange r c). unfold cellAt. by rewrite Hr.
Qed.

Lemma cellsOf_rowOf b i row :
  b !! i = Some row → length row = 9 → cellsOf b (rowOf i) = Some <$> row.
Proof.
  intros Hrow Hl. unfold cellsOf, rowOf. rewrite <- list_fmap_compose.
  apply list_eq. intros j. rewrite !list_lookup_fmap.
  destruct (decide (j < 9)) as [Hj|Hj].
  - rewrite lookup_seq_lt by done. simpl. unfold cellAt. rewrite Hrow. simpl.
    destruct (lookup_lt_is_Some_2 row j) as [x Hx]; [lia|]. by rewrite Hx.
  - rewrite lookup_seq_ge by lia. by rewrite lookup_ge_None_2 by lia.
Qed.

Lemma allCells_rows :
  allCells = rowOf 0 ++ rowOf 1 ++ rowOf 2 ++ rowOf 3 ++ rowOf 4 ++ rowOf 5 ++
             rowOf 6 ++ rowOf 7 ++ rowOf 8.
Proof. reflexivity. Qed.

(** On a 9x9 board the cells of the rows are the cells of the 81
    positions. *)
Lemma cellsOf_allCells b : wfBoard b → cellsOf b allCells = Some <$> concat b.
Proof.
  intros [Hlen Hrows].
  do 9 (destruct b as [|? b]; [discriminate Hlen|]).
  destruct b; [|discriminate Hlen].
  repeat match goal with
         | H : Forall _ (_ :: _) |- _ => apply Forall_cons in H as [? H]
         end.
  rewrite allCells_rows. unfold cellsOf at 1. rewrite !fmap_app.
  fold (cellsOf [l; l0; l1; l2; l3; l4; l5; l6; l7] (rowOf 0)).
  fold (cellsOf [l; l0; l1; l2; l3; l4; l5; l6; l7] (rowOf 1)).
  fold (cellsOf [l; l0; l1; l2; l3; l4; l5; l6; l7] (rowOf 2)).
  fold (cellsOf [l; l0; l1; l2; l3; l4; l5; l6; l7] (rowOf 3)).
  fold (cellsOf [l; l0; l1; l2; l3; l4; l5; l6; l7] (rowOf 4)).
  fold (cellsOf [l; l0; l1; l2; l3; l4; l5; l6; l7] (rowOf 5)).
  fold (cellsOf [l; l0; l1; l2; l3; l4; l5; l6; l7] (rowOf 6)).
  fold (cellsOf [l; l0; l1; l2; l3; l4; l5; l6; l7] (rowOf 7)).
  fold (cellsOf [l; l0; l1; l2; l3; l4; l5; l6; l7] (rowOf 8)).
  rewrite (cellsOf_rowOf _ 0 l), (cellsOf_rowOf _ 1 l0), (cellsOf_rowOf _ 2 l1),
    (cellsOf_rowOf _ 3 l2), (cellsOf_rowOf _ 4 l3), (cellsOf_rowOf _ 5 l4),
    (cellsOf_rowOf _ 6 l5), (cellsOf_rowOf _ 7 l6), (cellsOf_rowOf _ 8 l7) by done.
  simpl. rewrite !fmap_app, app_nil_r. done.
Qed.

Lemma occurrences_cellsOf b n u :
  occurrences b n u = length (filter (λ x, x = Some (Some n)) (cellsOf b u)).
Proof.
  unfold occurrences, cellsOf. induction u as [|p u IH]; [done|].
  rewrite fmap_cons, !filter_cons. simpl.
  repeat case_decide; simpl; rewrite ?IH; done.
Qed.

Lemma numberCounts_occurrences b n :
  wfBoard b → valuesInRange b → (1 ≤ n ≤ 9)%Z →
  numberCounts b !! n = Some (Some (occurrences b n allCells)).
Proof.
  intros Hwf Hrange Hn. unfold numberCounts.
  rewrite (count_board b _ (λ _, 0)); [| |apply zeroCounts_lookup|done].
  2:{ intros row v. by apply valuesInRange_rows. }
  apply Some_Some_eq. simpl.
  rewrite occurrences_cellsOf, cellsOf_allCells by done.
  generalize (concat b). intros l. induction l as [|x l IH]; [done|].
  rewrite fmap_cons, !filter_cons.
  repeat case_decide; simplify_eq; simpl;
    first [exact IH | f_equal; exact IH | done].
Qed.

Lemma occurrences_app b n u1 u2 :
  occurrences b n (u1 ++ u2) = occurrences b n u1 + occurrences b n u2.
Proof. unfold occurrences. by rewrite filter_app, length_app. Qed.

(** X6: on a 9x9 grid with numbers in 1..9, numberCounts[n] is the number
    of cells that hold n, for each n in 1..9; on a grid that checkSolution
    accepts every one of these counts is 9 (which is when the component
    disables a number button). *)
Theorem numberCounts_spec (b : Board) :
  wfBoard b → valuesInRange b →
  (∀ n, (1 ≤ n ≤ 9)%Z →
        numberCounts b !! n = Some (Some (occurrences b n allCells))) ∧
  (checkSolution b = true →
   ∀ n, (1 ≤ n ≤ 9)%Z → numberCounts b !! n = Some (Some 9)).
Proof.
  intros Hwf Hrange. split; [intros; by apply numberCounts_occurrences|].
  intros Hcheck n Hn. rewrite numberCounts_occurrences by done.
  assert (validSolution b) as Hsol.
  { rewrite checkSolution_iff in Hcheck by done.
    split; [split; [done|split; [|done]]|].
    - intros r c v Hr Hc Hv. destruct (Hcheck r c Hr Hc) as (w & Hw & Hno).
      by assert (w = v) as -> by congruence.
    - intros r c Hr Hc. destruct (Hcheck r c Hr Hc) as (w & Hw & _). eauto. }
  pose proof (validSolution_eachOnce b Hsol) as Honce.
  rewrite allCells_rows, !occurrences_app.
  rewrite !(Honce _ n) by (done || (apply rowOf_in_units; lia)). done.
Qed.

Lemma numberCounts_spec_witness :
  (∀ n, (1 ≤ n ≤ 9)%Z →
        numberCounts solvedExample !! n =
        Some (Some (occurrences solvedExample n allCells))) ∧
  (checkSolution solvedExample = true →
   ∀ n, (1 ≤ n ≤ 9)%Z → numberCounts solvedExample !! n = Some (Some 9)).
Proof.
  apply (numberCounts_spec solvedExample).
  - split; [reflexivity | repeat constructor].
  - apply cellsInRange_sound. reflexivity.
Defined.

(** ** The game: history, clues and conflicts *)

Lemma keepsClues_setCell init b r c v :
  keepsClues init b → cellAt init r c = Some None → keepsClues init (setCell b r c v).
Proof.
  intros Hkeep Hnull r' c' w Hw.
  rewrite cellAt_setCell_ne; [by apply Hkeep|]. intros [= -> ->]. congruence.
Qed.

Lemma entryAt_Some h i e :
  Game.entryAt h i = Some e ↔ (0 ≤ i)%Z ∧ h !! Z.to_nat i = Some e.
Proof.
  unfold Game.entryAt. case_bool_decide as Hi.
  - split; [by intros | by intros [_ ?]].
  - split; [done | by intros [? _]].
Qed.

(** What [updateHistory] produces in a state that satisfies the
    invariant: the entries up to the current one, then the new entry, which
    becomes the current one. *)
Lemma updateHistory_spec s newBoard newNotes :
  gameInv s →
  ∃ h, Game.updateHistory s newBoard newNotes = (h, (Game.historyIndex s + 1)%Z) ∧
       length h = Z.to_nat (Game.historyIndex s) + 2 ∧
       Game.entryAt h (Game.historyIndex s + 1) =
         Some (Game.Entry.mk newBoard newNotes) ∧
       Game.entryAt h (Game.historyIndex s) =
         Some (Game.Entry.mk (Game.board s) (Game.notes s)) ∧
       ∀ e, e ∈ h → e ∈ Game.history s ∨ e = Game.Entry.mk newBoard newNotes.
Proof.
  intros ([Hlo Hhi] & Hcur & _ & _).
  apply entryAt_Some in Hcur as [_ Hcur].
  unfold Game.updateHistory, Game.sliceTo.
  rewrite bool_decide_eq_true_2 by lia.
  set (n := Z.to_nat (Game.historyIndex s + 1)).
  assert (n = S (Z.to_nat (Game.historyIndex s))) as Hn by lia.
  assert (length (take n (Game.history s)) = n) as Hlen
    by (apply length_take_le; lia).
  eexists. split; [|split; [|split; [|split]]].
  - f_equal. rewrite length_app, Hlen. simpl. lia.
  - rewrite length_app, Hlen. simpl. lia.
  - apply entryAt_Some. split; [lia|]. fold n.
    rewrite lookup_app_r by lia. rewrite Hlen, Nat.sub_diag. done.
  - apply entryAt_Some. split; [lia|].
    rewrite lookup_app_l by lia. rewrite lookup_take_lt by lia. done.
  - intros e He. apply elem_of_app in He as [He|He].
    + left. by apply (subseteq_take n).
    + right. by apply list_elem_of_singleton in He.
Qed.

(** An edit that keeps the clues keeps the invariant. *)
Lemma gameInv_edit s newBoard newNotes sel ms mode completed :
  gameInv s → keepsClues (Game.initialBoard s) newBoard →
  gameInv (Game.mk (Game.initialBoard s) (Game.solutionBoard s) newBoard newNotes
             sel ms (findAllConflicts newBoard)
             (Game.updateHistory s newBoard newNotes).1
             (Game.updateHistory s newBoard newNotes).2 mode completed).
Proof.
  intros Hinv Hkeep.
  destruct (updateHistory_spec s newBoard newNotes Hinv)
    as (h & -> & Hlen & Hnew & _ & Hin).
  destruct Hinv as ([Hlo Hhi] & _ & Hclues & _).
  split; [|split; [|split]]; simpl.
  - lia.
  - done.
  - intros e He. destruct (Hin e He) as [?| ->]; [by apply Hclues|done].
  - done.
Qed.

Lemma gameInv_showEntry s i :
  gameInv s → (0 ≤ i < Z.of_nat (length (Game.history s)))%Z →
  gameInv (Game.showEntry i s).
Proof.
  intros Hinv Hi. unfold Game.showEntry.
  destruct (Game.entryAt (Game.history s) i) as [[b n]|] eqn:He; [|done].
  destruct Hinv as (_ & _ & Hclues & _).
  split; [|split; [|split]]; simpl; try done.
Qed.

Lemma gameInv_board_keepsClues s :
  gameInv s → keepsClues (Game.initialBoard s) (Game.board s).
Proof.
  intros (_ & Hcur & Hclues & _). apply entryAt_Some in Hcur as [_ Hcur].
  apply list_elem_of_lookup_2 in Hcur. by apply Hclues in Hcur.
Qed.

Lemma clearMistakes_board init (ms : list CellPosition.t) b :
  keepsClues init b →
  keepsClues init
    (foldl (λ newBoard (m : CellPosition.t),
       if bool_decide (cellAt init (CellPosition.row m) (CellPosition.col m) = Some None)
       then setCell newBoard (CellPosition.row m) (CellPosition.col m) None
       else newBoard) b ms).
Proof.
  revert b. induction ms as [|m ms IH]; intros b Hkeep; simpl; [done|].
  apply IH. case_bool_decide; [|done]. by apply keepsClues_setCell.
Qed.

Lemma handleNumpadClick_unfold num s sel :
  Game.selectedCell s = Some sel →
  cellAt (Game.initialBoard s) (CellPosition.row sel) (CellPosition.col sel) = Some None →
  Game.handleNumpadClick num s =
  let row := CellPosition.row sel in
  let col := CellPosition.col sel in
  let newBoard :=
    if Game.isNotesMode s then setCell (Game.board s) row col None
    else setCell (Game.board s) row col
           (if bool_decide (cellAt (Game.board s) row col = Some (Some num))
            then None else Some num) in
  let newNotes :=
    if Game.isNotesMode s
    then alter (alter (Game.toggleNote num) col) row (Game.copyNotes (Game.notes s))
    else alter (<[col := ∅]>) row (Game.copyNotes (Game.notes s)) in
  Game.mk (Game.initialBoard s) (Game.solutionBoard s) newBoard newNotes
    (Game.selectedCell s) [] (findAllConflicts newBoard)
    (Game.updateHistory s newBoard newNotes).1
    (Game.updateHistory s newBoard newNotes).2
    (Game.isNotesMode s) (calculateCompletedUnits newBoard).
Proof.
  intros Hsel Hnull. unfold Game.handleNumpadClick. rewrite Hsel.
  rewrite bool_decide_eq_false_2 by (intros H; by apply H).
  rewrite jsonCopy_id. cbv zeta.
  destruct (Game.isNotesMode s);
    by destruct (Game.updateHistory s _ _) as [h i].
Qed.

Lemma handleErase_unfold s sel :
  Game.selectedCell s = Some sel →
  cellAt (Game.initialBoard s) (CellPosition.row sel) (CellPosition.col sel) = Some None →
  Game.handleErase s =
  let row := CellPosition.row sel in
  let col := CellPosition.col sel in
  let newBoard := setCell (Game.board s) row col None in
  let newNotes := alter (<[col := ∅]>) row (Game.copyNotes (Game.notes s)) in
  Game.mk (Game.initialBoard s) (Game.solutionBoard s) newBoard newNotes
    (Game.selectedCell s) [] (findAllConflicts newBoard)
    (Game.updateHistory s newBoard newNotes).1
    (Game.updateHistory s newBoard newNotes).2
    (Game.isNotesMode s) (calculateCompletedUnits newBoard).
Proof.
  intros Hsel Hnull. unfold Game.handleErase. rewrite Hsel.
  rewrite bool_decide_eq_false_2 by (intros H; by apply H).
  rewrite jsonCopy_id. cbv zeta.
  by destruct (Game.updateHistory s _ _) as [h i].
Qed.

Lemma handleClearMistakes_unfold s :
  Game.handleClearMistakes s =
  let newBoard :=
    foldl (λ newBoard (m : CellPosition.t),
       if bool_decide (cellAt (Game.initialBoard s) (CellPosition.row m)
                         (CellPosition.col m) = Some None)
       then setCell newBoard (CellPosition.row m) (CellPosition.col m) None
       else newBoard) (Game.board s) (Game.mistakes s) in
  Game.mk (Game.initialBoard s) (Game.solutionBoard s) newBoard (Game.notes s)
    (Game.selectedCell s) [] (findAllConflicts newBoard)
    (Game.updateHistory s newBoard (Game.notes s)).1
    (Game.updateHistory s newBoard (Game.notes s)).2
    (Game.isNotesMode s) (calculateCompletedUnits newBoard).
Proof.
  unfold Game.handleClearMistakes. rewrite jsonCopy_id. cbv zeta.
  by destruct (Game.updateHistory s _ _) as [h i].
Qed.

(** Every handler keeps the invariant. *)
Lemma gameInv_handle e s : gameInv s → gameInv (handle e s).
Proof.
  intros Hinv. pose proof (gameInv_board_keepsClues s Hinv) as Hkeep.
  destruct e as [row col|num| | | | | |]; simpl.
  - done.
  - destruct (Game.selectedCell s) as [sel|] eqn:Hsel;
      [|by unfold Game.handleNumpadClick; rewrite Hsel].
    destruct (decide (cellAt (Game.initialBoard s) (CellPosition.row sel)
                        (CellPosition.col sel) = Some None)) as [Hnull|Hclue].
    + rewrite (handleNumpadClick_unfold num s sel Hsel Hnull). cbv zeta.
      apply gameInv_edit; [done|].
      destruct (Game.isNotesMode s); by apply keepsClues_setCell.
    + unfold Game.handleNumpadClick. rewrite Hsel.
      by rewrite bool_decide_eq_true_2.
  - destruct (Game.selectedCell s) as [sel|] eqn:Hsel;
      [|by unfold Game.handleErase; rewrite Hsel].
    destruct (decide (cellAt (Game.initialBoard s) (CellPosition.row sel)
                        (CellPosition.col sel) = Some None)) as [Hnull|Hclue].
    + rewrite (handleErase_unfold s sel Hsel Hnull). cbv zeta.
      apply gameInv_edit; [done|]. by apply keepsClues_setCell.
    + unfold Game.handleErase. rewrite Hsel. by rewrite bool_decide_eq_true_2.
  - unfold Game.handleUndo. case_bool_decide; [|done].
    apply gameInv_showEntry; [done|]. destruct Hinv as ([? ?] & _). lia.
  - unfold Game.handleRedo. case_bool_decide; [|done].
    apply gameInv_showEntry; [done|]. destruct Hinv as ([? ?] & _). lia.
  - done.
  - done.
  - rewrite handleClearMistakes_unfold. cbv zeta.
    apply gameInv_edit; [done|]. by apply clearMistakes_board.
Qed.

Lemma handle_boards e s :
  Game.initialBoard (handle e s) = Game.initialBoard s ∧
  Game.solutionBoard (handle e s) = Game.solutionBoard s.
Proof.
  destruct e as [row col|num| | | | | |]; simpl; try done.
  - unfold Game.handleNumpadClick. destruct (Game.selectedCell s); [|done].
    case_bool_decide; [done|]. cbv zeta.
    destruct (Game.isNotesMode s); by destruct (Game.updateHistory s _ _).
  - unfold Game.handleErase. destruct (Game.selectedCell s); [|done].
    case_bool_decide; [done|]. cbv zeta. by destruct (Game.updateHistory s _ _).
  - unfold Game.handleUndo, Game.showEntry. case_bool_decide; [|done].
    by destruct (Game.entryAt _ _).
  - unfold Game.handleRedo, Game.showEntry. case_bool_decide; [|done].
    by destruct (Game.entryAt _ _).
Qed.

Lemma gameInv_play events s :
  gameInv s →
  gameInv (play events s) ∧
  Game.initialBoard (play events s) = Game.initialBoard s ∧
  Game.solutionBoard (play events s) = Game.solutionBoard s.
Proof.
  unfold play. revert s. induction events as [|e events IH]; intros s Hinv; simpl.
  { done. }
  destruct (IH (handle e s) (gameInv_handle e s Hinv)) as (Hinv' & Hinit & Hsol).
  destruct (handle_boards e s) as [Hinit' Hsol'].
  split; [done|]. split; congruence.
Qed.

Lemma consistent_of_extends p s : extends p s → consistent s → consistent p.
Proof.
  intros Hext Hcons r c v Hr Hc Hv (r' & c' & Hr' & Hc' & Hne & Hu & Hv').
  apply (Hcons r c v Hr Hc (Hext _ _ _ Hv)). exists r', c'. auto 10.
Qed.

Lemma valuesInRange_of_extends p s : extends p s → valuesInRange s → valuesInRange p.
Proof. intros Hext Hrange r c v Hv. by eapply Hrange, Hext. Qed.

Lemma findAllConflicts_consistent b :
  wfBoard b → valuesInRange b → consistent b → findAllConflicts b = ∅.
Proof.
  intros Hwf Hrange Hcons. apply set_eq. intros s. rewrite elem_of_empty.
  rewrite findAllConflicts_inConflict by done. split; [|done].
  intros (r & c & Hr & Hc & _ & v & Hv & Hocc). by apply (Hcons r c v).
Qed.

(** What [initializeGame] sets up. *)
Lemma gameInv_init draw fuel difficulty k s k' :
  Game.initializeGame draw fuel difficulty k = Some (s, k') →
  gameInv s ∧ Game.board s = Game.initialBoard s ∧
  validSolution (Game.solutionBoard s) ∧ wfBoard (Game.board s) ∧
  extends (Game.board s) (Game.solutionBoard s) ∧
  countFilled (Game.board s) = 81 - removalsOf difficulty.
Proof.
  unfold Game.initializeGame. intros Hinit.
  apply bind_Some in Hinit as ([[puzzle solution] k1] & Hgen & Hinit).
  injection Hinit as <- <-. rewrite jsonCopy_id. simpl.
  apply generateSudoku_result in Hgen as (Hsol & Hwf & Hext & Hcount).
  split; [|done].
  split; [simpl; lia|]. split; [done|]. split; simpl.
  - intros e He. apply list_elem_of_singleton in He as ->. by intros r c v.
  - symmetry. apply findAllConflicts_consistent; [done|..].
    + eapply valuesInRange_of_extends; [done|]. apply Hsol.
    + eapply consistent_of_extends; [done|]. apply Hsol.
Qed.

Lemma gameInv_exampleGame : gameInv exampleGame.
Proof.
  split; [simpl; lia|]. split; [done|]. split; [|done].
  intros e He. apply list_elem_of_singleton in He as ->. by intros r c v.
Qed.

(** ** The game: the shape of the state *)

Lemma copyNotes_id notes : Game.copyNotes notes = notes.
Proof.
  unfold Game.copyNotes. rewrite <- (list_fmap_id notes) at 2.
  apply list_fmap_ext. intros _ r _. apply list_fmap_id.
Qed.

Lemma wrongCells_elem s m :
  m ∈ Game.wrongCells s ↔
  ∃ v, cellAt (Game.board s) (CellPosition.row m) (CellPosition.col m) = Some (Some v) ∧
       cellAt (Game.initialBoard s) (CellPosition.row m) (CellPosition.col m) = Some None ∧
       cellAt (Game.solutionBoard s) (CellPosition.row m) (CellPosition.col m)
       ≠ Some (Some v).
Proof.
  unfold Game.wrongCells. rewrite list_elem_of_In, in_concat. split.
  - intros (l & Hl & Hm). apply list_elem_of_In in Hl, Hm.
    apply elem_of_lookup_imap in Hl as (r & row & -> & Hrow).
    apply list_elem_of_In, in_concat in Hm as (l & Hl & Hm).
    apply list_elem_of_In in Hl, Hm.
    apply elem_of_lookup_imap in Hl as (c & x & -> & Hx).
    destruct (bool_decide (x ≠ None)) eqn:H1; [|by apply elem_of_nil in Hm].
    destruct (bool_decide (cellAt (Game.initialBoard s) r c = Some None)) eqn:H2;
      [|by apply elem_of_nil in Hm].
    destruct (bool_decide (Some x ≠ cellAt (Game.solutionBoard s) r c)) eqn:H3;
      [|by apply elem_of_nil in Hm].
    apply list_elem_of_singleton in Hm as ->. simpl.
    apply bool_decide_eq_true in H1, H2, H3.
    destruct x as [v|]; [|done]. exists v. unfold cellAt at 1. rewrite Hrow. simpl.
    split; [done|]. split; [done|]. intros Heq. by apply H3.
  - intros (v & Hv & Hinit & Hsol). destruct m as [r c]. simpl in *.
    apply cellAt_Some in Hv as (row & Hrow & Hv).
    eexists. split.
    + apply list_elem_of_In. apply elem_of_lookup_imap. eauto.
    + apply in_concat. eexists. split.
      * apply list_elem_of_In. apply elem_of_lookup_imap. eauto.
      * apply list_elem_of_In.
        rewrite !bool_decide_eq_true_2 by (done || (intros Heq; by apply Hsol)).
        simpl. left.
Qed.

Ltac game_fields :=
  unfold wfGame;
  cbn [Game.initialBoard Game.solutionBoard Game.board Game.notes Game.history
       Game.mistakes Game.selectedCell].

Lemma valuesInRange_setCell b r c x :
  valuesInRange b → (∀ v, x = Some v → (1 ≤ v ≤ 9)%Z) →
  valuesInRange (setCell b r c x).
Proof.
  intros Hrange Hx r' c' v Hv. rewrite cellAt_setCell in Hv.
  case_bool_decide; [|by eapply Hrange].
  destruct (cellAt b r c); simplify_eq/=. by apply Hx.
Qed.

Lemma wfNotes_alter (f : list (gset Z) → list (gset Z)) r notes :
  (∀ row, length (f row) = length row) → wfNotes notes → wfNotes (alter f r notes).
Proof.
  intros Hf [Hlen Hrows]. split; [by rewrite length_alter|].
  apply Forall_alter; [done|]. intros row _ Hl. by rewrite Hf.
Qed.

Lemma sliceTo_elem {A} (xs : list A) (i : Z) (x : A) :
  x ∈ Game.sliceTo xs i → x ∈ xs.
Proof. unfold Game.sliceTo. case_bool_decide; apply subseteq_take. Qed.

(** An edit that keeps the shape keeps the shape of the game. *)
Lemma wfGame_edit s newBoard newNotes ms conf mode completed :
  wfGame s → wfBoard newBoard → valuesInRange newBoard → wfNotes newNotes →
  (∀ m, m ∈ ms → onGridCell m) →
  wfGame (Game.mk (Game.initialBoard s) (Game.solutionBoard s) newBoard newNotes
            (Game.selectedCell s) ms conf
            (Game.updateHistory s newBoard newNotes).1
            (Game.updateHistory s newBoard newNotes).2 mode completed).
Proof.
  intros (Hinit & Hsol & _ & _ & _ & Hhist & _ & Hsel) Hwf Hrange Hnotes Hms.
  game_fields. do 5 (split; [done|]). split; [|done].
  intros e He. unfold Game.updateHistory in He. cbn [fst] in He.
  apply elem_of_app in He as [He|He].
  - apply sliceTo_elem in He. by apply Hhist.
  - by apply list_elem_of_singleton in He as ->.
Qed.

Lemma wfGame_showEntry s i : wfGame s → wfGame (Game.showEntry i s).
Proof.
  intros Hwf. unfold Game.showEntry.
  destruct (Game.entryAt (Game.history s) i) as [e|] eqn:He; [|done].
  apply entryAt_Some in He as [_ He]. apply list_elem_of_lookup_2 in He.
  destruct Hwf as (Hinit & Hsol & _ & _ & _ & Hhist & _ & Hsel).
  destruct (Hhist e He) as (Hb & Hr & Hn).
  game_fields. do 6 (split; [done|]). split; [|done].
  intros m Hm. by apply elem_of_nil in Hm.
Qed.

Lemma clearMistakes_shape init (ms : list CellPosition.t) b :
  wfBoard b → valuesInRange b →
  wfBoard
    (foldl (λ newBoard (m : CellPosition.t),
       if bool_decide (cellAt init (CellPosition.row m) (CellPosition.col m) = Some None)
       then setCell newBoard (CellPosition.row m) (CellPosition.col m) None
       else newBoard) b ms) ∧
  valuesInRange
    (foldl (λ newBoard (m : CellPosition.t),
       if bool_decide (cellAt init (CellPosition.row m) (CellPosition.col m) = Some None)
       then setCell newBoard (CellPosition.row m) (CellPosition.col m) None
       else newBoard) b ms).
Proof.
  revert b. induction ms as [|m ms IH]; intros b Hwf Hrange; simpl; [done|].
  case_bool_decide; [|by apply IH].
  apply IH; [by apply wfBoard_setCell | by apply valuesInRange_setCell].
Qed.

(** Every event of the grid keeps the shape. *)
Lemma wfGame_handle e s : onGrid e → wfGame s → wfGame (handle e s).
Proof.
  intros He Hwf.
  pose proof Hwf as (Hinit & Hsol & Hb & Hr & Hn & Hhist & Hms & Hsel).
  destruct e as [row col|num| | | | | |]; cbn [handle].
  - unfold Game.handleCellClick. game_fields. do 7 (split; [done|]).
    intros sel [= <-]. done.
  - destruct (Game.selectedCell s) as [sel|] eqn:Hs;
      [|by unfold Game.handleNumpadClick; rewrite Hs].
    destruct (decide (cellAt (Game.initialBoard s) (CellPosition.row sel)
                        (CellPosition.col sel) = Some None)) as [Hnull|Hclue].
    + rewrite (handleNumpadClick_unfold num s sel Hs Hnull). cbv zeta.
      apply wfGame_edit; [done|..].
      * destruct (Game.isNotesMode s); by apply wfBoard_setCell.
      * destruct (Game.isNotesMode s); apply valuesInRange_setCell; try done.
        case_bool_decide; [done|]. by intros v [= <-].
      * rewrite copyNotes_id.
        destruct (Game.isNotesMode s); apply wfNotes_alter; try done.
        -- intros r. by rewrite length_alter.
        -- intros r. by rewrite length_insert.
      * intros m Hm. by apply elem_of_nil in Hm.
    + unfold Game.handleNumpadClick. rewrite Hs.
      by rewrite bool_decide_eq_true_2.
  - destruct (Game.selectedCell s) as [sel|] eqn:Hs;
      [|by unfold Game.handleErase; rewrite Hs].
    destruct (decide (cellAt (Game.initialBoard s) (CellPosition.row sel)
                        (CellPosition.col sel) = Some None)) as [Hnull|Hclue].
    + rewrite (handleErase_unfold s sel Hs Hnull). cbv zeta.
      apply wfGame_edit; [done|..].
      * by apply wfBoard_setCell.
      * by apply valuesInRange_setCell.
      * rewrite copyNotes_id. apply wfNotes_alter; [|done].
        intros r. by rewrite length_insert.
      * intros m Hm. by apply elem_of_nil in Hm.
    + unfold Game.handleErase. rewrite Hs. by rewrite bool_decide_eq_true_2.
  - unfold Game.handleUndo. case_bool_decide; [|done]. by apply wfGame_showEntry.
  - unfold Game.handleRedo. case_bool_decide; [|done]. by apply wfGame_showEntry.
  - done.
  - unfold Game.handleMistakeCheck. game_fields. do 6 (split; [done|]).
    split; [|done]. intros m Hm. apply wrongCells_elem in Hm as (v & Hv & _).
    by apply (cellAt_Some_range _ _ _ _ Hb) in Hv.
  - rewrite handleClearMistakes_unfold. cbv zeta.
    destruct (clearMistakes_shape (Game.initialBoard s) (Game.mistakes s)
                (Game.board s) Hb Hr) as [Hb' Hr'].
    apply wfGame_edit; try done.
    intros m Hm. by apply elem_of_nil in Hm.
Qed.

Lemma wfGame_play events s :
  Forall onGrid events → wfGame s → wfGame (play events s).
Proof.
  unfold play. intros Hev. revert s.
  induction Hev as [|e events He Hev IH]; intros s Hwf; simpl; [done|].
  apply IH. by apply wfGame_handle.
Qed.

Lemma wfNotes_empty : wfNotes (replicate 9 (replicate 9 ∅)).
Proof. split; [reflexivity | repeat constructor]. Qed.

Lemma wfGame_init draw fuel difficulty k s k' :
  Game.initializeGame draw fuel difficulty k = Some (s, k') → wfGame s.
Proof.
  unfold Game.initializeGame. intros Hinit.
  apply bind_Some in Hinit as ([[puzzle solution] k1] & Hgen & Hinit).
  injection Hinit as <- <-. rewrite jsonCopy_id.
  apply generateSudoku_result in Hgen as (Hsol & Hwf & Hext & Hcount).
  assert (valuesInRange puzzle) as Hrange
    by (eapply valuesInRange_of_extends; [done|]; apply Hsol).
  game_fields. split; [done|]. split; [apply Hsol|].
  split; [done|]. split; [done|]. split; [apply wfNotes_empty|].
  split; [|split; [|done]].
  - intros e He. apply list_elem_of_singleton in He as ->.
    split; [done|]. split; [done|]. apply wfNotes_empty.
  - intros m Hm. by apply elem_of_nil in Hm.
Qed.

Lemma wfGame_exampleGame : wfGame exampleGame.
Proof.
  assert (wfBoard examplePuzzle) as Hwf
    by (split; [reflexivity | repeat constructor]).
  assert (valuesInRange examplePuzzle) as Hrange
    by (apply cellsInRange_sound; reflexivity).
  split; [done|]. split; [apply wfBoard_solvedExample|].
  split; [done|]. split; [done|]. split; [apply wfNotes_empty|].
  split; [|split].
  - intros e He. apply list_elem_of_singleton in He as ->.
    split; [done|]. split; [done|]. apply wfNotes_empty.
  - intros m Hm. by apply elem_of_nil in Hm.
  - intros sel [= <-]. split; simpl; lia.
Qed.

Lemma wfNotes_lookup notes r c :
  wfNotes notes → r < 9 → c < 9 → is_Some (notes !! r ≫= (.!! c)).
Proof.
  intros [Hlen Hrows] Hr Hc.
  destruct (lookup_lt_is_Some_2 notes r) as [row Hrow]; [lia|].
  rewrite Hrow. simpl. rewrite Forall_forall in Hrows.
  apply lookup_lt_is_Some_2.
  rewrite (Hrows row) by (by eapply list_elem_of_lookup_2). done.
Qed.

Lemma wfBoard_is_Some b r c : wfBoard b → r < 9 → c < 9 → is_Some (cellAt b r c).
Proof. intros Hwf Hr Hc. by destruct (wfBoard_cellAt b r c Hwf Hr Hc) as [x ->]. Qed.

(** In a state of the 9x9 shape whose history index points at an entry,
    every array element a handler reads or writes exists. *)
Lemma indexesInRange_of_shape s :
  wfGame s → (0 ≤ Game.historyIndex s < Z.of_nat (length (Game.history s)))%Z →
  indexesInRange s.
Proof.
  intros (Hinit & Hsol & Hb & _ & Hn & _ & Hms & Hsel) [Hlo Hhi].
  split; [|split; [|split; [|split; [|split]]]].
  - intros row col Hrow Hcol. by apply wfBoard_is_Some.
  - intros Hpos. unfold Game.entryAt. rewrite bool_decide_eq_true_2 by lia.
    apply lookup_lt_is_Some_2. lia.
  - intros Hnext. unfold Game.entryAt. rewrite bool_decide_eq_true_2 by lia.
    apply lookup_lt_is_Some_2. lia.
  - intros sel Hs. destruct (Hsel sel Hs) as [Hrow Hcol].
    split; [by apply wfBoard_is_Some|]. split; [by apply wfBoard_is_Some|].
    by apply wfNotes_lookup.
  - intros m Hm. destruct (Hms m Hm) as [Hrow Hcol].
    split; by apply wfBoard_is_Some.
  - intros r c [x Hx].
    destruct (cellAt_Some_range (Game.board s) r c x Hb Hx) as [Hr Hc].
    split; by apply wfBoard_is_Some.
Qed.

(** X20: from the state initializeGame sets up and through any sequence of
    events of the rendered component (clicks on the 81 cells, on the nine
    number buttons and on the controls), the boards and the notes, on
    screen and in the history, stay 9x9, the numbers on the board stay
    within 1..9, the selected cell and the listed mistakes are positions of
    the grid, and the history index points at an entry of the history; so
    the array elements the handlers read or write all exist: the clicked
    cell, the history entry undo or redo moves to when its test passes,
    the selected cell in the initial board, the board and the notes, the
    listed mistakes in the initial board and the board, and the cells of
    the initial board and the solution that the mistake check compares. *)
Theorem game_stays_on_grid (draw : nat → nat) (fuel : nat) (difficulty : Difficulty)
    (k : nat) (s0 : Game.State) (k' : nat) (events : list Event) :
  Game.initializeGame draw fuel difficulty k = Some (s0, k') →
  Forall onGrid events →
  wfGame (play events s0) ∧
  (0 ≤ Game.historyIndex (play events s0)
     < Z.of_nat (length (Game.history (play events s0))))%Z ∧
  indexesInRange (play events s0).
Proof.
  intros Hinit Hev.
  assert (wfGame (play events s0)) as Hwf
    by (apply wfGame_play; [done|]; by eapply wfGame_init).
  apply gameInv_init in Hinit as (Hinv & _).
  destruct (gameInv_play events s0 Hinv) as ((Hidx & _) & _).
  split; [done|]. split; [done|]. by apply indexesInRange_of_shape.
Qed.

Lemma game_stays_on_grid_witness :
  ∃ s0 k',
    Game.initializeGame fairDraw 200 Easy 0 = Some (s0, k') ∧
    wfGame (play [CellClick 0 0; NumpadClick 5; Erase; Undo] s0) ∧
    (0 ≤ Game.historyIndex (play [CellClick 0 0; NumpadClick 5; Erase; Undo] s0)
       < Z.of_nat (length (Game.history
                     (play [CellClick 0 0; NumpadClick 5; Erase; Undo] s0))))%Z ∧
    indexesInRange (play [CellClick 0 0; NumpadClick 5; Erase; Undo] s0).
Proof.
  destruct (Game.initializeGame fairDraw 200 Easy 0) as [[s0 k']|] eqn:Hinit.
  - exists s0, k'. split; [reflexivity|].
    apply (game_stays_on_grid fairDraw 200 Easy 0 s0 k'
             [CellClick 0 0; NumpadClick 5; Erase; Undo] Hinit).
    repeat constructor; simpl; lia.
  - vm_compute in Hinit. discriminate Hinit.
Defined.

(** X7: from the state initializeGame sets up and through any sequence of
    cell clicks, number clicks, erase, undo, redo, notes-mode, mistake-check
    and clear-mistakes events, every clue of the puzzle stays on the board,
    and the initial board and the solution board stay what they were. *)
Theorem clues_never_change (draw : nat → nat) (fuel : nat) (difficulty : Difficulty)
    (k : nat) (s0 : Game.State) (k' : nat) (events : list Event) :
  Game.initializeGame draw fuel difficulty k = Some (s0, k') →
  countFilled (Game.initialBoard s0) = 81 - removalsOf difficulty ∧
  Game.initialBoard (play events s0) = Game.initialBoard s0 ∧
  Game.solutionBoard (play events s0) = Game.solutionBoard s0 ∧
  ∀ r c v, cellAt (Game.initialBoard s0) r c = Some (Some v) →
           cellAt (Game.board (play events s0)) r c = Some (Some v).
Proof.
  intros Hinit.
  apply gameInv_init in Hinit as (Hinv & Hboard & _ & _ & _ & Hcount).
  destruct (gameInv_play events s0 Hinv) as (Hinv' & Hinit' & Hsol').
  split; [by rewrite <- Hboard|]. split; [done|]. split; [done|].
  intros r c v Hv. apply (gameInv_board_keepsClues _ Hinv'). by rewrite Hinit'.
Qed.

Lemma clues_never_change_witness :
  ∃ s0 k',
    Game.initializeGame fairDraw 200 Easy 0 = Some (s0, k') ∧
    countFilled (Game.initialBoard s0) = 46 ∧
    ∀ r c v, cellAt (Game.initialBoard s0) r c = Some (Some v) →
             cellAt (Game.board (play [CellClick 0 0; NumpadClick 5; Erase; Undo] s0)) r c
             = Some (Some v).
Proof.
  destruct (Game.initializeGame fairDraw 200 Easy 0) as [[s0 k']|] eqn:Hinit.
  - exists s0, k'. split; [reflexivity|].
    destruct (clues_never_change fairDraw 200 Easy 0 s0 k'
                [CellClick 0 0; NumpadClick 5; Erase; Undo] Hinit)
      as (Hcount & _ & _ & Hclues).
    split; [exact Hcount | exact Hclues].
  - vm_compute in Hinit. discriminate Hinit.
Defined.

(** X8: from the state initializeGame sets up (where the set of conflicts
    is empty) and through any sequence of events, the set of conflicts the
    component holds is findAllConflicts of the board it shows. *)
Theorem conflicts_always_current (draw : nat → nat) (fuel : nat)
    (difficulty : Difficulty) (k : nat) (s0 : Game.State) (k' : nat)
    (events : list Event) :
  Game.initializeGame draw fuel difficulty k = Some (s0, k') →
  Game.conflicts s0 = ∅ ∧
  Game.conflicts (play events s0) = findAllConflicts (Game.board (play events s0)).
Proof.
  intros Hinit. split.
  - unfold Game.initializeGame in Hinit.
    apply bind_Some in Hinit as ([[puzzle solution] k1] & _ & Hinit).
    by injection Hinit as <- <-.
  - apply gameInv_init in Hinit as (Hinv & _).
    by destruct (gameInv_play events s0 Hinv) as ((_ & _ & _ & Hconf) & _).
Qed.

Lemma conflicts_always_current_witness :
  ∃ s0 k',
    Game.initializeGame fairDraw 200 Easy 0 = Some (s0, k') ∧
    Game.conflicts (play [CellClick 0 0; NumpadClick 5] s0) =
    findAllConflicts (Game.board (play [CellClick 0 0; NumpadClick 5] s0)).
Proof.
  destruct (Game.initializeGame fairDraw 200 Easy 0) as [[s0 k']|] eqn:Hinit.
  - exists s0, k'. split; [reflexivity|].
    apply (conflicts_always_current fairDraw 200 Easy 0 s0 k'
             [CellClick 0 0; NumpadClick 5] Hinit).
  - vm_compute in Hinit. discriminate Hinit.
Defined.

(** ** The game: undo, redo and edits *)

(** An event that records an entry sets the history, the index, the board
    and the notes from one call of [updateHistory]. *)
Lemma handle_records e s :
  recordsEntry e s →
  ∃ newBoard newNotes,
    Game.history (handle e s) = (Game.updateHistory s newBoard newNotes).1 ∧
    Game.historyIndex (handle e s) = (Game.updateHistory s newBoard newNotes).2 ∧
    Game.board (handle e s) = newBoard ∧ Game.notes (handle e s) = newNotes.
Proof.
  destruct e as [row col|num| | | | | |]; cbn [handle recordsEntry]; try done.
  - intros (sel & Hsel & Hnull).
    rewrite (handleNumpadClick_unfold num s sel Hsel Hnull). cbv zeta.
    eexists _, _.
    cbn [Game.history Game.historyIndex Game.board Game.notes]. done.
  - intros (sel & Hsel & Hnull).
    rewrite (handleErase_unfold s sel Hsel Hnull). cbv zeta.
    eexists _, _.
    cbn [Game.history Game.historyIndex Game.board Game.notes]. done.
  - intros _. rewrite handleClearMistakes_unfold. cbv zeta. eexists _, _.
    cbn [Game.history Game.historyIndex Game.board Game.notes]. done.
Qed.

(** An event that records no entry leaves the history alone. *)
Lemma handle_no_record e s :
  ¬ recordsEntry e s → Game.history (handle e s) = Game.history s.
Proof.
  destruct e as [row col|num| | | | | |]; cbn [handle recordsEntry]; try done.
  - intros Hno. unfold Game.handleNumpadClick.
    destruct (Game.selectedCell s) as [sel|]; [|done].
    case_bool_decide as Hclue; [done|]. exfalso. apply Hno. exists sel.
    split; [done|]. by destruct (decide (cellAt (Game.initialBoard s)
      (CellPosition.row sel) (CellPosition.col sel) = Some None)).
  - intros Hno. unfold Game.handleErase.
    destruct (Game.selectedCell s) as [sel|]; [|done].
    case_bool_decide as Hclue; [done|]. exfalso. apply Hno. exists sel.
    split; [done|]. by destruct (decide (cellAt (Game.initialBoard s)
      (CellPosition.row sel) (CellPosition.col sel) = Some None)).
  - intros _. unfold Game.handleUndo, Game.showEntry. case_bool_decide; [|done].
    by destruct (Game.entryAt _ _).
  - intros _. unfold Game.handleRedo, Game.showEntry. case_bool_decide; [|done].
    by destruct (Game.entryAt _ _).
Qed.

Lemma showEntry_fields s i b n :
  Game.entryAt (Game.history s) i = Some (Game.Entry.mk b n) →
  Game.board (Game.showEntry i s) = b ∧ Game.notes (Game.showEntry i s) = n ∧
  Game.historyIndex (Game.showEntry i s) = i ∧
  Game.history (Game.showEntry i s) = Game.history s.
Proof. intros He. unfold Game.showEntry. by rewrite He. Qed.

(** X9: in a running game on the 9x9 grid, undo right after an event that
    records a history entry (a number click or an erase while a cell that
    is not a clue is selected, or clear-mistakes) brings back the board,
    the notes and the history index of before the event; this holds also
    when the recorded entry equals the one it replaces. *)
Theorem undo_restores (s : Game.State) (e : Event) :
  wfGame s → gameInv s → recordsEntry e s →
  Game.board (Game.handleUndo (handle e s)) = Game.board s ∧
  Game.notes (Game.handleUndo (handle e s)) = Game.notes s ∧
  Game.historyIndex (Game.handleUndo (handle e s)) = Game.historyIndex s.
Proof.
  intros _ Hinv Hrec.
  destruct (handle_records e s Hrec) as (nb & nn & Hh & Hi & _).
  destruct (updateHistory_spec s nb nn Hinv) as (h & Hupd & _ & _ & Hold & _).
  rewrite Hupd in Hh, Hi. simpl in Hh, Hi.
  destruct Hinv as ([Hlo _] & _).
  unfold Game.handleUndo. rewrite Hi, bool_decide_eq_true_2 by lia.
  replace (Game.historyIndex s + 1 - 1)%Z with (Game.historyIndex s) by lia.
  rewrite <- Hh in Hold.
  by destruct (showEntry_fields _ _ _ _ Hold) as (? & ? & ? & _).
Qed.

Lemma undo_restores_witness :
  let s := handle Undo (handle (NumpadClick 2) exampleGame) in
  Game.history (handle (NumpadClick 2) s) = Game.history s ∧
  Game.board (Game.handleUndo (handle (NumpadClick 2) s)) = Game.board s ∧
  Game.notes (Game.handleUndo (handle (NumpadClick 2) s)) = Game.notes s ∧
  Game.historyIndex (Game.handleUndo (handle (NumpadClick 2) s))
    = Game.historyIndex s.
Proof.
  intros s. split; [by vm_compute|].
  apply (undo_restores s (NumpadClick 2)).
  - apply (wfGame_handle Undo); [done|].
    apply (wfGame_handle (NumpadClick 2)); [simpl; lia | apply wfGame_exampleGame].
  - apply (gameInv_handle Undo). apply (gameInv_handle (NumpadClick 2)).
    apply gameInv_exampleGame.
  - exists (CellPosition.mk 0 0). split; reflexivity.
Defined.

(** X10: in a running game, redo after an undo that was possible, and
    undo after a redo that was possible, bring back the board, the notes
    and the history index. *)
Theorem undo_redo_inverse (s : Game.State) :
  gameInv s →
  ((Game.historyIndex s > 0)%Z →
   Game.board (Game.handleRedo (Game.handleUndo s)) = Game.board s ∧
   Game.notes (Game.handleRedo (Game.handleUndo s)) = Game.notes s ∧
   Game.historyIndex (Game.handleRedo (Game.handleUndo s)) = Game.historyIndex s) ∧
  ((Game.historyIndex s < Z.of_nat (length (Game.history s)) - 1)%Z →
   Game.board (Game.handleUndo (Game.handleRedo s)) = Game.board s ∧
   Game.notes (Game.handleUndo (Game.handleRedo s)) = Game.notes s ∧
   Game.historyIndex (Game.handleUndo (Game.handleRedo s)) = Game.historyIndex s).
Proof.
  intros ([Hlo Hhi] & Hcur & _). split; intros Hi.
  - assert (Game.handleUndo s = Game.showEntry (Game.historyIndex s - 1) s) as ->
      by (unfold Game.handleUndo; by rewrite bool_decide_eq_true_2).
    destruct (lookup_lt_is_Some_2 (Game.history s) (Z.to_nat (Game.historyIndex s - 1)))
      as [[b n] He]; [lia|].
    assert (Game.entryAt (Game.history s) (Game.historyIndex s - 1)
            = Some (Game.Entry.mk b n)) as He'
      by (apply entryAt_Some; split; [lia|done]).
    destruct (showEntry_fields _ _ _ _ He') as (_ & _ & Hidx & Hhist).
    unfold Game.handleRedo. rewrite Hidx, Hhist, bool_decide_eq_true_2 by lia.
    replace (Game.historyIndex s - 1 + 1)%Z with (Game.historyIndex s) by lia.
    rewrite <- Hhist in Hcur.
    by destruct (showEntry_fields _ _ _ _ Hcur) as (? & ? & ? & _).
  - assert (Game.handleRedo s = Game.showEntry (Game.historyIndex s + 1) s) as ->
      by (unfold Game.handleRedo; by rewrite bool_decide_eq_true_2).
    destruct (lookup_lt_is_Some_2 (Game.history s) (Z.to_nat (Game.historyIndex s + 1)))
      as [[b n] He]; [lia|].
    assert (Game.entryAt (Game.history s) (Game.historyIndex s + 1)
            = Some (Game.Entry.mk b n)) as He'
      by (apply entryAt_Some; split; [lia|done]).
    destruct (showEntry_fields _ _ _ _ He') as (_ & _ & Hidx & Hhist).
    unfold Game.handleUndo. rewrite Hidx, bool_decide_eq_true_2 by lia.
    replace (Game.historyIndex s + 1 - 1)%Z with (Game.historyIndex s) by lia.
    rewrite <- Hhist in Hcur.
    by destruct (showEntry_fields _ _ _ _ Hcur) as (? & ? & ? & _).
Qed.

Lemma undo_redo_inverse_witness :
  Game.board (Game.handleRedo (Game.handleUndo (handle (NumpadClick 2) exampleGame)))
  = Game.board (handle (NumpadClick 2) exampleGame).
Proof.
  destruct (undo_redo_inverse (handle (NumpadClick 2) exampleGame)) as [Hredo _].
  - apply gameInv_handle. split; [simpl; lia|]. split; [reflexivity|].
    split; [|reflexivity].
    intros e He. apply list_elem_of_singleton in He as ->. by intros r c v.
  - apply Hredo. vm_compute. reflexivity.
Defined.

(** X11: in a running game on the 9x9 grid, an event that records a
    history entry (a number click or an erase while a cell that is not a
    clue is selected, or clear-mistakes) leaves nothing to redo: the
    entries behind the old index are dropped, the new entry is the last
    one, and handleRedo changes nothing; this holds also when the recorded
    entry equals the one it replaces. Every other event leaves the history
    as it was. *)
Theorem edit_drops_redo (s : Game.State) (e : Event) :
  wfGame s → gameInv s →
  (recordsEntry e s →
   Game.historyIndex (handle e s) = (Game.historyIndex s + 1)%Z ∧
   Z.of_nat (length (Game.history (handle e s))) = (Game.historyIndex s + 2)%Z ∧
   Game.handleRedo (handle e s) = handle e s) ∧
  (¬ recordsEntry e s → Game.history (handle e s) = Game.history s).
Proof.
  intros _ Hinv. split; [|apply handle_no_record].
  intros Hrec.
  destruct (handle_records e s Hrec) as (nb & nn & Hh & Hi & _).
  destruct (updateHistory_spec s nb nn Hinv) as (h & Hupd & Hlen & _).
  rewrite Hupd in Hh, Hi. simpl in Hh, Hi.
  destruct Hinv as ([Hlo _] & _).
  split; [done|]. split; [rewrite Hh; lia|].
  unfold Game.handleRedo. rewrite Hi, Hh, bool_decide_eq_false_2 by lia. done.
Qed.

Lemma edit_drops_redo_witness :
  let s := handle Undo (handle (NumpadClick 2) exampleGame) in
  Game.history (handle (NumpadClick 2) s) = Game.history s ∧
  Game.historyIndex s = 0%Z ∧
  Game.historyIndex (handle (NumpadClick 2) s) = 1%Z ∧
  Z.of_nat (length (Game.history (handle (NumpadClick 2) s))) = 2%Z ∧
  Game.handleRedo (handle (NumpadClick 2) s) = handle (NumpadClick 2) s.
Proof.
  intros s. split; [by vm_compute|]. split; [by vm_compute|].
  destruct (edit_drops_redo s (NumpadClick 2)) as [Hrec _].
  - apply (wfGame_handle Undo); [done|].
    apply (wfGame_handle (NumpadClick 2)); [simpl; lia | apply wfGame_exampleGame].
  - apply (gameInv_handle Undo). apply (gameInv_handle (NumpadClick 2)).
    apply gameInv_exampleGame.
  - apply Hrec. exists (CellPosition.mk 0 0). split; reflexivity.
Defined.

(** X12: in a game state of the 9x9 shape, with an editable cell selected
    and notes mode off, clicking a number on a cell that is empty writes
    the number, clicking it on a cell that holds this number clears the
    cell, so that two clicks on the same number leave the board as it
    was. *)
Theorem numpad_click_twice (s : Game.State) (sel : CellPosition.t) (num : Z)
    (x : cell) :
  wfGame s →
  Game.selectedCell s = Some sel →
  cellAt (Game.initialBoard s) (CellPosition.row sel) (CellPosition.col sel) = Some None →
  Game.isNotesMode s = false →
  cellAt (Game.board s) (CellPosition.row sel) (CellPosition.col sel) = Some x →
  x = None ∨ x = Some num →
  cellAt (Game.board (Game.handleNumpadClick num s))
    (CellPosition.row sel) (CellPosition.col sel)
  = Some (match x with None => Some num | Some _ => None end) ∧
  Game.board (Game.handleNumpadClick num (Game.handleNumpadClick num s))
  = Game.board s.
Proof.
  intros _ Hsel Hnull Hmode Hx Hcases.
  rewrite (handleNumpadClick_unfold num s sel Hsel Hnull). cbv zeta.
  rewrite Hmode. case_bool_decide as Hb.
  - assert (x = Some num) as -> by congruence.
    cbn [Game.board]. split; [by erewrite cellAt_setCell_eq|].
    erewrite (handleNumpadClick_unfold num _ sel); [|done|done].
    cbv zeta. cbn [Game.board Game.isNotesMode].
    erewrite cellAt_setCell_eq by done.
    rewrite bool_decide_eq_false_2 by done. by apply setCell_restore.
  - assert (x = None) as ->.
    { destruct Hcases as [?|?]; [done|]. subst x. by exfalso; apply Hb. }
    cbn [Game.board]. split; [by erewrite cellAt_setCell_eq|].
    erewrite (handleNumpadClick_unfold num _ sel); [|done|done].
    cbv zeta. cbn [Game.board Game.isNotesMode].
    erewrite cellAt_setCell_eq by done.
    rewrite bool_decide_eq_true_2 by done. by apply setCell_restore.
Qed.

Lemma numpad_click_twice_witness :
  cellAt (Game.board (Game.handleNumpadClick 2 exampleGame)) 0 0 = Some (Some 2%Z) ∧
  Game.board (Game.handleNumpadClick 2 (Game.handleNumpadClick 2 exampleGame))
  = Game.board exampleGame.
Proof.
  apply (numpad_click_twice exampleGame (CellPosition.mk 0 0) 2 None);
    try reflexivity.
  - apply wfGame_exampleGame.
  - by left.
Defined.

(** ** The game: mistakes *)

(** What clear-mistakes leaves on the board was there before, and was not
    a listed cell that may be edited. *)
Lemma clearMistakes_cell init (ms : list CellPosition.t) b r c v :
  cellAt
    (foldl (λ newBoard (m : CellPosition.t),
       if bool_decide (cellAt init (CellPosition.row m) (CellPosition.col m) = Some None)
       then setCell newBoard (CellPosition.row m) (CellPosition.col m) None
       else newBoard) b ms) r c = Some (Some v) →
  cellAt b r c = Some (Some v) ∧
  (CellPosition.mk r c ∈ ms → cellAt init r c ≠ Some None).
Proof.
  revert b. induction ms as [|m ms IH]; intros b; simpl.
  { intros Hv. split; [done|]. intros Hin. by apply elem_of_nil in Hin. }
  intros Hv. apply IH in Hv as [Hv Hrest]. destruct m as [mr mc]. simpl in *.
  case_bool_decide as Hnull.
  - rewrite cellAt_setCell in Hv. case_bool_decide as Hrc.
    + destruct (cellAt b mr mc); simplify_eq/=.
    + split; [done|]. intros Hin. apply elem_of_cons in Hin as [[= -> ->]|Hin]; auto.
  - split; [done|]. intros Hin. apply elem_of_cons in Hin as [[= -> ->]|Hin]; auto.
Qed.

(** When nothing is listed, clear-mistakes leaves the board alone. *)
Lemma clearMistakes_nil s :
  Game.mistakes s = [] → Game.board (Game.handleClearMistakes s) = Game.board s.
Proof. intros Hms. rewrite handleClearMistakes_unfold. cbv zeta. by rewrite Hms. Qed.

(** X13: in a game state of the 9x9 shape, after a mistake check followed
    by clear-mistakes, a new mistake check finds nothing: every number
    still on the board was there before, and where the player could edit it
    is the number of the solution; when the first check found nothing,
    clear-mistakes leaves the board as it was. *)
Theorem clear_mistakes_leaves_none (s : Game.State) :
  wfGame s →
  let s2 := Game.handleClearMistakes (Game.handleMistakeCheck s) in
  Game.wrongCells s2 = [] ∧ Game.mistakes s2 = [] ∧
  (∀ r c v, cellAt (Game.board s2) r c = Some (Some v) →
     cellAt (Game.board s) r c = Some (Some v) ∧
     (cellAt (Game.initialBoard s) r c = Some None →
      cellAt (Game.solutionBoard s) r c = Some (Some v))) ∧
  (Game.wrongCells s = [] → Game.board s2 = Game.board s).
Proof.
  intros _ s2.
  assert (∀ r c v, cellAt (Game.board s2) r c = Some (Some v) →
            cellAt (Game.board s) r c = Some (Some v) ∧
            (cellAt (Game.initialBoard s) r c = Some None →
             cellAt (Game.solutionBoard s) r c = Some (Some v))) as Hkept.
  { intros r c v Hv. unfold s2 in Hv. rewrite handleClearMistakes_unfold in Hv.
    cbv zeta in Hv. cbn [Game.board Game.handleMistakeCheck Game.initialBoard
                         Game.mistakes] in Hv.
    apply clearMistakes_cell in Hv as [Hv Hlisted]. split; [done|].
    intros Hnull.
    destruct (decide (cellAt (Game.solutionBoard s) r c = Some (Some v)))
      as [|Hwrong]; [done|].
    exfalso. apply Hlisted; [|done].
    apply wrongCells_elem. exists v. auto. }
  assert (Game.initialBoard s2 = Game.initialBoard s ∧
          Game.solutionBoard s2 = Game.solutionBoard s) as [Hinit Hsol].
  { unfold s2. rewrite handleClearMistakes_unfold. done. }
  split; [|split; [|split]].
  - destruct (Game.wrongCells s2) as [|m ms] eqn:Hw; [done|]. exfalso.
    assert (m ∈ Game.wrongCells s2) as Hm by (rewrite Hw; left).
    apply wrongCells_elem in Hm as (v & Hv & Hnull & Hwrong).
    rewrite Hinit in Hnull. rewrite Hsol in Hwrong.
    apply Hkept in Hv as [_ Hv]. auto.
  - unfold s2. by rewrite handleClearMistakes_unfold.
  - done.
  - intros Hnone. unfold s2.
    by rewrite (clearMistakes_nil (Game.handleMistakeCheck s)).
Qed.

Lemma clear_mistakes_leaves_none_witness :
  let s := handle (NumpadClick 5) exampleGame in
  Game.wrongCells s = [CellPosition.mk 0 0] ∧
  Game.wrongCells (Game.handleClearMistakes (Game.handleMistakeCheck s)) = [].
Proof.
  intros s. split; [by vm_compute|].
  refine (proj1 (clear_mistakes_leaves_none s _)).
  apply (wfGame_handle (NumpadClick 5)); [simpl; lia | apply wfGame_exampleGame].
Defined.

(** ** Texts: the clock and the board *)

Lemma string_length_app (s t : string) :
  String.length (s +:+ t) = String.length s + String.length t.
Proof. induction s as [|a s IH]; simpl; [done|]. by rewrite IH. Qed.

(** Two texts that end in suffixes of the same length are equal only if
    their suffixes and what comes before them are. *)
Lemma string_app_inj (s1 s2 t1 t2 : string) :
  String.length t1 = String.length t2 →
  s1 +:+ t1 = s2 +:+ t2 → s1 = s2 ∧ t1 = t2.
Proof.
  revert s2. induction s1 as [|a s1 IH]; intros [|b s2] Hlen Heq.
  - done.
  - exfalso. apply (f_equal String.length) in Heq.
    rewrite !string_length_app in Heq. simpl in Heq. lia.
  - exfalso. apply (f_equal String.length) in Heq.
    rewrite !string_length_app in Heq. simpl in Heq. lia.
  - simpl in Heq. injection Heq as -> Heq.
    destruct (IH s2 Hlen Heq) as [-> ->]. done.
Qed.

Lemma digit_inj (d d' : nat) : d < 10 → d' < 10 → digit d = digit d' → d = d'.
Proof.
  intros Hd Hd' Heq. apply (f_equal nat_of_ascii) in Heq. unfold digit in Heq.
  rewrite !nat_ascii_embedding in Heq by lia. lia.
Qed.

Lemma below_cases (P : nat → Prop) (n : nat) :
  Forall P (seq 0 n) → ∀ k, k < n → P k.
Proof.
  intros Hall k Hk. rewrite Forall_forall in Hall. apply Hall, elem_of_seq. lia.
Qed.

(** [padStart(2, '0')] on a number below 60 gives its two decimal digits. *)
Lemma seconds_field (k : nat) :
  k < 60 →
  padStart 2 "0" (pretty k) = String (digit (k / 10)) (String (digit (k mod 10)) "").
Proof.
  revert k. apply below_cases. vm_compute. repeat constructor.
Qed.

Lemma formatTime_fields (seconds : nat) :
  formatTime seconds =
    pretty (seconds / 60) +:+ ":" +:+
    String (digit (seconds mod 60 / 10)) (String (digit (seconds mod 60 mod 10)) "").
Proof.
  unfold formatTime. cbv zeta. rewrite seconds_field; [done|].
  apply Nat.mod_upper_bound. done.
Qed.

(** X14: [formatTime] writes the whole minutes in decimal, a colon, and the
    remaining seconds as exactly two decimal digits, the first of them below
    6; two different times are never shown as the same text. *)
Theorem formatTime_spec (seconds : nat) :
  (∃ d1 d0 : nat,
      d1 < 6 ∧ d0 < 10 ∧ seconds = 60 * (seconds / 60) + 10 * d1 + d0 ∧
      formatTime seconds =
        pretty (seconds / 60) +:+ ":" +:+ String (digit d1) (String (digit d0) "")) ∧
  (∀ other : nat, formatTime seconds = formatTime other → seconds = other).
Proof.
  assert (seconds mod 60 < 60) as Hs by (apply Nat.mod_upper_bound; done).
  split.
  - exists (seconds mod 60 / 10), (seconds mod 60 mod 10).
    split; [|split; [|split]].
    + apply Nat.Div0.div_lt_upper_bound. lia.
    + apply Nat.mod_upper_bound. done.
    + pose proof (Nat.div_mod_eq seconds 60).
      pose proof (Nat.div_mod_eq (seconds mod 60) 10). lia.
    + apply formatTime_fields.
  - intros other Heq.
    assert (other mod 60 < 60) as Ho by (apply Nat.mod_upper_bound; done).
    rewrite !formatTime_fields in Heq.
    apply string_app_inj in Heq as [Hmins Hsecs]; [|done].
    apply (inj pretty) in Hmins.
    assert (digit (seconds mod 60 / 10) = digit (other mod 60 / 10) ∧
            digit (seconds mod 60 mod 10) = digit (other mod 60 mod 10))
      as [H1 H0].
    { assert (∀ x y : string, ":" +:+ x = ":" +:+ y → x = y) as Hcolon
        by (intros x y Hxy; by injection Hxy).
      apply Hcolon in Hsecs. split; congruence. }
    apply digit_inj in H1; [|apply Nat.Div0.div_lt_upper_bound; lia..].
    apply digit_inj in H0; [|apply Nat.mod_upper_bound; done..].
    pose proof (Nat.div_mod_eq seconds 60).
    pose proof (Nat.div_mod_eq other 60).
    pose proof (Nat.div_mod_eq (seconds mod 60) 10).
    pose proof (Nat.div_mod_eq (other mod 60) 10). lia.
Qed.

(** A cell of a board with numbers 1..9 is written as one character. *)
Lemma cellText_char (x : cell) :
  (∀ v, x = Some v → (1 ≤ v ≤ 9)%Z) → cellText x = String (cellChar x) "".
Proof.
  intros Hx. destruct x as [v|]; [|done].
  assert (v ∈ [1; 2; 3; 4; 5; 6; 7; 8; 9]%Z) as Hv.
  { specialize (Hx v eq_refl). apply list_elem_of_In. simpl. lia. }
  repeat (apply elem_of_cons in Hv as [->|Hv]; [by vm_compute|]).
  by apply elem_of_nil in Hv.
Qed.

Lemma cellChar_inj (x y : cell) :
  (∀ v, x = Some v → (1 ≤ v ≤ 9)%Z) → (∀ v, y = Some v → (1 ≤ v ≤ 9)%Z) →
  cellChar x = cellChar y → x = y.
Proof.
  intros Hx Hy Heq. apply (f_equal nat_of_ascii) in Heq.
  destruct x as [v|], y as [w|]; unfold cellChar, digit in Heq.
  - specialize (Hx v eq_refl). specialize (Hy w eq_refl).
    rewrite !nat_ascii_embedding in Heq by lia. f_equal. lia.
  - specialize (Hx v eq_refl).
    rewrite nat_ascii_embedding in Heq by lia.
    change (nat_of_ascii "_") with 95 in Heq. lia.
  - specialize (Hy w eq_refl).
    rewrite nat_ascii_embedding in Heq by lia.
    change (nat_of_ascii "_") with 95 in Heq. lia.
  - done.
Qed.

Lemma formatBoardForPrompt_chars (board : Board) :
  valuesInRange board →
  formatBoardForPrompt board =
    join newline ((λ row : list cell,
       join " " ((λ x, String (cellChar x) "") <$> row)) <$> board).
Proof.
  intros Hrange. unfold formatBoardForPrompt. f_equal.
  apply list_fmap_ext. intros r row Hrow. simpl. f_equal.
  apply list_fmap_ext. intros c x Hx. apply cellText_char.
  intros v ->. apply (Hrange r c). apply cellAt_Some. eauto.
Qed.

Ltac nine_cells row :=
  do 9 (destruct row as [|? row]; [discriminate|]);
  destruct row; [|discriminate].

(** Two 9x9 boards with the same cells are the same board. *)
Lemma board_eq (b1 b2 : Board) :
  wfBoard b1 → wfBoard b2 →
  (∀ r c, r < 9 → c < 9 → cellAt b1 r c = cellAt b2 r c) → b1 = b2.
Proof.
  intros [Hl1 Hr1] [Hl2 Hr2] Hcells.
  rewrite Forall_forall in Hr1. rewrite Forall_forall in Hr2.
  apply list_eq_same_length with 9; [done..|].
  intros r row1 row2 Hr Hrow1 Hrow2.
  assert (length row1 = 9) by (apply Hr1; by eapply list_elem_of_lookup_2).
  assert (length row2 = 9) by (apply Hr2; by eapply list_elem_of_lookup_2).
  apply list_eq_same_length with 9; [done..|].
  intros c x y Hc Hx Hy.
  assert (cellAt b1 r c = Some x) as H1 by (apply cellAt_Some; eauto).
  assert (cellAt b2 r c = Some y) as H2 by (apply cellAt_Some; eauto).
  rewrite Hcells in H1 by done. congruence.
Qed.

Lemma formatBoardForPrompt_layout (board : Board) :
  wfBoard board → valuesInRange board →
  String.length (formatBoardForPrompt board) = 161 ∧
  ∀ r c x, cellAt board r c = Some x →
    String.get (18 * r + 2 * c) (formatBoardForPrompt board) = Some (cellChar x).
Proof.
  intros Hwf Hrange. rewrite formatBoardForPrompt_chars by done.
  assert (∀ r c x, cellAt board r c = Some x → r < 9 ∧ c < 9) as Hin
    by (intros r c x; by apply cellAt_Some_range).
  clear Hrange. destruct Hwf as [Hlen Hrows].
  do 9 (destruct board as [|? board]; [discriminate|]).
  destruct board; [|discriminate].
  repeat match goal with
         | H : Forall _ (_ :: _) |- _ => apply Forall_cons in H as [? H]
         end.
  clear Hrows Hlen.
  repeat match goal with
         | H : length ?row = 9 |- _ => nine_cells row; clear H
         end.
  split; [reflexivity|].
  intros i j y Hy. destruct (Hin i j y Hy) as [Hi Hj]. clear Hin.
  do 9 (destruct i as [|i]; [
    do 9 (destruct j as [|j]; [injection Hy as <-; reflexivity|]); lia|]).
  lia.
Qed.

(** X15: on a 9x9 board with numbers 1..9, [formatBoardForPrompt] gives a
    text of 161 characters in which the character at index [18 r + 2 c] is
    the digit of cell (r, c), or an underscore where the cell is empty; so
    two such boards with the same text are the same board. *)
Theorem formatBoardForPrompt_spec (board : Board) :
  wfBoard board → valuesInRange board →
  String.length (formatBoardForPrompt board) = 161 ∧
  (∀ r c x, cellAt board r c = Some x →
     String.get (18 * r + 2 * c) (formatBoardForPrompt board) = Some (cellChar x)) ∧
  (∀ other, wfBoard other → valuesInRange other →
     formatBoardForPrompt other = formatBoardForPrompt board → other = board).
Proof.
  intros Hwf Hrange.
  destruct (formatBoardForPrompt_layout board Hwf Hrange) as [Hlen Hchars].
  split; [done|]. split; [done|].
  intros other Hwf' Hrange' Heq.
  destruct (formatBoardForPrompt_layout other Hwf' Hrange') as [_ Hchars'].
  apply board_eq; [done..|]. intros r c Hr Hc.
  destruct (wfBoard_cellAt other r c Hwf' Hr Hc) as [x Hx].
  destruct (wfBoard_cellAt board r c Hwf Hr Hc) as [y Hy].
  rewrite Hx, Hy. f_equal.
  pose proof (Hchars' r c x Hx) as H1. pose proof (Hchars r c y Hy) as H2.
  rewrite Heq in H1. rewrite H1 in H2. injection H2 as H2.
  apply cellChar_inj; [| |done].
  - intros v ->. by apply (Hrange' r c).
  - intros v ->. by apply (Hrange r c).
Qed.

Lemma formatBoardForPrompt_spec_witness :
  String.length (formatBoardForPrompt examplePuzzle) = 161 ∧
  (∀ r c x, cellAt examplePuzzle r c = Some x →
     String.get (18 * r + 2 * c) (formatBoardForPrompt examplePuzzle) =
       Some (cellChar x)) ∧
  (∀ other, wfBoard other → valuesInRange other →
     formatBoardForPrompt other = formatBoardForPrompt examplePuzzle →
     other = examplePuzzle).
Proof.
  apply (formatBoardForPrompt_spec examplePuzzle).
  - split; [reflexivity | repeat constructor].
  - apply cellsInRange_sound. reflexivity.
Defined.

(** ** The search decides whether a grid can be completed *)

(** X16: started on a 9x9 grid whose numbers are within 1..9 and occur at
    most once per row, column and box, with more fuel than there are
    unfilled cells, generateSolution returns; it returns true exactly when
    some valid complete grid keeps the numbers of the starting grid, and
    when it returns false its backtracking has left the board as it was. *)
Theorem generateSolution_decides (draw : nat → nat) (fuel : nat) (b : Board)
    (k : nat) :
  goodBoard b → 81 - countFilled b < fuel →
  ∃ ok b' k',
    generateSolution draw fuel b k = Some (ok, b', k') ∧
    (ok = true ↔ ∃ sol, validSolution sol ∧ extends b sol) ∧
    (ok = false → b' = b).
Proof.
  intros Hgood Hfuel.
  destruct (generateSolution_terminates draw fuel b k Hfuel) as [[[ok b'] k'] Hrun].
  exists ok, b', k'. split; [done|]. destruct ok.
  - split; [|done]. split; [|done]. intros _. exists b'.
    by eapply generateSolution_sound.
  - split.
    + split; [done|]. intros (sol & Hsol & Hext). exfalso.
      by eapply generateSolution_complete.
    + intros _. by eapply generateSolution_false.
Qed.

Lemma generateSolution_decides_witness :
  ∃ ok b' k',
    generateSolution (λ _, 0) 82 stuckBoard 0 = Some (ok, b', k') ∧
    (ok = true ↔ ∃ sol, validSolution sol ∧ extends stuckBoard sol) ∧
    (ok = false → b' = stuckBoard).
Proof.
  apply (generateSolution_decides (λ _, 0) 82 stuckBoard 0).
  - apply goodBoard_check; [split; [reflexivity | repeat constructor]|reflexivity..].
  - vm_compute. lia.
Defined.

(** ** findEmptyCell scans in reading order *)

Lemma firstSome_seq_first {B} (f : nat → option B) lo n y :
  firstSome f (seq lo n) = Some y →
  ∃ i, lo ≤ i < lo + n ∧ f i = Some y ∧ ∀ j, lo ≤ j < i → f j = None.
Proof.
  revert lo. induction n as [|n IH]; intros lo; simpl; [done|].
  destruct (f lo) as [z|] eqn:Hlo.
  - intros [= ->]. exists lo. split; [lia|]. split; [done|]. intros j Hj. lia.
  - intros Hrest. destruct (IH _ Hrest) as (i & Hi & Hfi & Hbefore).
    exists i. split; [lia|]. split; [done|]. intros j Hj.
    destruct (decide (j = lo)) as [->|Hne]; [done|]. apply Hbefore. lia.
Qed.

(** X17: on a 9x9 board findEmptyCell returns the first empty cell in
    reading order (rows from the top, cells from the left): the cell it
    returns is empty and every cell before it holds a number; it returns
    null only when every cell holds a number. *)
Theorem findEmptyCell_first (b : Board) :
  wfBoard b →
  match findEmptyCell b with
  | Some (r, c) =>
      r < 9 ∧ c < 9 ∧ cellAt b r c = Some None ∧
      ∀ r' c', r' < 9 → c' < 9 → r' < r ∨ (r' = r ∧ c' < c) →
               ∃ v, cellAt b r' c' = Some (Some v)
  | None => full b
  end.
Proof.
  intros Hwf. destruct (findEmptyCell b) as [[r c]|] eqn:Hfind;
    [|by apply findEmptyCell_None_full].
  destruct (findEmptyCell_Some b r c Hfind) as (Hr & Hc & Hnull).
  split; [done|]. split; [done|]. split; [done|].
  unfold findEmptyCell in Hfind.
  apply firstSome_seq_first in Hfind as (i & Hi & Hrow & Hrows).
  apply firstSome_seq_first in Hrow as (j & Hj & Hcell & Hcells).
  case_bool_decide as Hij; [|done]. injection Hcell as <- <-.
  intros r' c' Hr' Hc' Hbefore.
  destruct (wfBoard_cellAt b r' c' Hwf Hr' Hc') as [[v|] Hx]; [eauto|exfalso].
  destruct Hbefore as [Hlt|[-> Hlt]].
  - specialize (Hrows r' ltac:(lia)).
    assert (c' ∈ seq 0 9) as Hin by (apply elem_of_seq; lia).
    pose proof (firstSome_None _ _ Hrows c' Hin) as Hno. cbv beta in Hno.
    by rewrite bool_decide_eq_true_2 in Hno.
  - specialize (Hcells c' ltac:(lia)). cbv beta in Hcells.
    by rewrite bool_decide_eq_true_2 in Hcells.
Qed.

Lemma findEmptyCell_first_witness :
  match findEmptyCell stuckBoard with
  | Some (r, c) =>
      r < 9 ∧ c < 9 ∧ cellAt stuckBoard r c = Some None ∧
      ∀ r' c', r' < 9 → c' < 9 → r' < r ∨ (r' = r ∧ c' < c) →
               ∃ v, cellAt stuckBoard r' c' = Some (Some v)
  | None => full stuckBoard
  end.
Proof.
  apply (findEmptyCell_first stuckBoard).
  split; [reflexivity | repeat constructor].
Defined.

(** ** The mistake check *)

Lemma NoDup_concat_imap {A B} (g : B → nat) (f : nat → A → list B) (l : list A) :
  (∀ i x, NoDup (f i x)) →
  (∀ i x m, m ∈ f i x → g m = i) →
  NoDup (concat (imap f l)).
Proof.
  revert f g. induction l as [|a l IH]; intros f g Hnd Hg; simpl; [constructor|].
  apply NoDup_app. split; [apply Hnd|]. split.
  - intros m Hm Hrest. apply Hg in Hm.
    apply list_elem_of_In, in_concat in Hrest as (l' & Hl' & Hm').
    apply list_elem_of_In in Hl', Hm'.
    apply elem_of_lookup_imap in Hl' as (i & x & -> & _).
    apply Hg in Hm'. simpl in Hm'. lia.
  - apply (IH (f ∘ S) (pred ∘ g)).
    + intros i x. apply Hnd.
    + intros i x m Hm. apply Hg in Hm. simpl. by rewrite Hm.
Qed.

Lemma wrongCells_NoDup s : NoDup (Game.wrongCells s).
Proof.
  unfold Game.wrongCells.
  apply (NoDup_concat_imap CellPosition.row).
  - intros r row. apply (NoDup_concat_imap CellPosition.col).
    + intros c x. destruct (_ && _); [apply NoDup_singleton | constructor].
    + intros c x m Hm. destruct (_ && _).
      * by apply list_elem_of_singleton in Hm as ->.
      * by apply elem_of_nil in Hm.
  - intros r row m Hm.
    apply list_elem_of_In, in_concat in Hm as (l' & Hl' & Hm).
    apply list_elem_of_In in Hl', Hm.
    apply elem_of_lookup_imap in Hl' as (c & x & -> & _).
    destruct (_ && _).
    + by apply list_elem_of_singleton in Hm as ->.
    + by apply elem_of_nil in Hm.
Qed.

(** X18: in a game state of the 9x9 shape, handleMistakeCheck lists a cell
    as a mistake exactly when the cell holds a number, is not a clue, and
    the solution does not hold this number there; it lists no cell twice,
    leaves the board and the history alone, and lists nothing when the
    board is the solution. *)
Theorem mistake_check_spec (s : Game.State) :
  wfGame s →
  let s' := Game.handleMistakeCheck s in
  (∀ r c, CellPosition.mk r c ∈ Game.mistakes s' ↔
     ∃ v, cellAt (Game.board s) r c = Some (Some v) ∧
          cellAt (Game.initialBoard s) r c = Some None ∧
          cellAt (Game.solutionBoard s) r c ≠ Some (Some v)) ∧
  NoDup (Game.mistakes s') ∧
  Game.board s' = Game.board s ∧
  Game.history s' = Game.history s ∧
  Game.historyIndex s' = Game.historyIndex s ∧
  (Game.board s = Game.solutionBoard s → Game.mistakes s' = []).
Proof.
  intros _ s'. split; [|split; [|split; [|split; [|split]]]]; try done.
  - intros r c. apply (wrongCells_elem s (CellPosition.mk r c)).
  - apply wrongCells_NoDup.
  - intros Hsolved. cbn [s' Game.handleMistakeCheck Game.mistakes].
    destruct (Game.wrongCells s) as [|m ms] eqn:Hw; [done|]. exfalso.
    assert (m ∈ Game.wrongCells s) as Hm by (rewrite Hw; left).
    apply wrongCells_elem in Hm as (v & Hv & _ & Hwrong).
    rewrite Hsolved in Hv. done.
Qed.

Lemma mistake_check_spec_witness :
  let s := handle (NumpadClick 5) exampleGame in
  Game.mistakes (Game.handleMistakeCheck s) = [CellPosition.mk 0 0] ∧
  NoDup (Game.mistakes (Game.handleMistakeCheck s)) ∧
  Game.board (Game.handleMistakeCheck s) = Game.board s.
Proof.
  intros s. split; [by vm_compute|].
  destruct (mistake_check_spec s) as (_ & Hnodup & Hboard & _).
  - apply (wfGame_handle (NumpadClick 5)); [simpl; lia | apply wfGame_exampleGame].
  - split; [exact Hnodup | exact Hboard].
Defined.

(** ** Notes *)





